(** * A doubly linked list with node-level splicing: model and properties

    Shallow embedding of [src/linked_list_item.ts] (class [LinkedListItem])
    and of the list class built on it (class [LinkedList]).

    Objects live in an arena indexed by references; a reference is always
    valid, as an object reference is in the source.  Loops that follow
    [behind]/[before] pointers take a fuel argument and answer [None] when
    it runs out. *)

From Stdlib Require Import ZArith Lia.
From stdpp Require Import base decidable option list sets strings.

Local Open Scope Z_scope.

(** ** Values held by the items *)

(** The values the list is generic over, as far as the code looks at them:
    strict equality ([===]) in [remove]/[removeAllOccurrences] and
    truthiness ([!initialValue]) in [reduce]/[reduceRight].  Numbers are the
    integer-valued ones plus [NaN]. *)
Inductive Val : Type :=
  | VUndefined
  | VNull
  | VBool (b : bool)
  | VNum (n : Z)
  | VNaN
  | VStr (s : string).

(** [a === b] *)
Definition strict_eq (a b : Val) : bool :=
  match a, b with
  | VUndefined, VUndefined => true
  | VNull, VNull => true
  | VBool x, VBool y => Bool.eqb x y
  | VNum x, VNum y => Z.eqb x y
  | VStr x, VStr y => String.eqb x y
  | _, _ => false
  end.

(** [!!a] *)
Definition truthy (a : Val) : bool :=
  match a with
  | VUndefined | VNull | VNaN => false
  | VBool b => b
  | VNum n => negb (Z.eqb n 0)
  | VStr s => negb (String.eqb s EmptyString)
  end.

(** [a === undefined] *)
Definition is_undefined (a : Val) : bool :=
  match a with VUndefined => true | _ => false end.

(** ** References and callbacks *)

Definition ref : Type := nat.

(** The function stored in an item's [unlinkCleanup] field: either the
    list's own arrow function [LinkedList.unlinkCleanup], or some other
    closure handed to the item's constructor.  The latter is observed only
    through the log of calls. *)
Inductive Callback : Type :=
  | ListCleanup
  | External (k : nat).

(** ** LinkedListItem *)

Module LinkedListItem.

Record t : Type := mk {
  value : Val;
  before : option ref;
  behind : option ref;
  unlinkCleanup : option Callback
}.

Definition set_before (v : option ref) (i : t) : t :=
  mk (value i) v (behind i) (unlinkCleanup i).
Definition set_behind (v : option ref) (i : t) : t :=
  mk (value i) (before i) v (unlinkCleanup i).
Definition set_unlinkCleanup (v : option Callback) (i : t) : t :=
  mk (value i) (before i) (behind i) v.

End LinkedListItem.
Import LinkedListItem.

(** The arena of items. *)
Definition Heap : Type := ref -> LinkedListItem.t.

Definition upd (r : ref) (f : LinkedListItem.t -> LinkedListItem.t) (h : Heap) : Heap :=
  fun r' => if Nat.eqb r' r then f (h r) else h r'.

(** [this.before = before; if (!this.unlinkCleanup) this.unlinkCleanup = before.unlinkCleanup] *)
Definition insertBefore (this bef : ref) (h : Heap) : Heap :=
  let h1 := upd this (set_before (Some bef)) h in
  match unlinkCleanup (h1 this) with
  | Some _ => h1
  | None => upd this (set_unlinkCleanup (unlinkCleanup (h1 bef))) h1
  end.

(** [while (itemChainEnd.behind) itemChainEnd = itemChainEnd.behind] *)
Fixpoint chainEnd (fuel : nat) (itemChainEnd : ref) (h : Heap) : option ref :=
  match fuel with
  | O => None
  | S fuel' =>
      match behind (h itemChainEnd) with
      | Some b => chainEnd fuel' b h
      | None => Some itemChainEnd
      end
  end.

(** [this.insertBehind(item)].  The source reads [this.behind] three times,
    at the test and at the two calls; [insertBefore] writes only the fields
    [before] and [unlinkCleanup], so the three reads give the same reference
    and it is bound once. *)
Fixpoint insertBehind (fuel : nat) (this item : ref) (h : Heap) : option Heap :=
  match fuel with
  | O => None
  | S fuel' =>
      let h1 := insertBefore item this h in
      h3 ← match behind (h1 this) with
           | Some thisBehind =>
               itemChainEnd ← chainEnd fuel' item h1;
               insertBehind fuel' itemChainEnd thisBehind
                 (insertBefore thisBehind itemChainEnd h1)
           | None => Some h1
           end;
      Some (upd this (set_behind (Some item)) h3)
  end.

(** ** LinkedList *)

Module LinkedList.

Record t : Type := mk {
  head : option ref;
  tail : option ref;
  length : Z
}.

End LinkedList.

(** The state a program over one list sees: the arena, the allocation
    pointer (references below it are the objects created so far), the
    fields of the list object, and the log of [unlinkCleanup] calls (which
    function was called on which item), oldest first. *)
Record World : Type := mkWorld {
  items : Heap;
  next_ref : ref;
  self : LinkedList.t;
  calls : list (Callback * ref)
}.

Definition set_items (h : Heap) (w : World) : World :=
  mkWorld h (next_ref w) (self w) (calls w).
Definition set_self (l : LinkedList.t) (w : World) : World :=
  mkWorld (items w) (next_ref w) l (calls w).
Definition upd_item (r : ref) (f : LinkedListItem.t -> LinkedListItem.t) (w : World) : World :=
  set_items (upd r f (items w)) w.
Definition log_call (c : Callback) (r : ref) (w : World) : World :=
  mkWorld (items w) (next_ref w) (self w) (calls w ++ [(c, r)]).

(** [this.head === item] for an item reference *)
Definition is_item (o : option ref) (item : ref) : bool :=
  match o with
  | Some r => Nat.eqb r item
  | None => false
  end.

(** The arrow function [LinkedList.unlinkCleanup]. *)
Definition list_unlinkCleanup (item : ref) (w : World) : World :=
  let l := self w in
  let l1 :=
    if is_item (LinkedList.head l) item
    then LinkedList.mk (behind (items w item)) (LinkedList.tail l) (LinkedList.length l)
    else l in
  let l2 :=
    if is_item (LinkedList.tail l1) item
    then LinkedList.mk (LinkedList.head l1) (before (items w item)) (LinkedList.length l1)
    else l1 in
  set_self (LinkedList.mk (LinkedList.head l2) (LinkedList.tail l2) (LinkedList.length l2 - 1)) w.

(** Calling the function held in an [unlinkCleanup] field. *)
Definition invoke (c : Callback) (item : ref) (w : World) : World :=
  let w' := log_call c item w in
  match c with
  | ListCleanup => list_unlinkCleanup item w'
  | External _ => w'
  end.

(** [this.unlink(unchain)] *)
Definition unlink (unchain : bool) (this : ref) (w : World) : World :=
  let w1 :=
    match before (items w this) with
    | Some p => upd_item p (set_behind (behind (items w this))) w
    | None => w
    end in
  let w2 :=
    match behind (items w1 this) with
    | Some n => upd_item n (set_before (before (items w1 this))) w1
    | None => w1
    end in
  let w3 :=
    match unlinkCleanup (items w2 this) with
    | Some c => invoke c this w2
    | None => w2
    end in
  let w4 := upd_item this (set_unlinkCleanup None) w3 in
  if unchain
  then upd_item this (set_before None) (upd_item this (set_behind None) w4)
  else w4.

(** [new LinkedListItem(value, unlinkCleanup)]: the new object's reference
    and the state after the allocation. *)
Definition new_item (v : Val) (c : option Callback) (w : World) : ref * World :=
  let r := next_ref w in
  (r, mkWorld (upd r (fun _ => LinkedListItem.mk v None None c) (items w))
              (S r) (self w) (calls w)).

(** One round of the loop of [push]. *)
Definition push_value (fuel : nat) (v : Val) (w : World) : option World :=
  let '(item, w0) := new_item v (Some ListCleanup) w in
  w1 ← match LinkedList.head (self w0), LinkedList.tail (self w0) with
       | Some _, Some t =>
           h ← insertBehind fuel t item (items w0);
           Some (set_self (LinkedList.mk (LinkedList.head (self w0)) (Some item)
                                         (LinkedList.length (self w0)))
                          (set_items h w0))
       | _, _ =>
           Some (set_self (LinkedList.mk (Some item) (Some item)
                                         (LinkedList.length (self w0))) w0)
       end;
  Some (set_self (LinkedList.mk (LinkedList.head (self w1)) (LinkedList.tail (self w1))
                                (LinkedList.length (self w1) + 1)) w1).

(** [this.push(...values)]: the returned length and the new state. *)
Fixpoint push (fuel : nat) (values : list Val) (w : World) : option (Z * World) :=
  match values with
  | [] => Some (LinkedList.length (self w), w)
  | v :: rest => w' ← push_value fuel v w; push fuel rest w'
  end.

(** One round of the loop of [unshift]. *)
Definition unshift_value (fuel : nat) (v : Val) (w : World) : option World :=
  let '(item, w0) := new_item v (Some ListCleanup) w in
  w1 ← match LinkedList.tail (self w0), LinkedList.head (self w0) with
       | Some _, Some hd =>
           h ← insertBehind fuel item hd (items w0);
           Some (set_self (LinkedList.mk (Some item) (LinkedList.tail (self w0))
                                         (LinkedList.length (self w0)))
                          (set_items h w0))
       | _, _ =>
           Some (set_self (LinkedList.mk (Some item) (Some item)
                                         (LinkedList.length (self w0))) w0)
       end;
  Some (set_self (LinkedList.mk (LinkedList.head (self w1)) (LinkedList.tail (self w1))
                                (LinkedList.length (self w1) + 1)) w1).

(** [this.unshift(...values)] *)
Fixpoint unshift (fuel : nat) (values : list Val) (w : World) : option (Z * World) :=
  match values with
  | [] => Some (LinkedList.length (self w), w)
  | v :: rest => w' ← unshift_value fuel v w; unshift fuel rest w'
  end.

(** [this.pop()]: the returned value ([None] for no value) and the state. *)
Definition pop (w : World) : option Val * World :=
  match LinkedList.tail (self w) with
  | None => (None, w)
  | Some item =>
      let w' := unlink false item w in
      (Some (value (items w' item)), w')
  end.

(** [this.shift()] *)
Definition shift (w : World) : option Val * World :=
  match LinkedList.head (self w) with
  | None => (None, w)
  | Some item =>
      let w' := unlink false item w in
      (Some (value (items w' item)), w')
  end.

(** [while (this.head) this.head.unlink(true)] *)
Fixpoint unchain_all (fuel : nat) (w : World) : option World :=
  match fuel with
  | O => None
  | S fuel' =>
      match LinkedList.head (self w) with
      | Some hd => unchain_all fuel' (unlink true hd w)
      | None => Some w
      end
  end.

(** [this.clear(unchain)] *)
Definition clear (fuel : nat) (unchain : bool) (w : World) : option World :=
  w1 ← (if unchain then unchain_all fuel w else Some w);
  Some (set_self (LinkedList.mk None None 0) w1).

(** The loop of [remove] over the generator [keys()]: the body runs on
    [current], and only when it does not return does the generator read
    [current.behind]. *)
Fixpoint remove_from (fuel : nat) (v : Val) (current : ref) (w : World)
  : option (bool * World) :=
  match fuel with
  | O => None
  | S fuel' =>
      if strict_eq (value (items w current)) v
      then Some (true, unlink false current w)
      else match behind (items w current) with
           | Some n => remove_from fuel' v n w
           | None => Some (false, w)
           end
  end.

(** [this.remove(value)] *)
Definition remove (fuel : nat) (v : Val) (w : World) : option (bool * World) :=
  match LinkedList.head (self w) with
  | None => Some (false, w)
  | Some current => remove_from fuel v current w
  end.

(** The loop of [removeAllOccurrences] over [keys()]: after the body the
    generator reads [current.behind] in the state the body left. *)
Fixpoint removeAll_from (fuel : nat) (v : Val) (current : ref)
    (foundSomethingToDelete : bool) (w : World) : option (bool * World) :=
  match fuel with
  | O => None
  | S fuel' =>
      let '(found, w') :=
        if strict_eq (value (items w current)) v
        then (true, unlink false current w)
        else (foundSomethingToDelete, w) in
      match behind (items w' current) with
      | Some n => removeAll_from fuel' v n found w'
      | None => Some (found, w')
      end
  end.

(** [this.removeAllOccurrences(value)] *)
Definition removeAllOccurrences (fuel : nat) (v : Val) (w : World)
  : option (bool * World) :=
  match LinkedList.head (self w) with
  | None => Some (false, w)
  | Some current => removeAll_from fuel v current false w
  end.

(** The generator [keys()] run to its end on a state nobody changes
    meanwhile. *)
Fixpoint keys_from (fuel : nat) (current : ref) (h : Heap) : option (list ref) :=
  match fuel with
  | O => None
  | S fuel' =>
      match behind (h current) with
      | Some n => rest ← keys_from fuel' n h; Some (current :: rest)
      | None => Some [current]
      end
  end.

Definition keys (fuel : nat) (w : World) : option (list ref) :=
  match LinkedList.head (self w) with
  | None => Some []
  | Some current => keys_from fuel current (items w)
  end.

(** [[...this.values()]] *)
Definition values (fuel : nat) (w : World) : option (list Val) :=
  ks ← keys fuel w; Some (map (fun r => value (items w r)) ks).

(** [while (current && index--) current = current.behind] *)
Fixpoint walk_behind (fuel : nat) (current : option ref) (index : Z) (h : Heap)
  : option (option ref) :=
  match fuel with
  | O => None
  | S fuel' =>
      match current with
      | None => Some None
      | Some c =>
          if Z.eqb index 0 then Some current
          else walk_behind fuel' (behind (h c)) (index - 1) h
      end
  end.

(** [while (current && ++index) current = current.before] *)
Fixpoint walk_before (fuel : nat) (current : option ref) (index : Z) (h : Heap)
  : option (option ref) :=
  match fuel with
  | O => None
  | S fuel' =>
      match current with
      | None => Some None
      | Some c =>
          if Z.eqb (index + 1) 0 then Some current
          else walk_before fuel' (before (h c)) (index + 1) h
      end
  end.

(** [this.getItemByIndex(index)] for an integer [index]. *)
Definition getItemByIndex (fuel : nat) (index : Z) (w : World) : option (option ref) :=
  match LinkedList.head (self w) with
  | None => Some None
  | Some hd =>
      if Z.ltb 0 index then walk_behind fuel (Some hd) index (items w)
      else if Z.ltb index 0 then walk_before fuel (LinkedList.tail (self w)) index (items w)
      else Some (Some hd)
  end.

(** ** reduce and reduceRight *)

Inductive Error : Type :=
  | TypeError (message : string).

Inductive Completion (A : Type) : Type :=
  | Return (a : A)
  | Throw (e : Error).
Arguments Return {A} a.
Arguments Throw {A} e.

(** The reducer: accumulator, current value, current item.  Its calls are
    recorded, oldest first. *)
Definition Reducer : Type := Val -> Val -> ref -> Val.
Definition ReducerCall : Type := (Val * Val * ref)%type.

(** [do { initialValue = callback(...); current = current.LINK } while (current)] *)
Fixpoint reduce_loop (fuel : nat) (link : LinkedListItem.t -> option ref)
    (callback : Reducer) (acc : Val) (current : ref) (h : Heap)
    (done : list ReducerCall) : option (Val * list ReducerCall) :=
  match fuel with
  | O => None
  | S fuel' =>
      let v := value (h current) in
      let acc' := callback acc v current in
      let done' := done ++ [(acc, v, current)] in
      match link (h current) with
      | Some n => reduce_loop fuel' link callback acc' n h done'
      | None => Some (acc', done')
      end
  end.

Definition empty_accumulator : Error :=
  TypeError "Empty accumulator on empty LinkedList is not allowed.".

(** The common body of [reduce] ([start] is [this.head], [link] is
    [behind]) and [reduceRight] ([this.tail], [before]).  A call without
    the second argument has [initialValue = undefined]. *)
Definition reduce_with (fuel : nat) (start : option ref)
    (link : LinkedListItem.t -> option ref)
    (callback : Reducer) (initialValue : Val) (h : Heap)
  : option (Completion Val * list ReducerCall) :=
  match start with
  | None =>
      if negb (truthy initialValue) then Some (Throw empty_accumulator, [])
      else Some (Return initialValue, [])
  | Some current =>
      if is_undefined initialValue then
        let initialValue' := value (h current) in
        match link (h current) with
        | None => Some (Return initialValue', [])
        | Some n =>
            '(r, cs) ← reduce_loop fuel link callback initialValue' n h [];
            Some (Return r, cs)
        end
      else
        '(r, cs) ← reduce_loop fuel link callback initialValue current h [];
        Some (Return r, cs)
  end.

Definition reduce (fuel : nat) (callback : Reducer) (initialValue : Val) (w : World) :=
  reduce_with fuel (LinkedList.head (self w)) behind callback initialValue (items w).

Definition reduceRight (fuel : nat) (callback : Reducer) (initialValue : Val) (w : World) :=
  reduce_with fuel (LinkedList.tail (self w)) before callback initialValue (items w).

(** ** Construction and sequences of operations *)

(** The list object right after its fields are initialised, in an arena
    that may already hold objects. *)
Definition empty_list (h : Heap) (n : ref) : World :=
  mkWorld h n (LinkedList.mk None None 0) [].

(** [for (const value of values) this.push(value)] *)
Fixpoint push_each (fuel : nat) (vs : list Val) (w : World) : option World :=
  match vs with
  | [] => Some w
  | value :: rest => r ← push fuel [value] w; push_each fuel rest (snd r)
  end.

(** [new LinkedList(values)]; for a [LinkedList] argument, [vs] is what its
    [values()] yields. *)
Definition new_LinkedList (fuel : nat) (vs : list Val) (h : Heap) (n : ref) : option World :=
  push_each fuel vs (empty_list h n).

(** An arena with nothing in it. *)
Definition no_items : Heap := fun _ => LinkedListItem.mk VUndefined None None None.

(** The operations that change a list. *)
Inductive Op : Type :=
  | OpPush (vs : list Val)
  | OpUnshift (vs : list Val)
  | OpPop
  | OpShift
  | OpRemove (v : Val)
  | OpRemoveAllOccurrences (v : Val)
  | OpClear (unchain : bool).

Definition step (fuel : nat) (o : Op) (w : World) : option World :=
  match o with
  | OpPush vs => snd <$> push fuel vs w
  | OpUnshift vs => snd <$> unshift fuel vs w
  | OpPop => Some (snd (pop w))
  | OpShift => Some (snd (shift w))
  | OpRemove v => snd <$> remove fuel v w
  | OpRemoveAllOccurrences v => snd <$> removeAllOccurrences fuel v w
  | OpClear u => clear fuel u w
  end.

Fixpoint run (fuel : nat) (ops : list Op) (w : World) : option World :=
  match ops with
  | [] => Some w
  | o :: rest => w' ← step fuel o w; run fuel rest w'
  end.

(** The number of items a sequence of operations creates. *)
Definition created (o : Op) : nat :=
  match o with
  | OpPush vs | OpUnshift vs => List.length vs
  | _ => O
  end.

Definition total_created (ops : list Op) : nat :=
  foldr (fun o n => (created o + n)%nat) O ops.

(** ** What a well-formed chain is *)

Definition hd_or (l : list ref) (q : option ref) : option ref :=
  match l with
  | [] => q
  | n :: _ => Some n
  end.

Definition last_or (l : list ref) (p : option ref) : option ref :=
  match last l with
  | Some n => Some n
  | None => p
  end.

(** [seg h p ns q]: the items [ns] are doubly linked in this order, the
    first one's [before] is [p] and the last one's [behind] is [q]. *)
Fixpoint seg (h : Heap) (p : option ref) (ns : list ref) (q : option ref) : Prop :=
  match ns with
  | [] => True
  | n :: rest =>
      before (h n) = p /\ behind (h n) = hd_or rest q /\ seg h (Some n) rest q
  end.

(** The paired-link invariant on a set of items: [a.behind == b] implies
    [b.before == a]. *)
Definition paired (h : Heap) (l : list ref) : Prop :=
  forall a b, a ∈ l -> behind (h a) = Some b -> before (h b) = Some a.

(** The list object [self w] represents the items [ns], in this order. *)
Record Rep (w : World) (ns : list ref) : Prop := mkRep {
  rep_nodup : NoDup ns;
  rep_alloc : forall n, n ∈ ns -> (n < next_ref w)%nat;
  rep_seg : seg (items w) None ns None;
  rep_cleanup : forall n, n ∈ ns -> unlinkCleanup (items w n) = Some ListCleanup;
  rep_head : LinkedList.head (self w) = head ns;
  rep_tail : LinkedList.tail (self w) = last ns;
  rep_length : LinkedList.length (self w) = Z.of_nat (List.length ns)
}.

(** The values held by a sequence of items. *)
Definition values_of (h : Heap) (ns : list ref) : list Val :=
  map (fun r => value (h r)) ns.

(** Following [behind] (resp. [before]) exactly [k] times. *)
Fixpoint walk_next (h : Heap) (k : nat) (r : ref) : option ref :=
  match k with
  | O => Some r
  | S k' => match behind (h r) with Some n => walk_next h k' n | None => None end
  end.

Fixpoint walk_prev (h : Heap) (k : nat) (r : ref) : option ref :=
  match k with
  | O => Some r
  | S k' => match before (h r) with Some n => walk_prev h k' n | None => None end
  end.

(** The aggregate invariant of the list object. *)
Definition Invariant (w : World) : Prop :=
  let l := self w in
  (LinkedList.length l = 0 <->
     LinkedList.head l = None /\ LinkedList.tail l = None) /\
  (LinkedList.length l = 1 <->
     exists n, LinkedList.head l = Some n /\ LinkedList.tail l = Some n) /\
  (1 < LinkedList.length l ->
     exists a b, LinkedList.head l = Some a /\ LinkedList.tail l = Some b /\ a <> b /\
       walk_next (items w) (Z.to_nat (LinkedList.length l - 1)) a = Some b /\
       walk_prev (items w) (Z.to_nat (LinkedList.length l - 1)) b = Some a).

(** ** Vocabulary of the statements *)

(** The first item of [ns] whose value strictly equals [v]. *)
Fixpoint first_match (h : Heap) (v : Val) (ns : list ref) : option ref :=
  match ns with
  | [] => None
  | n :: rest => if strict_eq (value (h n)) v then Some n else first_match h v rest
  end.

(** The items of [ns] whose value does not strictly equal [v]. *)
Fixpoint without (h : Heap) (v : Val) (ns : list ref) : list ref :=
  match ns with
  | [] => []
  | n :: rest =>
      if strict_eq (value (h n)) v then without h v rest else n :: without h v rest
  end.

Definition any_match (h : Heap) (v : Val) (ns : list ref) : bool :=
  existsb (fun n => strict_eq (value (h n)) v) ns.

(** The item an index names in the sequence [ns]: counted from the head
    when it is not negative, from the tail ([-1] is the last item) when it
    is, and none when it is out of range. *)
Definition item_at (ns : list ref) (index : Z) : option ref :=
  if Z.leb 0 index then ns !! Z.to_nat index
  else if Z.leb (- Z.of_nat (List.length ns)) index
       then ns !! Z.to_nat (Z.of_nat (List.length ns) + index)
       else None.

(** Any state whose list is empty. *)
Definition emptied (w : World) : World := set_self (LinkedList.mk None None 0) w.

(** A property of the result of a computation that returns. *)
Definition holds_in {A : Type} (o : option A) (P : A -> Prop) : Prop :=
  match o with
  | Some a => P a
  | None => False
  end.

(** ** Sample data *)

(** [new LinkedListItem(v)] for each value, without a callback: the items
    get the references [next_ref w], [next_ref w + 1], ... *)
Fixpoint new_items (vs : list Val) (w : World) : World :=
  match vs with
  | [] => w
  | v :: rest => new_items rest (snd (new_item v None w))
  end.

Definition fresh_items (vs : list Val) : Heap :=
  items (new_items vs (empty_list no_items 0%nat)).

(** The reducer of the tests: [(acc, value) => acc + "," + value]. *)
Definition join_comma : Reducer :=
  fun acc v _ =>
    match acc, v with
    | VStr a, VStr b => VStr (a ++ "," ++ b)
    | _, _ => VUndefined
    end.

Definition sample_ops : list Op :=
  [OpPop; OpUnshift [VNum 7; VNum 8]; OpRemove (VNum 2); OpShift;
   OpRemoveAllOccurrences (VNum 1); OpClear true; OpPush [VNum 4]; OpPush [VNum 5]].

(** Two items, [0] and its successor [1], properly linked. *)
Definition linked_pair : Heap :=
  upd 1%nat (fun _ => LinkedListItem.mk (VNum 2) (Some 0%nat) None None)
    (upd 0%nat (fun _ => LinkedListItem.mk (VNum 1) None (Some 1%nat) None) no_items).

(** The pair [0 -> 1] and, apart from it, the chain [2 -> 3]. *)
Definition two_chains : Heap :=
  upd 3%nat (fun _ => LinkedListItem.mk (VNum 4) (Some 2%nat) None None)
    (upd 2%nat (fun _ => LinkedListItem.mk (VNum 3) None (Some 3%nat) None) linked_pair).

(** The list [[3,4]] written out: items [0] and [1]. *)
Definition list_3_4 : World :=
  mkWorld
    (upd 1%nat (fun _ => LinkedListItem.mk (VNum 4) (Some 0%nat) None (Some ListCleanup))
       (upd 0%nat (fun _ => LinkedListItem.mk (VNum 3) None (Some 1%nat) (Some ListCleanup))
          no_items))
    2%nat (LinkedList.mk (Some 0%nat) (Some 1%nat) 2) [].

(** ** Iterating a list *)

(** The generator [[Symbol.iterator]()], run to its end on a state nobody
    changes meanwhile: the pairs [[current, current.value]]. *)
Fixpoint iterator_from (fuel : nat) (current : ref) (h : Heap)
  : option (list (ref * Val)) :=
  match fuel with
  | O => None
  | S fuel' =>
      let entry := (current, value (h current)) in
      match behind (h current) with
      | Some n => rest ← iterator_from fuel' n h; Some (entry :: rest)
      | None => Some [entry]
      end
  end.

Definition iterator (fuel : nat) (w : World) : option (list (ref * Val)) :=
  match LinkedList.head (self w) with
  | None => Some []
  | Some current => iterator_from fuel current (items w)
  end.

(** [this.entries()] *)
Definition entries (fuel : nat) (w : World) : option (list (ref * Val)) :=
  iterator fuel w.

(** [for (const [item, value] of this) BODY], and
    [for (const item of this.keys()) BODY] with [item.value] for [value].
    The generator yields [current]; the body runs in the state [s] and
    either goes on ([inl]) or returns from the method ([inr]); when it goes
    on, the generator reads [current.behind] in the state the body left. *)
Fixpoint for_of {St R : Type} (fuel : nat) (heap_of : St -> Heap)
    (body : ref -> Val -> St -> option (St + R)) (current : ref) (s : St)
  : option (St + R) :=
  match fuel with
  | O => None
  | S fuel' =>
      r ← body current (value (heap_of s current)) s;
      match r with
      | inr result => Some (inr result)
      | inl s' =>
          match behind (heap_of s' current) with
          | Some n => for_of fuel' heap_of body n s'
          | None => Some (inl s')
          end
      end
  end.

(** The same loop from the generator's start: [if (!current) return]. *)
Definition for_of_list {St R : Type} (fuel : nat) (heap_of : St -> Heap)
    (body : ref -> Val -> St -> option (St + R)) (start : option ref) (s : St)
  : option (St + R) :=
  match start with
  | None => Some (inl s)
  | Some current => for_of fuel heap_of body current s
  end.

(** What a loop that never returns early leaves. *)
Definition finished {St : Type} (r : St + Empty_set) : St :=
  match r with
  | inl s => s
  | inr never => match never with end
  end.

(** A callback [(value, item, list) => ...] of [every], [some], [find],
    [findItem] and [filter], as the truthiness of what it returns.  It is
    taken to leave the list and its items alone.  Its third argument is
    always the list itself, and [callback.bind(thisArg)] changes only what
    [this] is inside the callback.  The scans record the items the callback
    was called on, oldest first. *)
Definition Predicate : Type := Val -> ref -> bool.

(** [this.every(callback)] *)
Definition every (fuel : nat) (callback : Predicate) (w : World)
  : option (bool * list ref) :=
  r ← for_of_list fuel (fun _ => items w)
         (fun item _ called =>
            if callback (value (items w item)) item
            then Some (inl (called ++ [item]))
            else Some (inr (false, called ++ [item])))
         (LinkedList.head (self w)) [];
  Some (match r with inl called => (true, called) | inr result => result end).

(** [this.some(callback)] *)
Definition some (fuel : nat) (callback : Predicate) (w : World)
  : option (bool * list ref) :=
  r ← for_of_list fuel (fun _ => items w)
         (fun item v called =>
            if callback v item
            then Some (inr (true, called ++ [item]))
            else Some (inl (called ++ [item])))
         (LinkedList.head (self w)) [];
  Some (match r with inl called => (false, called) | inr result => result end).

(** [this.find(callback)]; falling off the end of the method gives
    [undefined]. *)
Definition find (fuel : nat) (callback : Predicate) (w : World)
  : option (Val * list ref) :=
  r ← for_of_list fuel (fun _ => items w)
         (fun item v called =>
            if callback v item
            then Some (inr (v, called ++ [item]))
            else Some (inl (called ++ [item])))
         (LinkedList.head (self w)) [];
  Some (match r with inl called => (VUndefined, called) | inr result => result end).

(** [this.findItem(callback)] *)
Definition findItem (fuel : nat) (callback : Predicate) (w : World)
  : option (option ref * list ref) :=
  r ← for_of_list fuel (fun _ => items w)
         (fun item v called =>
            if callback v item
            then Some (inr (Some item, called ++ [item]))
            else Some (inl (called ++ [item])))
         (LinkedList.head (self w)) [];
  Some (match r with inl called => (None, called) | inr result => result end).

(** [this.forEach(callback)]: the calls made, as the pairs of value and
    item handed to the callback. *)
Definition forEach (fuel : nat) (w : World) : option (list (Val * ref)) :=
  finished <$>
    for_of_list fuel (fun _ => items w)
      (fun item v called => Some (inl (called ++ [(v, item)])))
      (LinkedList.head (self w)) [].

(** ** Searching a value *)

(** The loop of [includes]. *)
Fixpoint includes_from (fuel : nat) (v : Val) (current : option ref) (h : Heap)
  : option bool :=
  match fuel with
  | O => None
  | S fuel' =>
      match current with
      | None => Some false
      | Some c =>
          if strict_eq (value (h c)) v then Some true
          else includes_from fuel' v (behind (h c)) h
      end
  end.

(** [this.includes(value, fromIndex)] *)
Definition includes (fuel : nat) (v : Val) (fromIndex : Z) (w : World) : option bool :=
  current ← getItemByIndex fuel fromIndex w;
  includes_from fuel v current (items w).

(** The loop of [itemOf] ([link] is [behind]) and of [lastItemOf]
    ([before]). *)
Fixpoint item_from (fuel : nat) (link : LinkedListItem.t -> option ref)
    (searchedValue : Val) (current : option ref) (h : Heap) : option (option ref) :=
  match fuel with
  | O => None
  | S fuel' =>
      match current with
      | None => Some None
      | Some c =>
          if strict_eq (value (h c)) searchedValue then Some (Some c)
          else item_from fuel' link searchedValue (link (h c)) h
      end
  end.

(** [this.itemOf(searchedValue, fromIndex)] *)
Definition itemOf (fuel : nat) (searchedValue : Val) (fromIndex : Z) (w : World)
  : option (option ref) :=
  current ← getItemByIndex fuel fromIndex w;
  item_from fuel behind searchedValue current (items w).

(** [this.lastItemOf(searchedValue, fromIndex)] *)
Definition lastItemOf (fuel : nat) (searchedValue : Val) (fromIndex : Z) (w : World)
  : option (option ref) :=
  current ← getItemByIndex fuel fromIndex w;
  item_from fuel before searchedValue current (items w).

(** ** Lists made from a list *)

(** The arena as another list object sees it: to that list, the arrow
    function of this list is a closure like any other. *)
Definition foreign (h : Heap) : Heap :=
  fun r =>
    match unlinkCleanup (h r) with
    | Some ListCleanup => set_unlinkCleanup (Some (External 0)) (h r)
    | _ => h r
    end.

(** [new LinkedList()] next to the list of [w], in the same arena. *)
Definition new_list_beside (w : World) : World :=
  empty_list (foreign (items w)) (next_ref w).

(** [this.filter(callback)]: the state of the new list. *)
Definition LinkedList_filter (fuel : nat) (callback : Predicate) (w : World)
  : option World :=
  finished <$>
    for_of_list fuel items
      (fun item v newList =>
         if callback v item
         then r ← push fuel [v] newList; Some (inl (snd r))
         else Some (inl newList))
      (LinkedList.head (self w)) (new_list_beside w).

(** A callback of [map]: the value it returns. *)
Definition Mapper : Type := Val -> ref -> Val.

(** [this.map(callback)] *)
Definition LinkedList_map (fuel : nat) (callback : Mapper) (w : World)
  : option World :=
  finished <$>
    for_of_list fuel items
      (fun item v newList => r ← push fuel [callback v item] newList; Some (inl (snd r)))
      (LinkedList.head (self w)) (new_list_beside w).

(** [new LinkedList(list)] for a list object of the arena, given by its
    [head]: the generator [list.values()] is consumed while the new list
    grows. *)
Definition new_LinkedList_of (fuel : nat) (start : option ref) (h : Heap) (n : ref)
  : option World :=
  finished <$>
    for_of_list fuel items
      (fun _ v newList => r ← push fuel [v] newList; Some (inl (snd r)))
      start (empty_list h n).

(** An argument of [concat]: a value, or a list object of the arena, given
    by its [head]. *)
Inductive Other : Type :=
  | OtherValue (v : Val)
  | OtherList (start : option ref).

(** [[...other.values()]] *)
Definition spread_values (fuel : nat) (start : option ref) (h : Heap) : option (list Val) :=
  match start with
  | None => Some []
  | Some current => ks ← keys_from fuel current h; Some (map (fun r => value (h r)) ks)
  end.

(** [for (const other of others) ...] in [concat] *)
Fixpoint concat_others (fuel : nat) (others : list Other) (newList : World)
  : option World :=
  match others with
  | [] => Some newList
  | other :: rest =>
      r ← match other with
          | OtherList start =>
              vs ← spread_values fuel start (items newList); push fuel vs newList
          | OtherValue v => push fuel [v] newList
          end;
      concat_others fuel rest (snd r)
  end.

(** [this.concat(...others)] *)
Definition LinkedList_concat (fuel : nat) (others : list Other) (w : World)
  : option World :=
  newList ← new_LinkedList_of fuel (LinkedList.head (self w))
               (foreign (items w)) (next_ref w);
  concat_others fuel others newList.

(** ** Vocabulary of the further statements *)

(** The position an index names in a sequence of [len] items. *)
Definition position (len : nat) (index : Z) : option nat :=
  if Z.leb 0 index
  then if Z.ltb index (Z.of_nat len) then Some (Z.to_nat index) else None
  else if Z.leb (- Z.of_nat len) index
       then Some (Z.to_nat (Z.of_nat len + index))
       else None.

(** The items from the one an index names on, towards the tail. *)
Definition from_index (ns : list ref) (index : Z) : list ref :=
  match position (List.length ns) index with
  | Some k => drop k ns
  | None => []
  end.

(** The items from the one an index names on, towards the head. *)
Definition back_from_index (ns : list ref) (index : Z) : list ref :=
  match position (List.length ns) index with
  | Some k => rev (take (S k) ns)
  | None => []
  end.

(** The items up to and including the first one the callback stops at. *)
Fixpoint upto (stop : ref -> bool) (ns : list ref) : list ref :=
  match ns with
  | [] => []
  | n :: rest => if stop n then [n] else n :: upto stop rest
  end.

(** The callback applied to an item of the arena. *)
Definition test_on (h : Heap) (callback : Predicate) (n : ref) : bool :=
  callback (value (h n)) n.

(** The reducer applied along a sequence of items. *)
Definition reduce_over (h : Heap) (callback : Reducer) (ns : list ref) (seed : Val) : Val :=
  fold_left (fun acc n => callback acc (value (h n)) n) ns seed.

(** The values a list of [concat] arguments stands for, the lists among
    them given with their items. *)
Inductive OtherItems : Type :=
  | ItemsOfValue (v : Val)
  | ItemsOfList (ms : list ref).

Definition other_of (o : OtherItems) : Other :=
  match o with
  | ItemsOfValue v => OtherValue v
  | ItemsOfList ms => OtherList (head ms)
  end.

Definition other_values (h : Heap) (o : OtherItems) : list Val :=
  match o with
  | ItemsOfValue v => [v]
  | ItemsOfList ms => values_of h ms
  end.

(** The loop of the generators along a given sequence of items. *)
Fixpoint scan {St R : Type} (h : Heap) (body : ref -> Val -> St -> option (St + R))
    (ns : list ref) (s : St) : option (St + R) :=
  match ns with
  | [] => Some (inl s)
  | n :: rest =>
      r ← body n (value (h n)) s;
      match r with
      | inr result => Some (inr result)
      | inl s' => scan h body rest s'
      end
  end.

(** [linked h link c l]: following [link] from [c] visits the items [l]
    and ends there. *)
Fixpoint linked (h : Heap) (link : LinkedListItem.t -> option ref) (c : ref)
    (l : list ref) : Prop :=
  match l with
  | [] => link (h c) = None
  | n :: rest => link (h c) = Some n /\ linked h link n rest
  end.

(** The calls the reducer gets along a sequence of items. *)
Fixpoint reduce_calls (h : Heap) (callback : Reducer) (ns : list ref) (acc : Val)
  : list ReducerCall :=
  match ns with
  | [] => []
  | n :: rest =>
      (acc, value (h n), n) :: reduce_calls h callback rest (callback acc (value (h n)) n)
  end.

(** A list among the arguments of [concat] is a chain of items created
    before the call, short enough for the fuel. *)
Definition other_ok (h : Heap) (n0 : ref) (fuel : nat) (o : OtherItems) : Prop :=
  match o with
  | ItemsOfValue _ => True
  | ItemsOfList ms =>
      seg h None ms None /\ (forall r, r ∈ ms -> (r < n0)%nat) /\
      (List.length ms <= fuel)%nat
  end.

(** What [filter] and [map] push for an item. *)
Definition kept (callback : Predicate) (item : ref) (v : Val) : list Val :=
  if callback v item then [v] else [].

Definition mapped (callback : Mapper) (item : ref) (v : Val) : list Val :=
  [callback v item].

(** The arena of the list [[3,4]] after [new LinkedListItem(5)]: the new
    item is [2]. *)
Definition list_3_4_and_item : Heap := items (snd (new_item (VNum 5) None list_3_4)).

(** ** Arena lemmas *)

Lemma upd_eq r f (h : Heap) : upd r f h r = f (h r).
Proof. unfold upd. by rewrite Nat.eqb_refl. Qed.

Lemma upd_ne r r' f (h : Heap) : r' <> r -> upd r f h r' = h r'.
Proof. unfold upd. intros H. by apply Nat.eqb_neq in H as ->. Qed.

(** A field that [f] keeps is the same in the updated arena. *)
Ltac upd_keeps :=
  let H := fresh in
  let E := fresh in
  unfold upd; intros H;
  destruct (Nat.eqb _ _) eqn:E; [apply Nat.eqb_eq in E as ->; apply H|done].

Lemma upd_value r f (h : Heap) r' :
  (forall i, value (f i) = value i) -> value (upd r f h r') = value (h r').
Proof. upd_keeps. Qed.

Lemma upd_before_keep r f (h : Heap) r' :
  (forall i, before (f i) = before i) -> before (upd r f h r') = before (h r').
Proof. upd_keeps. Qed.

Lemma upd_behind_keep r f (h : Heap) r' :
  (forall i, behind (f i) = behind i) -> behind (upd r f h r') = behind (h r').
Proof. upd_keeps. Qed.

Lemma upd_cleanup_keep r f (h : Heap) r' :
  (forall i, unlinkCleanup (f i) = unlinkCleanup i) ->
  unlinkCleanup (upd r f h r') = unlinkCleanup (h r').
Proof. upd_keeps. Qed.

(** Reading a field of an item in an updated arena: decide whether the item
    read is the item written. *)
Ltac arena :=
  repeat first
    [ rewrite upd_eq
    | rewrite upd_ne by congruence
    | progress (cbn [value before behind unlinkCleanup set_before set_behind
                     set_unlinkCleanup items self next_ref calls
                     set_items set_self upd_item log_call] in * ) ].

Ltac arena_cases :=
  arena;
  repeat match goal with
         | |- context [upd ?r _ _ ?r'] =>
             destruct (Nat.eq_dec r' r) as [->|?]; arena
         end.

(** Evaluating [unlink] on an item all of whose links are known. *)
Ltac evaluate_unlink :=
  repeat (progress (arena; unfold invoke, list_unlinkCleanup, is_item;
                    cbn [LinkedList.head LinkedList.tail LinkedList.length holds_in];
                    rewrite ?Nat.eqb_refl)).

(** ** Segment lemmas *)

Section Segments.

Context (h : Heap).

Lemma hd_or_app l1 l2 q : hd_or (l1 ++ l2) q = hd_or l1 (hd_or l2 q).
Proof. by destruct l1. Qed.

Lemma last_or_cons n l p : last_or (n :: l) p = last_or l (Some n).
Proof.
  unfold last_or. destruct l as [|m l]; [done|]. rewrite last_cons_cons.
  by destruct (last (m :: l)) eqn:E; [|by apply last_None in E].
Qed.

Lemma hd_or_None l : hd_or l None = head l.
Proof. by destruct l. Qed.

Lemma last_or_None l : last_or l None = last l.
Proof. unfold last_or. by destruct (last l). Qed.

Lemma last_or_snoc l n p : last_or (l ++ [n]) p = Some n.
Proof. unfold last_or. by rewrite last_snoc. Qed.

Lemma seg_cons p n rest q :
  seg h p (n :: rest) q <->
  before (h n) = p /\ behind (h n) = hd_or rest q /\ seg h (Some n) rest q.
Proof. done. Qed.

Lemma seg_app p l1 l2 q :
  seg h p (l1 ++ l2) q <-> seg h p l1 (hd_or l2 q) /\ seg h (last_or l1 p) l2 q.
Proof.
  revert p. induction l1 as [|n l1 IH]; intros p; simpl.
  - unfold last_or. simpl. tauto.
  - rewrite IH, hd_or_app, last_or_cons. tauto.
Qed.

Lemma seg_head_before p ns q n : seg h p ns q -> head ns = Some n -> before (h n) = p.
Proof. destruct ns; [done|]. intros (S1 & _) [= <-]. done. Qed.

Lemma seg_last_behind p ns q n : seg h p ns q -> last ns = Some n -> behind (h n) = q.
Proof.
  intros S [l ->]%last_Some. apply seg_app in S as [_ S]. by destruct S as (_ & S & _).
Qed.

(** A segment survives a change of the arena that keeps the links of its
    inner items, re-targets the first [before] and the last [behind]. *)
Lemma seg_retarget h' p p' ns q q' :
  NoDup ns -> seg h p ns q ->
  (forall n, head ns = Some n -> before (h' n) = p') ->
  (forall n, n ∈ ns -> head ns <> Some n -> before (h' n) = before (h n)) ->
  (forall n, last ns = Some n -> behind (h' n) = q') ->
  (forall n, n ∈ ns -> last ns <> Some n -> behind (h' n) = behind (h n)) ->
  seg h' p' ns q'.
Proof.
  revert p p'. induction ns as [|n ns IH]; intros p p' ND S Hhd Hbef Hlast Hbeh; [done|].
  apply NoDup_cons in ND as [Hn ND]. destruct S as (S1 & S2 & S3).
  cbn [seg]. split; [by apply Hhd|]. split.
  - destruct ns as [|m ns].
    + by apply Hlast.
    + rewrite Hbeh; [done|apply list_elem_of_here|].
      rewrite last_cons_cons. intros E. apply Hn.
      apply list_elem_of_lookup. rewrite last_lookup in E. eauto.
  - destruct ns as [|m ns]; [done|].
    apply (IH (Some n)); try done.
    + intros k [= <-]. rewrite Hbef.
      * by destruct S3.
      * apply list_elem_of_further, list_elem_of_here.
      * intros [= ->]. apply Hn, list_elem_of_here.
    + intros k Hk Hne. apply Hbef; [by apply list_elem_of_further|].
      intros [= ->]. done.
    + intros k Hk Hne. apply Hbeh; [by apply list_elem_of_further|].
      by rewrite last_cons_cons.
Qed.

Lemma seg_frame h' p ns q :
  (forall n, n ∈ ns -> before (h' n) = before (h n) /\ behind (h' n) = behind (h n)) ->
  seg h p ns q -> seg h' p ns q.
Proof.
  revert p. induction ns as [|n ns IH]; intros p H S; [done|].
  destruct S as (S1 & S2 & S3). simpl.
  destruct (H n) as [-> ->]; [apply list_elem_of_here|].
  repeat split; [done..|]. apply IH; [|done].
  intros m Hm. by apply H, list_elem_of_further.
Qed.

(** The index view of a segment. *)
Lemma seg_lookup p ns q i n :
  seg h p ns q -> ns !! i = Some n ->
  before (h n) = match i with O => p | S j => ns !! j end /\
  behind (h n) = match ns !! S i with Some m => Some m | None => q end.
Proof.
  revert p i. induction ns as [|m ns IH]; intros p i S Hi; [done|].
  destruct S as (S1 & S2 & S3). destruct i as [|i]; simpl in *.
  - injection Hi as ->. split; [done|]. rewrite S2. by destruct ns.
  - destruct (IH _ _ S3 Hi) as [-> ->]. by destruct i.
Qed.

Lemma seg_lookup_shift p l a b k :
  seg h p l None -> l !! a = l !! b -> l !! (a + k)%nat = l !! (b + k)%nat.
Proof.
  intros Sg E. induction k as [|k IH]; [by rewrite !Nat.add_0_r|].
  rewrite !Nat.add_succ_r.
  destruct (l !! (a + k)%nat) as [y|] eqn:Ea.
  - symmetry in IH.
    destruct (seg_lookup _ _ _ _ _ Sg Ea) as [_ H1].
    destruct (seg_lookup _ _ _ _ _ Sg IH) as [_ H2].
    rewrite H1 in H2. by destruct (l !! S (a + k)), (l !! S (b + k)).
  - symmetry in IH. apply lookup_ge_None in Ea, IH.
    rewrite (proj2 (lookup_ge_None l (S (a + k)))) by lia.
    by rewrite (proj2 (lookup_ge_None l (S (b + k)))) by lia.
Qed.

(** A segment that ends visits no item twice. *)
Lemma seg_NoDup p l : seg h p l None -> NoDup l.
Proof.
  intros Sg. apply NoDup_alt. intros a b x Ha Hb.
  assert (forall a b, (a < b)%nat -> l !! a = Some x -> l !! b = Some x -> False) as K.
  { clear a b Ha Hb. intros a b Hlt Ha Hb.
    pose proof (seg_lookup_shift p l a b (List.length l - b) Sg) as E.
    rewrite Ha, Hb in E. specialize (E eq_refl).
    pose proof (lookup_lt_Some _ _ _ Hb).
    rewrite (proj2 (lookup_ge_None l (b + (List.length l - b)))) in E by lia.
    apply lookup_ge_None in E. lia. }
  destruct (Nat.lt_trichotomy a b) as [?|[?|?]]; [|done|]; exfalso; eauto.
Qed.

Lemma seg_paired p ns : seg h p ns None -> paired h ns.
Proof.
  intros Sg a b [i Hi]%list_elem_of_lookup Hb.
  destruct (seg_lookup _ _ _ _ _ Sg Hi) as [_ Hbeh]. rewrite Hbeh in Hb.
  destruct (ns !! S i) as [m|] eqn:Em; [|done]. injection Hb as ->.
  by destruct (seg_lookup _ _ _ _ _ Sg Em) as [-> _].
Qed.

End Segments.

(** ** What [unlink] does to the arena and to the list object *)

(** The other items: a neighbour gets the unlinked item's opposite link. *)
Lemma unlink_other u n w r :
  before (items w n) <> Some n -> behind (items w n) <> Some n -> r <> n ->
  before (items (unlink u n w) r) =
    (if decide (behind (items w n) = Some r) then before (items w n)
     else before (items w r)) /\
  behind (items (unlink u n w) r) =
    (if decide (before (items w n) = Some r) then behind (items w n)
     else behind (items w r)) /\
  unlinkCleanup (items (unlink u n w) r) = unlinkCleanup (items w r).
Proof.
  intros Hp Hq Hr. unfold unlink.
  destruct (before (items w n)) as [p|] eqn:Ep, (behind (items w n)) as [q|] eqn:Eq;
    arena; rewrite ?Ep, ?Eq; arena;
    destruct (unlinkCleanup (items w n)) as [[|k]|], u; unfold invoke, list_unlinkCleanup;
    arena; repeat case_decide; simplify_eq; arena_cases; try done; try congruence.
Qed.

(** The unlinked item itself: its links stay (or are cleared by [unchain]),
    its callback reference is cleared. *)
Lemma unlink_this u n w :
  before (items (unlink u n w) n) = (if u then None else before (items w n)) /\
  behind (items (unlink u n w) n) = (if u then None else behind (items w n)) /\
  unlinkCleanup (items (unlink u n w) n) = None.
Proof.
  unfold unlink.
  destruct (before (items w n)) as [p|] eqn:Ep; arena;
    [destruct (Nat.eq_dec n p) as [<-|?]; arena|]; rewrite ?Ep;
    (destruct (behind (items w n)) as [q|] eqn:Eq; arena;
     [destruct (Nat.eq_dec n q) as [<-|?]; arena|]; rewrite ?Ep, ?Eq);
    destruct (unlinkCleanup (items w n)) as [[|k]|], u; unfold invoke, list_unlinkCleanup;
    arena; rewrite ?Ep, ?Eq; done.
Qed.

Lemma unlink_value u n w r : value (items (unlink u n w) r) = value (items w r).
Proof.
  unfold unlink.
  destruct (before (items w n)) as [p|] eqn:Ep; arena;
    (destruct (behind (upd _ _ _ n)) as [q|] eqn:Eq ||
     destruct (behind (items w n)) as [q|] eqn:Eq); arena;
    (destruct (unlinkCleanup (upd _ _ _ n)) as [[|k]|] ||
     destruct (unlinkCleanup (items w n)) as [[|k]|]); destruct u;
    unfold invoke, list_unlinkCleanup; arena;
    repeat (rewrite upd_value; [|by intros []]); done.
Qed.

Lemma unlink_next_ref u n w : next_ref (unlink u n w) = next_ref w.
Proof.
  unfold unlink.
  destruct (before (items w n)) as [p|] eqn:Ep; arena;
    (destruct (behind (upd _ _ _ n)) as [q|] eqn:Eq ||
     destruct (behind (items w n)) as [q|] eqn:Eq); arena;
    (destruct (unlinkCleanup (upd _ _ _ n)) as [[|k]|] ||
     destruct (unlinkCleanup (items w n)) as [[|k]|]); destruct u;
    unfold invoke, list_unlinkCleanup; arena; done.
Qed.

(** An item without a callback: the list object and the log stay. *)
Lemma unlink_no_callback u n w :
  unlinkCleanup (items w n) = None ->
  self (unlink u n w) = self w /\ calls (unlink u n w) = calls w.
Proof.
  intros Hc. unfold unlink.
  assert (forall h, (forall r, unlinkCleanup (h r) = unlinkCleanup (items w r)) ->
            unlinkCleanup (h n) = None) as Hk by (intros h ->; done).
  destruct (before (items w n)) as [p|] eqn:Ep; arena;
    (destruct (behind (upd _ _ _ n)) as [q|] eqn:Eq ||
     destruct (behind (items w n)) as [q|] eqn:Eq); arena;
    rewrite ?Hk; try (destruct u; done);
    intros r; repeat (rewrite upd_cleanup_keep; [|by intros []]); done.
Qed.

(** An item with a callback: one call is logged; the list's own function
    moves [head]/[tail] off the item and decrements [length]. *)
Lemma unlink_callback u n w c :
  unlinkCleanup (items w n) = Some c ->
  before (items w n) <> Some n -> behind (items w n) <> Some n ->
  calls (unlink u n w) = calls w ++ [(c, n)] /\
  self (unlink u n w) =
    match c with
    | External _ => self w
    | ListCleanup =>
        let hd := if is_item (LinkedList.head (self w)) n
                  then behind (items w n) else LinkedList.head (self w) in
        let tl := if is_item (LinkedList.tail (self w)) n
                  then before (items w n) else LinkedList.tail (self w) in
        LinkedList.mk hd tl (LinkedList.length (self w) - 1)
    end.
Proof.
  intros Hc Hp Hq. unfold unlink.
  destruct (before (items w n)) as [p|] eqn:Ep, (behind (items w n)) as [q|] eqn:Eq;
    arena; rewrite ?Ep, ?Eq; arena; rewrite ?Hc;
    destruct c, u; unfold invoke, list_unlinkCleanup; arena; rewrite ?Ep, ?Eq;
    destruct (is_item (LinkedList.head (self w)) n); simpl;
    destruct (is_item (LinkedList.tail (self w)) n); simpl; done.
Qed.

Lemma upd_behind_self p n (h : Heap) :
  behind (upd p (set_behind (behind (h n))) h n) = behind (h n).
Proof. destruct (Nat.eq_dec n p) as [->|?]; [by rewrite upd_eq|by rewrite upd_ne]. Qed.

(** Items that are neither the unlinked one nor its neighbours are not
    touched. *)
Lemma unlink_frame u n w r :
  r <> n -> before (items w n) <> Some r -> behind (items w n) <> Some r ->
  items (unlink u n w) r = items w r.
Proof.
  intros Hr Hp Hq. unfold unlink.
  destruct (before (items w n)) as [p|] eqn:Ep; arena;
    rewrite ?upd_behind_self;
    (destruct (behind (items w n)) as [q|] eqn:Eq); arena;
    (destruct (unlinkCleanup (upd _ _ _ n)) as [[|k]|] ||
     destruct (unlinkCleanup (items w n)) as [[|k]|]); destruct u;
    unfold invoke, list_unlinkCleanup; arena; try done.
Qed.

(** The callback of an item is called on [unlink] whatever the links are. *)
Lemma unlink_calls u n w c :
  unlinkCleanup (items w n) = Some c ->
  calls (unlink u n w) = calls w ++ [(c, n)] /\
  LinkedList.length (self (unlink u n w)) =
    match c with
    | ListCleanup => LinkedList.length (self w) - 1
    | External _ => LinkedList.length (self w)
    end.
Proof.
  intros Hc. unfold unlink.
  destruct (before (items w n)) as [p|] eqn:Ep; arena;
    rewrite ?upd_behind_self;
    destruct (behind (items w n)) as [q|] eqn:Eq; arena;
    rewrite ?upd_cleanup_keep by (by intros []); rewrite Hc;
    destruct c, u; unfold invoke, list_unlinkCleanup; arena;
    repeat match goal with |- context [if ?b then _ else _] => destruct b end; done.
Qed.

(** ** Unlinking an item of a well-formed list *)

Lemma is_item_head l1 n l2 :
  n ∉ l1 -> is_item (head (l1 ++ n :: l2)) n = match l1 with [] => true | _ => false end.
Proof.
  destruct l1 as [|a l1]; simpl; intros H; [by rewrite Nat.eqb_refl|].
  apply Nat.eqb_neq. intros ->. apply H, list_elem_of_here.
Qed.

Lemma is_item_last l1 n l2 :
  n ∉ l2 -> is_item (last (l1 ++ n :: l2)) n = match l2 with [] => true | _ => false end.
Proof.
  rewrite last_app_cons. destruct l2 as [|a l2]; simpl; intros H; [by rewrite Nat.eqb_refl|].
  destruct (last (a :: l2)) as [b|] eqn:E; [|done]. simpl.
  apply Nat.eqb_neq. intros ->. by apply H, last_Some_elem_of.
Qed.

Lemma unlink_Rep u w l1 n l2 :
  Rep w (l1 ++ n :: l2) -> Rep (unlink u n w) (l1 ++ l2).
Proof.
  intros [ND AL SG CL HD TL LEN].
  apply NoDup_app in ND as (ND1 & Hdisj & ND2).
  apply NoDup_cons in ND2 as [Hn2 ND2].
  assert (Hn1 : n ∉ l1) by (intros H; apply (Hdisj _ H), list_elem_of_here).
  assert (Hd12 : forall x, x ∈ l1 -> x ∉ l2)
    by (intros x H1 H2; by apply (Hdisj _ H1), list_elem_of_further).
  apply seg_app in SG as [S1 (Sp & Sq & S2)].
  rewrite last_or_None in Sp. rewrite hd_or_None in Sq. cbn [hd_or] in S1.
  assert (Hp : before (items w n) <> Some n)
    by (rewrite Sp; intros E%last_Some_elem_of; done).
  assert (Hq : behind (items w n) <> Some n)
    by (rewrite Sq; intros E%head_Some_elem_of; done).
  assert (Hmem : forall m, m ∈ l1 ++ l2 -> m <> n /\ m ∈ l1 ++ n :: l2).
  { intros m [H|H]%elem_of_app; (split; [congruence|]); apply elem_of_app; auto.
    right. by apply list_elem_of_further. }
  destruct (unlink_callback u n w ListCleanup) as [_ Hself]; [|done..|].
  { apply CL, elem_of_app. right. apply list_elem_of_here. }
  constructor.
  - apply NoDup_app. auto.
  - intros m Hm. rewrite unlink_next_ref. by apply AL, Hmem.
  - apply seg_app. split.
    + apply (seg_retarget (items w) _ None None l1 (Some n)); [done..| | | |].
      * intros m Hm. destruct (unlink_other u n w m Hp Hq) as (-> & _).
        { intros ->. by apply Hn1, head_Some_elem_of. }
        rewrite decide_False; [by eapply seg_head_before|].
        rewrite Sq. intros E%head_Some_elem_of. eapply Hd12; [|done]. by apply head_Some_elem_of.
      * intros m Hm _. destruct (unlink_other u n w m Hp Hq) as (-> & _); [congruence|].
        rewrite decide_False; [done|].
        rewrite Sq. intros E%head_Some_elem_of. by eapply Hd12.
      * intros m Hm. destruct (unlink_other u n w m Hp Hq) as (_ & -> & _).
        { intros ->. by apply Hn1, last_Some_elem_of. }
        rewrite decide_True by congruence. by rewrite Sq, hd_or_None.
      * intros m Hm Hne. destruct (unlink_other u n w m Hp Hq) as (_ & -> & _); [congruence|].
        rewrite decide_False; [done|congruence].
    + rewrite last_or_None.
      apply (seg_retarget (items w) _ (Some n) (last l1) l2 None); [done..| | | |].
      * intros m Hm. destruct (unlink_other u n w m Hp Hq) as (-> & _).
        { intros ->. by apply Hn2, head_Some_elem_of. }
        rewrite decide_True by congruence. done.
      * intros m Hm Hne. destruct (unlink_other u n w m Hp Hq) as (-> & _); [congruence|].
        rewrite decide_False; [done|congruence].
      * intros m Hm. destruct (unlink_other u n w m Hp Hq) as (_ & -> & _).
        { intros ->. by apply Hn2, last_Some_elem_of. }
        rewrite decide_False; [by eapply seg_last_behind|].
        rewrite Sp. intros E%last_Some_elem_of. eapply Hd12; [done|]. by apply last_Some_elem_of.
      * intros m Hm _. destruct (unlink_other u n w m Hp Hq) as (_ & -> & _); [congruence|].
        rewrite decide_False; [done|].
        rewrite Sp. intros E%last_Some_elem_of. by eapply Hd12.
  - intros m Hm. destruct (Hmem m Hm) as [Hne Hin].
    destruct (unlink_other u n w m Hp Hq Hne) as (_ & _ & ->). by apply CL.
  - rewrite Hself, HD, is_item_head by done. cbn [LinkedList.head].
    destruct l1; [by rewrite Sq|done].
  - rewrite Hself, TL, is_item_last by done. cbn [LinkedList.tail].
    destruct l2 as [|b l2]; [by rewrite Sp, app_nil_r|].
    by rewrite !last_app_cons.
  - rewrite Hself. cbn [LinkedList.length]. rewrite LEN, !length_app. simpl. lia.
Qed.

(** ** What [insertBefore] and [insertBehind] do to the arena *)

Lemma insertBefore_before t b h r :
  before (insertBefore t b h r) = if decide (r = t) then Some b else before (h r).
Proof.
  unfold insertBefore. arena.
  destruct (unlinkCleanup (h t)); case_decide; subst; arena; done.
Qed.

Lemma insertBefore_behind t b h r : behind (insertBefore t b h r) = behind (h r).
Proof.
  unfold insertBefore. arena.
  destruct (unlinkCleanup (h t)); repeat (rewrite upd_behind_keep; [|by intros []]); done.
Qed.

Lemma insertBefore_value t b h r : value (insertBefore t b h r) = value (h r).
Proof.
  unfold insertBefore. arena.
  destruct (unlinkCleanup (h t)); repeat (rewrite upd_value; [|by intros []]); done.
Qed.

Lemma insertBefore_frame t b h r : r <> t -> insertBefore t b h r = h r.
Proof.
  intros H. unfold insertBefore. arena. destruct (unlinkCleanup (h t)); arena; done.
Qed.

(** The callback is inherited only by an item that has none. *)
Lemma insertBefore_cleanup t b h :
  unlinkCleanup (insertBefore t b h t) =
    match unlinkCleanup (h t) with
    | Some c => Some c
    | None => unlinkCleanup (h b)
    end.
Proof.
  unfold insertBefore. arena. destruct (unlinkCleanup (h t)) eqn:E; arena; [done|].
  destruct (Nat.eq_dec b t) as [->|?]; arena; done.
Qed.

Lemma chainEnd_ext fuel n h h' :
  (forall r, behind (h' r) = behind (h r)) -> chainEnd fuel n h' = chainEnd fuel n h.
Proof.
  intros H. revert n. induction fuel as [|f IH]; intros n; [done|].
  simpl. rewrite H. destruct (behind (h n)); [apply IH|done].
Qed.

Lemma chainEnd_behind fuel n h e : chainEnd fuel n h = Some e -> behind (h e) = None.
Proof.
  revert n. induction fuel as [|f IH]; intros n; [done|].
  simpl. destruct (behind (h n)) eqn:E; [apply IH|]. by intros [= <-].
Qed.

(** On a segment that ends, the walk reaches the last item, given one unit
    of fuel for each item. *)
Lemma chainEnd_seg fuel h p n ns :
  seg h p (n :: ns) None -> (List.length ns < fuel)%nat ->
  chainEnd fuel n h = last (n :: ns).
Proof.
  revert p n fuel. induction ns as [|m ns IH]; intros p n fuel (S1 & S2 & S3) Hf;
    (destruct fuel as [|f]; [simpl in Hf; lia|]); simpl in *; rewrite S2; [done|].
  apply (IH (Some n)); [done|lia].
Qed.

Lemma insertBehind_no_successor fuel this item h :
  behind (h this) = None -> (1 <= fuel)%nat ->
  insertBehind fuel this item h =
    Some (upd this (set_behind (Some item)) (insertBefore item this h)).
Proof.
  intros Hb Hf. destruct fuel as [|f]; [lia|]. simpl.
  by rewrite insertBefore_behind, Hb.
Qed.

Lemma insertBehind_successor fuel this item h o e :
  behind (h this) = Some o -> chainEnd (pred fuel) item h = Some e -> (2 <= fuel)%nat ->
  insertBehind fuel this item h =
    Some (upd this (set_behind (Some item))
           (upd e (set_behind (Some o))
              (insertBefore o e (insertBefore o e (insertBefore item this h))))).
Proof.
  intros Hb He Hf. destruct fuel as [|[|f]]; [lia..|]. cbn [pred] in He.
  cbn [insertBehind]. rewrite insertBefore_behind, Hb.
  rewrite (chainEnd_ext _ _ h) by apply insertBefore_behind. rewrite He. cbn [mbind option_bind].
  rewrite !insertBefore_behind. by rewrite (chainEnd_behind _ _ _ _ He).
Qed.

(** ** Splicing a chain in *)

(** The chain [item :: ns] is spliced into the chain [pre ++ this :: post]
    right behind [this], when the two chains share no item. *)
Lemma insertBehind_splice fuel h p0 pre this post q0 item ns :
  seg h p0 (pre ++ this :: post) None ->
  seg h q0 (item :: ns) None ->
  NoDup ((pre ++ this :: post) ++ item :: ns) ->
  (post = [] /\ (1 <= fuel)%nat) \/ (List.length ns + 2 <= fuel)%nat ->
  exists h',
    insertBehind fuel this item h = Some h' /\
    seg h' p0 (pre ++ this :: (item :: ns) ++ post) None /\
    (forall r, value (h' r) = value (h r)) /\
    (forall r c, unlinkCleanup (h r) = Some c -> unlinkCleanup (h' r) = Some c) /\
    (forall r, r <> item -> head post <> Some r ->
               unlinkCleanup (h' r) = unlinkCleanup (h r)) /\
    unlinkCleanup (h' item) =
      match unlinkCleanup (h item) with
      | Some c => Some c
      | None => unlinkCleanup (h this)
      end /\
    (forall r, r ∉ (pre ++ this :: post) ++ item :: ns -> h' r = h r).
Proof.
  intros SG SN ND Hf.
  apply NoDup_app in ND as (ND1 & Hdisj & ND2).
  apply NoDup_app in ND1 as (NDpre & Hpre & NDpost).
  apply NoDup_cons in NDpost as [Hthis NDpost].
  apply seg_app in SG as [Spre (Sb & Sn & Spost)]. cbn [hd_or] in Spre.
  rewrite hd_or_None in Sn.
  assert (Hend : (List.length ns < pred fuel)%nat -> chainEnd (pred fuel) item h = last (item :: ns))
    by (by apply (chainEnd_seg _ h q0)).
  remember (item :: ns) as N eqn:EN.
  assert (HitemN : item ∈ N) by (subst N; apply list_elem_of_here).
  assert (HheadN : head N = Some item) by (by subst N).
  assert (HhdN : forall x, hd_or N x = Some item) by (by subst N).
  assert (HNthis : forall r, r ∈ N -> r <> this).
  { intros r Hr ->. eapply Hdisj; [|done]. apply elem_of_app. right. apply list_elem_of_here. }
  assert (HNpre : forall r, r ∈ N -> r ∉ pre).
  { intros r Hr H. eapply Hdisj; [|done]. apply elem_of_app. by left. }
  assert (HNpost : forall r, r ∈ N -> r ∉ post).
  { intros r Hr H. eapply Hdisj; [|done]. apply elem_of_app. right. by apply list_elem_of_further. }
  assert (Hthis_pre : this ∉ pre).
  { intros H. apply (Hpre _ H), list_elem_of_here. }
  assert (Hpp : forall r, r ∈ pre -> r ∉ post).
  { intros r H1 H2. by apply (Hpre _ H1), list_elem_of_further. }
  assert (is_Some (last N)) as [e He] by (apply last_is_Some; by subst N).
  assert (HeN : e ∈ N) by by apply last_Some_elem_of.
  assert (Hebeh : behind (h e) = None) by by eapply seg_last_behind.
  assert (Hpre_item : forall r, r ∈ pre -> r <> item) by (intros r H E; subst; by apply (HNpre _ HitemN)).
  assert (Hpre_e : forall r, r ∈ pre -> r <> e) by (intros r H E; subst; by apply (HNpre _ HeN)).
  assert (Hpre_this : forall r, r ∈ pre -> r <> this) by (intros r H ->; done).
  assert (Hitem_this : item <> this) by by apply HNthis.
  assert (He_this : e <> this) by by apply HNthis.
  destruct post as [|o post].
  - (* [this] is the last item of its chain *)
    eexists. split; [apply insertBehind_no_successor; [done|lia]|].
    split; [|split; [|split; [|split; [|split]]]].
    + apply seg_app. split.
      * eapply seg_frame; [|exact Spre]. intros r Hr.
        rewrite upd_ne by (by apply Hpre_this).
        rewrite insertBefore_frame; [done|]. by apply Hpre_item.
      * apply seg_cons. rewrite upd_eq, app_nil_r, HhdN. cbn.
        split; [|split; [done|]].
        { rewrite insertBefore_frame; [done|]. congruence. }
        apply (seg_retarget h _ q0 (Some this) N None); [done..| | | |].
        -- intros m Hm. replace m with item by congruence. rewrite upd_ne by done.
           rewrite insertBefore_before. by rewrite decide_True.
        -- intros m Hm Hne. rewrite upd_ne by (by apply HNthis).
           rewrite insertBefore_before. rewrite decide_False; [done|]. congruence.
        -- intros m Hm. rewrite upd_ne by (apply HNthis; by apply last_Some_elem_of).
           rewrite insertBefore_behind. by eapply seg_last_behind.
        -- intros m Hm _. rewrite upd_ne by (by apply HNthis).
           by rewrite insertBefore_behind.
    + intros r. rewrite upd_value by (by intros []). apply insertBefore_value.
    + intros r c Hc. rewrite upd_cleanup_keep by (by intros []).
      destruct (Nat.eq_dec r item) as [->|?].
      * by rewrite insertBefore_cleanup, Hc.
      * by rewrite insertBefore_frame.
    + intros r Hr _. rewrite upd_cleanup_keep by (by intros []).
      by rewrite insertBefore_frame.
    + rewrite upd_cleanup_keep by (by intros []). apply insertBefore_cleanup.
    + intros r Hr. rewrite upd_ne, insertBefore_frame; [done| |].
      * intros ->. apply Hr, elem_of_app. by right.
      * intros ->. apply Hr, elem_of_app. left. apply elem_of_app. right. apply list_elem_of_here.
  - (* [this] has the successor [o] *)
    destruct Hf as [[? _]|Hf]; [done|].
    assert (Ho : o <> this) by (intros ->; apply Hthis, list_elem_of_here).
    assert (HoN : o ∉ N).
    { intros H. apply (HNpost o H). apply list_elem_of_here. }
    assert (Hopre : o ∉ pre).
    { intros H. apply (Hpp o H), list_elem_of_here. }
    assert (Hitem_o : item <> o) by (intros <-; done).
    assert (He_o : e <> o) by (intros <-; done).
    cbn [head] in Sn.
    eexists. split.
    { apply (insertBehind_successor _ _ _ _ o e); [done| |lia].
      rewrite Hend; [done|lia]. }
    set (h2 := insertBefore o e (insertBefore o e (insertBefore item this h))).
    assert (B2 : forall r, behind (h2 r) = behind (h r)).
    { intros r. unfold h2. by rewrite !insertBefore_behind. }
    assert (F2 : forall r, r <> o -> r <> item -> h2 r = h r).
    { intros r ? ?. unfold h2. by rewrite !insertBefore_frame. }
    assert (Bo : before (h2 o) = Some e).
    { unfold h2. rewrite insertBefore_before. by rewrite decide_True. }
    assert (Bi : before (h2 item) = Some this).
    { unfold h2. rewrite !insertBefore_before.
      rewrite !decide_False by done. by rewrite decide_True. }
    assert (Bf : forall r, before (upd this (set_behind (Some item))
                                    (upd e (set_behind (Some o)) h2) r) = before (h2 r)).
    { intros r. by rewrite !upd_before_keep by (by intros []). }
    split; [|split; [|split; [|split; [|split]]]].
    + apply seg_app. split.
      * eapply seg_frame; [|exact Spre]. intros r Hr.
        rewrite !upd_ne by auto. rewrite F2; [done| |by auto]. intros ->. done.
      * apply seg_cons. rewrite Bf, upd_eq, hd_or_app, HhdN. cbn.
        split; [|split; [done|]].
        { rewrite F2; [done|congruence..]. }
        apply seg_app. cbn [hd_or]. split.
        -- apply (seg_retarget h _ q0 (Some this) N None); [done..| | | |].
           ++ intros m Hm. replace m with item by congruence. by rewrite Bf.
           ++ intros m Hm Hne. rewrite Bf, F2; [done| |congruence]. intros ->. done.
           ++ intros m Hm. replace m with e by congruence.
              rewrite upd_ne by done. rewrite upd_eq. done.
           ++ intros m Hm Hne. rewrite !upd_ne; [apply B2|congruence|by apply HNthis].
        -- unfold last_or. rewrite He.
           apply (seg_retarget h _ (Some this) (Some e) (o :: post) None); [done..| | | |].
           ++ intros m [= <-]. by rewrite Bf.
           ++ intros m Hm Hne. rewrite Bf, F2; [done|by intros ->|].
              intros ->. by apply (HNpost item).
           ++ intros m Hm. pose proof (last_Some_elem_of _ _ Hm) as Hin.
              rewrite !upd_ne; [|intros ->; by apply (HNpost e)|intros ->; done].
              rewrite B2. exact (seg_last_behind _ _ _ _ _ Spost Hm).
           ++ intros m Hm _.
              rewrite !upd_ne; [apply B2|intros ->; by apply (HNpost e)|intros ->; done].
    + intros r. rewrite !upd_value by (by intros []). unfold h2.
      by rewrite !insertBefore_value.
    + intros r c Hc. rewrite !upd_cleanup_keep by (by intros []). unfold h2.
      assert (forall t b g, unlinkCleanup (g r) = Some c ->
                unlinkCleanup (insertBefore t b g r) = Some c) as K.
      { intros t b g Hg. destruct (Nat.eq_dec r t) as [->|?].
        - by rewrite insertBefore_cleanup, Hg.
        - by rewrite insertBefore_frame. }
      by do 3 apply K.
    + intros r Hr Hro. rewrite !upd_cleanup_keep by (by intros []).
      rewrite F2; [done| |done]. intros ->. done.
    + rewrite !upd_cleanup_keep by (by intros []). unfold h2.
      rewrite !insertBefore_frame by done. apply insertBefore_cleanup.
    + intros r Hr.
      assert (r <> this).
      { intros ->. apply Hr, elem_of_app. left. apply elem_of_app. right. apply list_elem_of_here. }
      assert (r <> o).
      { intros ->. apply Hr, elem_of_app. left. apply elem_of_app. right.
        apply list_elem_of_further, list_elem_of_here. }
      assert (r ∉ N) by (intros HrN; apply Hr, elem_of_app; by right).
      rewrite !upd_ne; [|intros ->; done|done]. apply F2; [done|]. intros ->. done.
Qed.

(** ** push and unshift on a well-formed list *)

Lemma Rep_ends w ns :
  Rep w ns ->
  (ns = [] /\ LinkedList.head (self w) = None /\ LinkedList.tail (self w) = None) \/
  (exists a t, LinkedList.head (self w) = Some a /\ LinkedList.tail (self w) = Some t /\
               head ns = Some a /\ last ns = Some t).
Proof.
  intros R. rewrite (rep_head _ _ R), (rep_tail _ _ R).
  destruct ns as [|a ns]; [by left|]. right.
  assert (is_Some (last (a :: ns))) as [t Ht] by (by apply last_is_Some).
  exists a, t. by rewrite Ht.
Qed.

Lemma Rep_fresh w ns : Rep w ns -> next_ref w ∉ ns.
Proof. intros R H. apply (rep_alloc _ _ R) in H. lia. Qed.

Lemma push_value_Rep fuel v w ns :
  Rep w ns -> (1 <= fuel)%nat ->
  exists w',
    push_value fuel v w = Some w' /\
    Rep w' (ns ++ [next_ref w]) /\
    next_ref w' = S (next_ref w) /\
    value (items w' (next_ref w)) = v /\
    (forall r, r <> next_ref w -> value (items w' r) = value (items w r)) /\
    calls w' = calls w.
Proof.
  intros R Hf. pose proof (Rep_fresh _ _ R) as Hfresh.
  set (r := next_ref w) in *.
  set (h0 := upd r (fun _ => LinkedListItem.mk v None None (Some ListCleanup)) (items w)).
  assert (Hold : forall n, n ∈ ns -> h0 n = items w n).
  { intros n Hn. unfold h0. rewrite upd_ne; [done|]. intros ->. done. }
  assert (S0 : seg h0 None ns None).
  { eapply seg_frame; [|apply (rep_seg _ _ R)]. intros n Hn. by rewrite Hold. }
  unfold push_value, new_item. fold r. fold h0. cbn [self items].
  destruct (Rep_ends _ _ R) as [(-> & Hh & Htl)|(a & t & Hh & Htl & Ha & Ht)];
    rewrite Hh, ?Htl.
  - eexists. split; [done|]. cbn. split; [|split; [done|split; [|split; [|done]]]].
    + constructor; cbn.
      * apply NoDup_singleton.
      * intros n ->%list_elem_of_singleton. lia.
      * unfold h0. by rewrite upd_eq.
      * intros n ->%list_elem_of_singleton. unfold h0. by rewrite upd_eq.
      * done.
      * done.
      * rewrite (rep_length _ _ R). done.
    + unfold h0. by rewrite upd_eq.
    + intros n Hn. unfold h0. by rewrite upd_ne.
  - apply last_Some in Ht as [pre ->].
    destruct (insertBehind_splice fuel h0 None pre t [] None r [])
      as (h' & -> & S' & Hval & Hcl & _ & _ & _); [done| | |by left|].
    { apply seg_cons. unfold h0. by rewrite upd_eq. }
    { apply NoDup_app. split; [apply (rep_nodup _ _ R)|]. split; [|apply NoDup_singleton].
      intros x Hx ->%list_elem_of_singleton. done. }
    eexists. split; [done|]. cbn. split; [|split; [done|split; [|split; [|done]]]].
    + constructor; cbn.
      * apply NoDup_app. split; [apply (rep_nodup _ _ R)|]. split; [|apply NoDup_singleton].
        intros x Hx ->%list_elem_of_singleton. done.
      * intros n [Hn| ->%list_elem_of_singleton]%elem_of_app; [|lia].
        apply (rep_alloc _ _ R) in Hn. lia.
      * rewrite app_nil_r in S'. by rewrite <- app_assoc.
      * intros n [Hn| ->%list_elem_of_singleton]%elem_of_app; apply Hcl.
        -- rewrite Hold by done. by apply (rep_cleanup _ _ R).
        -- unfold h0. by rewrite upd_eq.
      * rewrite head_app, Ha. done.
      * by rewrite last_snoc.
      * rewrite (rep_length _ _ R), !length_app. simpl. lia.
    + rewrite Hval. unfold h0. by rewrite upd_eq.
    + intros n Hn. rewrite Hval. unfold h0. by rewrite upd_ne.
Qed.

Lemma unshift_value_Rep fuel v w ns :
  Rep w ns -> (1 <= fuel)%nat ->
  exists w',
    unshift_value fuel v w = Some w' /\
    Rep w' (next_ref w :: ns) /\
    next_ref w' = S (next_ref w) /\
    value (items w' (next_ref w)) = v /\
    (forall r, r <> next_ref w -> value (items w' r) = value (items w r)) /\
    calls w' = calls w.
Proof.
  intros R Hf. pose proof (Rep_fresh _ _ R) as Hfresh.
  set (r := next_ref w) in *.
  set (h0 := upd r (fun _ => LinkedListItem.mk v None None (Some ListCleanup)) (items w)).
  assert (Hold : forall n, n ∈ ns -> h0 n = items w n).
  { intros n Hn. unfold h0. rewrite upd_ne; [done|]. intros ->. done. }
  assert (S0 : seg h0 None ns None).
  { eapply seg_frame; [|apply (rep_seg _ _ R)]. intros n Hn. by rewrite Hold. }
  unfold unshift_value, new_item. fold r. fold h0. cbn [self items].
  destruct (Rep_ends _ _ R) as [(-> & Hh & Htl)|(a & t & Hh & Htl & Ha & Ht)];
    rewrite Hh, ?Htl.
  - eexists. split; [done|]. cbn. split; [|split; [done|split; [|split; [|done]]]].
    + constructor; cbn.
      * apply NoDup_singleton.
      * intros n ->%list_elem_of_singleton. lia.
      * unfold h0. by rewrite upd_eq.
      * intros n ->%list_elem_of_singleton. unfold h0. by rewrite upd_eq.
      * done.
      * done.
      * rewrite (rep_length _ _ R). done.
    + unfold h0. by rewrite upd_eq.
    + intros n Hn. unfold h0. by rewrite upd_ne.
  - apply head_Some in Ha as [ns' ->].
    destruct (insertBehind_splice fuel h0 None [] r [] None a ns')
      as (h' & -> & S' & Hval & Hcl & _ & _ & _); [|done| |by left|].
    { apply seg_cons. unfold h0. by rewrite upd_eq. }
    { apply NoDup_cons. split; [done|apply (rep_nodup _ _ R)]. }
    eexists. split; [done|]. cbn. split; [|split; [done|split; [|split; [|done]]]].
    + constructor; cbn.
      * apply NoDup_cons. split; [done|apply (rep_nodup _ _ R)].
      * intros n [->|Hn]%elem_of_cons; [lia|].
        apply (rep_alloc _ _ R) in Hn. lia.
      * rewrite app_nil_r in S'. done.
      * intros n [->|Hn]%elem_of_cons; apply Hcl.
        -- unfold h0. by rewrite upd_eq.
        -- rewrite Hold by done. by apply (rep_cleanup _ _ R).
      * done.
      * by rewrite <- Ht.
      * rewrite (rep_length _ _ R). cbn [List.length]. lia.
    + rewrite Hval. unfold h0. by rewrite upd_eq.
    + intros n Hn. rewrite Hval. unfold h0. by rewrite upd_ne.
Qed.

Lemma push_Rep fuel vs w ns :
  Rep w ns -> (1 <= fuel)%nat ->
  exists w' new,
    push fuel vs w = Some (Z.of_nat (List.length ns + List.length vs), w') /\
    Rep w' (ns ++ new) /\
    values_of (items w') new = vs /\
    (forall r, (r < next_ref w)%nat -> value (items w' r) = value (items w r)) /\
    next_ref w' = (next_ref w + List.length vs)%nat /\
    calls w' = calls w.
Proof.
  intros R Hf. revert w ns R. induction vs as [|v vs IH]; intros w ns R.
  - exists w, []. cbn. rewrite app_nil_r, Nat.add_0_r, (rep_length _ _ R). done.
  - destruct (push_value_Rep fuel v w ns R Hf) as (w1 & E1 & R1 & N1 & V1 & O1 & C1).
    destruct (IH w1 _ R1) as (w' & new & E & R' & V & O & N & C).
    exists w', (next_ref w :: new). cbn [push]. rewrite E1. cbn [mbind option_bind].
    rewrite E, length_app. cbn [List.length].
    split; [do 3 f_equal; lia|]. split; [by rewrite <- app_assoc in R'|].
    split; [|split; [|split]].
    + unfold values_of in *. cbn [map]. rewrite V, O, V1; [done|lia].
    + intros r Hr. rewrite O, O1; [done|lia..].
    + lia.
    + congruence.
Qed.

Lemma unshift_Rep fuel vs w ns :
  Rep w ns -> (1 <= fuel)%nat ->
  exists w' new,
    unshift fuel vs w = Some (Z.of_nat (List.length ns + List.length vs), w') /\
    Rep w' (new ++ ns) /\
    values_of (items w') new = rev vs /\
    (forall r, (r < next_ref w)%nat -> value (items w' r) = value (items w r)) /\
    next_ref w' = (next_ref w + List.length vs)%nat /\
    calls w' = calls w.
Proof.
  intros R Hf. revert w ns R. induction vs as [|v vs IH]; intros w ns R.
  - exists w, []. cbn. rewrite Nat.add_0_r, (rep_length _ _ R). done.
  - destruct (unshift_value_Rep fuel v w ns R Hf) as (w1 & E1 & R1 & N1 & V1 & O1 & C1).
    destruct (IH w1 _ R1) as (w' & new & E & R' & V & O & N & C).
    exists w', (new ++ [next_ref w]). cbn [unshift]. rewrite E1. cbn [mbind option_bind].
    rewrite E. cbn [List.length].
    split; [do 3 f_equal; lia|]. split; [by rewrite <- app_assoc|].
    split; [|split; [|split]].
    + unfold values_of in *. rewrite map_app, V. cbn [map rev]. rewrite O, V1; [done|lia].
    + intros r Hr. rewrite O, O1; [done|lia..].
    + lia.
    + congruence.
Qed.

Lemma push_on_empty fuel x w :
  Rep w [] -> (1 <= fuel)%nat ->
  exists w' r,
    push fuel [x] w = Some (1, w') /\
    LinkedList.head (self w') = Some r /\ LinkedList.tail (self w') = Some r /\
    value (items w' r) = x /\ LinkedList.length (self w') = 1.
Proof.
  intros R Hf.
  destruct (push_Rep fuel [x] w [] R Hf) as (w' & new & E & R' & V & _).
  destruct new as [|r [|? ?]]; try done. injection V as V.
  exists w', r. split; [done|].
  rewrite (rep_head _ _ R'), (rep_tail _ _ R'), (rep_length _ _ R'). done.
Qed.

Lemma values_of_ext h h' ns :
  (forall r, r ∈ ns -> value (h' r) = value (h r)) -> values_of h' ns = values_of h ns.
Proof.
  intros H. unfold values_of. induction ns as [|n ns IH]; [done|]. cbn.
  rewrite H by apply list_elem_of_here. f_equal. apply IH.
  intros r Hr. by apply H, list_elem_of_further.
Qed.

(** ** pop and shift on a well-formed list *)

Lemma pop_Rep w ns :
  Rep w ns ->
  match last ns with
  | None => pop w = (None, w)
  | Some n =>
      pop w = (Some (value (items w n)), unlink false n w) /\
      exists pre, ns = pre ++ [n] /\ Rep (unlink false n w) pre
  end.
Proof.
  intros R. unfold pop. rewrite (rep_tail _ _ R).
  destruct (last ns) as [n|] eqn:E; [|done].
  rewrite unlink_value. split; [done|].
  apply last_Some in E as [pre ->]. exists pre. split; [done|].
  pose proof (unlink_Rep false w pre n [] R) as R'. by rewrite app_nil_r in R'.
Qed.

Lemma shift_Rep w ns :
  Rep w ns ->
  match ns with
  | [] => shift w = (None, w)
  | n :: rest =>
      shift w = (Some (value (items w n)), unlink false n w) /\
      Rep (unlink false n w) rest
  end.
Proof.
  intros R. unfold shift. rewrite (rep_head _ _ R).
  destruct ns as [|n rest]; [done|]. cbn [head].
  rewrite unlink_value. split; [done|]. by apply (unlink_Rep false w []).
Qed.

(** ** remove and removeAllOccurrences on a well-formed list *)

Lemma first_match_Some h v ns m :
  first_match h v ns = Some m ->
  exists l1 l2, ns = l1 ++ m :: l2 /\ strict_eq (value (h m)) v = true /\
                Forall (fun n => strict_eq (value (h n)) v = false) l1.
Proof.
  induction ns as [|n ns IH]; [done|]. cbn.
  destruct (strict_eq (value (h n)) v) eqn:E.
  - intros [= <-]. by exists [], ns.
  - intros (l1 & l2 & -> & ? & ?)%IH. exists (n :: l1), l2. auto.
Qed.

Lemma first_match_None h v ns :
  first_match h v ns = None <-> Forall (fun n => strict_eq (value (h n)) v = false) ns.
Proof.
  induction ns as [|n ns IH]; cbn; [by split|].
  destruct (strict_eq (value (h n)) v) eqn:E.
  - split; [done|]. intros [? _]%Forall_cons. congruence.
  - rewrite IH, Forall_cons. tauto.
Qed.

Lemma first_match_app h v l1 m l2 :
  Forall (fun n => strict_eq (value (h n)) v = false) l1 ->
  strict_eq (value (h m)) v = true ->
  first_match h v (l1 ++ m :: l2) = Some m.
Proof.
  induction 1 as [|n l1 Hn _ IH]; intros Hm; cbn; [by rewrite Hm|].
  rewrite Hn. by apply IH.
Qed.

Lemma without_ext h h' v ns :
  (forall r, value (h' r) = value (h r)) -> without h' v ns = without h v ns.
Proof. intros H. induction ns as [|n ns IH]; [done|]. cbn. by rewrite H, IH. Qed.

Lemma without_values h v ns :
  values_of h (without h v ns) =
  List.filter (fun x => negb (strict_eq x v)) (values_of h ns).
Proof.
  unfold values_of. induction ns as [|n ns IH]; [done|]. cbn.
  destruct (strict_eq (value (h n)) v); cbn; by rewrite IH.
Qed.

Lemma remove_from_seg fuel v w p cur l2 :
  seg (items w) p (cur :: l2) None -> (List.length l2 < fuel)%nat ->
  remove_from fuel v cur w =
    match first_match (items w) v (cur :: l2) with
    | Some m => Some (true, unlink false m w)
    | None => Some (false, w)
    end.
Proof.
  revert p cur fuel. induction l2 as [|n l2 IH]; intros p cur fuel (S1 & S2 & S3) Hf;
    (destruct fuel as [|f]; [cbn in Hf; lia|]); cbn [remove_from first_match];
    destruct (strict_eq (value (items w cur)) v); try done; rewrite S2; cbn [hd_or].
  - done.
  - rewrite (IH (Some cur)); [done..|]. cbn in Hf. lia.
Qed.

Lemma removeAll_from_Rep fuel v w l1 cur l2 found :
  Rep w (l1 ++ cur :: l2) -> (List.length l2 < fuel)%nat ->
  exists w',
    removeAll_from fuel v cur found w
      = Some (found || any_match (items w) v (cur :: l2), w') /\
    Rep w' (l1 ++ without (items w) v (cur :: l2)) /\
    (forall r, value (items w' r) = value (items w r)) /\
    next_ref w' = next_ref w.
Proof.
  revert w l1 cur found fuel.
  induction l2 as [|n l2 IH]; intros w l1 cur found fuel R Hf;
    (destruct fuel as [|f]; [cbn in Hf; lia|]); cbn [removeAll_from without any_match existsb].
  - pose proof (rep_seg _ _ R) as [_ (_ & Hb & _)]%seg_app. cbn in Hb.
    destruct (strict_eq (value (items w cur)) v).
    + destruct (unlink_this false cur w) as (_ & -> & _). rewrite Hb.
      exists (unlink false cur w). rewrite orb_true_r. split; [done|].
      split; [by apply unlink_Rep|]. split; [apply unlink_value|apply unlink_next_ref].
    + rewrite Hb. exists w. by rewrite orb_false_r.
  - pose proof (rep_seg _ _ R) as [_ (_ & Hb & _)]%seg_app. cbn in Hb.
    destruct (strict_eq (value (items w cur)) v).
    + destruct (unlink_this false cur w) as (_ & -> & _). rewrite Hb.
      destruct (IH (unlink false cur w) l1 n true f) as (w' & E & R' & V & N);
        [by apply unlink_Rep|cbn in Hf; lia|].
      exists w'. rewrite E. cbn [any_match existsb] in *.
      rewrite !unlink_value, orb_true_r. cbn. split; [done|].
      rewrite (without_ext (items w)) in R' by apply unlink_value.
      split; [done|]. split.
      * intros r. by rewrite V, unlink_value.
      * by rewrite N, unlink_next_ref.
    + rewrite Hb.
      destruct (IH w (l1 ++ [cur]) n found f) as (w' & E & R' & V & N);
        [by rewrite <- app_assoc|cbn in Hf; lia|].
      exists w'. rewrite E. cbn [any_match existsb] in *. rewrite orb_false_l.
      split; [done|]. by rewrite <- app_assoc in R'.
Qed.

(** ** clear on a well-formed list *)

Lemma unchain_all_Rep fuel w ns :
  Rep w ns -> (List.length ns < fuel)%nat ->
  exists w',
    unchain_all fuel w = Some w' /\
    Rep w' [] /\
    (forall n, n ∈ ns ->
       before (items w' n) = None /\ behind (items w' n) = None /\
       unlinkCleanup (items w' n) = None) /\
    (forall r, value (items w' r) = value (items w r)) /\
    (forall r, r ∉ ns -> items w' r = items w r) /\
    next_ref w' = next_ref w /\
    calls w' = calls w ++ map (fun n => (ListCleanup, n)) ns.
Proof.
  revert w fuel. induction ns as [|n ns IH]; intros w fuel R Hf;
    (destruct fuel as [|f]; [cbn in Hf; lia|]); cbn [unchain_all];
    rewrite (rep_head _ _ R); cbn [head].
  - exists w. rewrite app_nil_r. split; [done|]. split; [done|]. split; [|done].
    by intros n H%elem_of_nil.
  - pose proof (unlink_Rep true w [] n ns R) as R1. cbn [app] in R1.
    destruct (IH _ f R1) as (w' & -> & R' & Hcl & V & F & N & C); [cbn in Hf; lia|].
    pose proof (rep_nodup _ _ R) as [Hn _]%NoDup_cons.
    pose proof (rep_seg _ _ R) as (Hbef & Hbeh & _). rewrite hd_or_None in Hbeh.
    exists w'. split; [done|]. split; [done|]. split; [|split; [|split; [|split]]].
    + intros m [->|Hm]%elem_of_cons; [|by apply Hcl].
      rewrite F by done. destruct (unlink_this true n w) as (-> & -> & ->). done.
    + intros r. by rewrite V, unlink_value.
    + intros r Hr. apply not_elem_of_cons in Hr as [Hr1 Hr2].
      rewrite F by done. apply unlink_frame; [done|by rewrite Hbef|].
      rewrite Hbeh. intros E%head_Some_elem_of. done.
    + by rewrite N, unlink_next_ref.
    + rewrite C. destruct (unlink_callback true n w ListCleanup) as [-> _].
      * apply (rep_cleanup _ _ R), list_elem_of_here.
      * by rewrite Hbef.
      * rewrite Hbeh. intros E%head_Some_elem_of. done.
      * by rewrite <- app_assoc.
Qed.

Lemma Rep_empty h n l c :
  LinkedList.head l = None -> LinkedList.tail l = None -> LinkedList.length l = 0 ->
  Rep (mkWorld h n l c) [].
Proof.
  intros. constructor; try done.
  - apply NoDup_nil_2.
  - by intros ? ?%elem_of_nil.
  - by intros ? ?%elem_of_nil.
Qed.

Lemma clear_Rep fuel u w ns :
  Rep w ns -> (List.length ns < fuel)%nat ->
  exists w', clear fuel u w = Some w' /\ Rep w' [] /\
             next_ref w' = next_ref w /\
             (forall r, value (items w' r) = value (items w r)).
Proof.
  intros R Hf. unfold clear. destruct u.
  - destruct (unchain_all_Rep fuel w ns R Hf) as (w1 & -> & _ & _ & V & _ & N & _).
    eexists. split; [done|]. split; [by apply Rep_empty|]. done.
  - eexists. split; [done|]. split; [by apply Rep_empty|]. done.
Qed.

(** ** Reading a well-formed list *)

Lemma keys_from_seg fuel h p n ns :
  seg h p (n :: ns) None -> (List.length ns < fuel)%nat ->
  keys_from fuel n h = Some (n :: ns).
Proof.
  revert p n fuel. induction ns as [|m ns IH]; intros p n fuel (S1 & S2 & S3) Hf;
    (destruct fuel as [|f]; [cbn in Hf; lia|]); cbn [keys_from]; rewrite S2; cbn [hd_or];
    [done|].
  rewrite (IH (Some n)); [done..|]. cbn in Hf. lia.
Qed.

Lemma keys_Rep fuel w ns :
  Rep w ns -> (List.length ns <= fuel)%nat -> keys fuel w = Some ns.
Proof.
  intros R Hf. unfold keys. rewrite (rep_head _ _ R).
  destruct ns as [|n ns]; [done|]. cbn [head].
  apply (keys_from_seg _ _ None); [apply (rep_seg _ _ R)|]. cbn in Hf. lia.
Qed.

Lemma values_Rep fuel w ns :
  Rep w ns -> (List.length ns <= fuel)%nat ->
  values fuel w = Some (values_of (items w) ns).
Proof. intros R Hf. unfold values. by rewrite (keys_Rep _ _ ns). Qed.

(** ** getItemByIndex on a well-formed list *)

Lemma walk_behind_seg h p ns k j fuel :
  seg h p ns None -> (List.length ns - j < fuel)%nat ->
  walk_behind fuel (ns !! j) (Z.of_nat k) h = Some (ns !! (j + k)%nat).
Proof.
  intros Sg. revert j fuel. induction k as [|k IH]; intros j fuel Hf;
    (destruct fuel as [|f]; [lia|]); cbn [walk_behind];
    destruct (ns !! j) as [c|] eqn:Ec.
  - by rewrite Nat.add_0_r, Ec.
  - rewrite Nat.add_0_r, Ec. done.
  - rewrite (proj2 (Z.eqb_neq (Z.of_nat (S k)) (0))) by lia.
    destruct (seg_lookup _ _ _ _ _ _ Sg Ec) as [_ ->].
    replace (Z.of_nat (S k) - 1) with (Z.of_nat k) by lia.
    replace (match ns !! S j with Some m => Some m | None => None end) with (ns !! S j)
      by (by destruct (ns !! S j)).
    rewrite IH; [by replace (S j + k)%nat with (j + S k)%nat by lia|].
    apply lookup_lt_Some in Ec. lia.
  - f_equal. symmetry. apply lookup_ge_None. apply lookup_ge_None in Ec. lia.
Qed.

Lemma walk_before_seg h ns q k j c fuel :
  seg h None ns q -> ns !! j = Some c -> (j + 1 < fuel)%nat ->
  walk_before fuel (Some c) (- Z.of_nat (S k)) h =
    Some (if decide (k <= j)%nat then ns !! (j - k)%nat else None).
Proof.
  intros Sg. revert j c fuel. induction k as [|k IH]; intros j c fuel Ec Hf;
    (destruct fuel as [|f]; [lia|]); cbn [walk_before].
  - rewrite (proj2 (Z.eqb_eq (- Z.of_nat 1 + 1) (0))) by lia.
    rewrite decide_True by lia. by rewrite Nat.sub_0_r, Ec.
  - rewrite (proj2 (Z.eqb_neq (- Z.of_nat (S (S k)) + 1) (0))) by lia.
    replace (- Z.of_nat (S (S k)) + 1) with (- Z.of_nat (S k)) by lia.
    destruct (seg_lookup _ _ _ _ _ _ Sg Ec) as [-> _].
    destruct j as [|j].
    + destruct f as [|f]; [lia|]. cbn [walk_before]. by rewrite decide_False by lia.
    + assert (is_Some (ns !! j)) as [c' Ec'].
      { apply lookup_lt_is_Some. apply lookup_lt_Some in Ec. lia. }
      rewrite Ec'. rewrite (IH j c' f Ec') by lia.
      f_equal. repeat case_decide; try lia; done.
Qed.

Lemma getItemByIndex_item_at fuel index w ns :
  Rep w ns -> (List.length ns < fuel)%nat ->
  getItemByIndex fuel index w = Some (item_at ns index).
Proof.
  intros R Hf. unfold getItemByIndex, item_at.
  rewrite (rep_head _ _ R), (rep_tail _ _ R), head_lookup.
  destruct (ns !! 0%nat) as [a|] eqn:Ha.
  2: { apply lookup_ge_None in Ha. destruct ns; [|cbn in Ha; lia].
       rewrite !lookup_nil. by repeat case_match. }
  assert (0 < List.length ns)%nat as Hlen by (by apply lookup_lt_Some in Ha).
  pose proof (rep_seg _ _ R) as Sg.
  destruct (Z.ltb_spec 0 index) as [Hpos|Hnpos].
  - rewrite (proj2 (Z.leb_le 0 index)) by lia.
    rewrite <- Ha. rewrite <- (Z2Nat.id index) at 1 by lia.
    rewrite (walk_behind_seg _ None ns _ 0%nat); [done..|lia].
  - destruct (Z.ltb_spec index 0) as [Hneg|Hnneg].
    + rewrite (proj2 (Z.leb_gt 0 index)) by lia.
      assert (is_Some (last ns)) as [c Hc] by (apply last_is_Some; by destruct ns).
      rewrite Hc. rewrite last_lookup in Hc.
      replace index with (- Z.of_nat (S (Z.to_nat (- index - 1)))) at 1 by lia.
      rewrite (walk_before_seg _ ns None _ _ c fuel Sg Hc) by lia.
      f_equal.
      case_decide; destruct (Z.leb_spec (- Z.of_nat (List.length ns)) index);
        try lia; [|done]. f_equal. lia.
    + assert (index = 0) as -> by lia.
      rewrite Z.leb_refl. change (Z.to_nat 0) with 0%nat. by rewrite Ha.
Qed.

(** ** From the representation to the aggregate invariant *)

Lemma walk_next_seg h p ns k i r r' :
  seg h p ns None -> ns !! i = Some r -> ns !! (i + k)%nat = Some r' ->
  walk_next h k r = Some r'.
Proof.
  intros Sg. revert i r. induction k as [|k IH]; intros i r Hi Hk; cbn [walk_next].
  - rewrite Nat.add_0_r in Hk. congruence.
  - destruct (seg_lookup _ _ _ _ _ _ Sg Hi) as [_ ->].
    destruct (ns !! S i) as [m|] eqn:Em.
    + apply (IH (S i)); [done|]. by replace (S i + k)%nat with (i + S k)%nat by lia.
    + apply lookup_ge_None in Em. apply lookup_lt_Some in Hk. lia.
Qed.

Lemma walk_prev_seg h ns q k i r r' :
  seg h None ns q -> ns !! (i + k)%nat = Some r -> ns !! i = Some r' ->
  walk_prev h k r = Some r'.
Proof.
  intros Sg. revert r. induction k as [|k IH]; intros r Hk Hi; cbn [walk_prev].
  - rewrite Nat.add_0_r in Hk. congruence.
  - rewrite Nat.add_succ_r in Hk.
    destruct (seg_lookup _ _ _ _ _ _ Sg Hk) as [-> _].
    destruct (ns !! (i + k)%nat) as [m|] eqn:Em.
    + by apply IH.
    + apply lookup_ge_None in Em. apply lookup_lt_Some in Hk. lia.
Qed.

Lemma Rep_Invariant w ns : Rep w ns -> Invariant w.
Proof.
  intros R. unfold Invariant. cbn zeta.
  rewrite (rep_head _ _ R), (rep_tail _ _ R), (rep_length _ _ R).
  pose proof (rep_nodup _ _ R) as ND. pose proof (rep_seg _ _ R) as Sg.
  split; [|split].
  - destruct ns as [|n ns]; [done|]. split; [cbn; lia|]. by intros [[=] _].
  - split.
    + destruct ns as [|n [|m ns]]; cbn [List.length]; try lia. intros _. by exists n.
    + intros (n & Hh & Hl). destruct ns as [|a ns]; [done|]. injection Hh as ->.
      destruct ns as [|m ns]; [done|]. rewrite last_cons_cons in Hl.
      apply last_Some_elem_of in Hl. by apply NoDup_cons in ND as [? _].
  - intros Hlen. destruct ns as [|a ns]; [cbn in Hlen; lia|].
    destruct ns as [|m ns]; [cbn in Hlen; lia|].
    assert (is_Some (last (a :: m :: ns))) as [b Hb] by (by apply last_is_Some).
    exists a, b. split; [done|]. split; [done|].
    replace (Z.to_nat (Z.of_nat (List.length (a :: m :: ns)) - 1))
      with (pred (List.length (a :: m :: ns))) by lia.
    rewrite last_lookup in Hb. split; [|split].
    + intros ->. apply NoDup_cons in ND as [Ha _]. apply Ha.
      by apply (list_elem_of_lookup_2 _ (List.length ns)).
    + by apply (walk_next_seg _ None (a :: m :: ns) _ 0%nat).
    + by apply (walk_prev_seg _ (a :: m :: ns) None _ 0%nat).
Qed.

(** ** Every operation keeps the representation *)

Lemma values_of_length h ns : List.length (values_of h ns) = List.length ns.
Proof. unfold values_of. apply length_map. Qed.

Lemma without_length h v ns : (List.length (without h v ns) <= List.length ns)%nat.
Proof.
  induction ns as [|n ns IH]; [done|]. cbn.
  destruct (strict_eq (value (h n)) v); cbn; lia.
Qed.

Lemma remove_Rep fuel v w ns :
  Rep w ns -> (List.length ns <= fuel)%nat ->
  match first_match (items w) v ns with
  | Some m =>
      remove fuel v w = Some (true, unlink false m w) /\
      exists l1 l2, ns = l1 ++ m :: l2 /\ Rep (unlink false m w) (l1 ++ l2) /\
                    strict_eq (value (items w m)) v = true /\
                    Forall (fun n => strict_eq (value (items w n)) v = false) l1
  | None => remove fuel v w = Some (false, w)
  end.
Proof.
  intros R Hf. unfold remove. rewrite (rep_head _ _ R).
  destruct ns as [|cur l2]; [done|]. cbn [head].
  rewrite (remove_from_seg fuel v w None cur l2); [|apply (rep_seg _ _ R)|cbn in Hf; lia].
  destruct (first_match (items w) v (cur :: l2)) as [m|] eqn:E; [|done].
  split; [done|]. destruct (first_match_Some _ _ _ _ E) as (l1 & l2' & E' & Hm & Hl1).
  exists l1, l2'. rewrite E' in R. split; [done|]. split; [by apply unlink_Rep|done].
Qed.

Lemma removeAllOccurrences_Rep fuel v w ns :
  Rep w ns -> (List.length ns <= fuel)%nat ->
  exists w',
    removeAllOccurrences fuel v w = Some (any_match (items w) v ns, w') /\
    Rep w' (without (items w) v ns) /\
    (forall r, value (items w' r) = value (items w r)) /\
    next_ref w' = next_ref w.
Proof.
  intros R Hf. unfold removeAllOccurrences. rewrite (rep_head _ _ R).
  destruct ns as [|cur l2]; [by exists w|]. cbn [head].
  destruct (removeAll_from_Rep fuel v w [] cur l2 false) as (w' & -> & R' & V & N);
    [done|cbn in Hf; lia|].
  by exists w'.
Qed.

Lemma step_Rep fuel o w ns :
  Rep w ns -> (List.length ns < fuel)%nat ->
  exists w' ns',
    step fuel o w = Some w' /\ Rep w' ns' /\
    (List.length ns' <= List.length ns + created o)%nat.
Proof.
  intros R Hf. destruct o as [vs|vs| | |v|v|u]; cbn [step created].
  - destruct (push_Rep fuel vs w ns R) as (w' & new & -> & R' & V & _); [lia|].
    exists w', (ns ++ new). split; [done|]. split; [done|].
    rewrite length_app, <- V, values_of_length. done.
  - destruct (unshift_Rep fuel vs w ns R) as (w' & new & -> & R' & V & _); [lia|].
    exists w', (new ++ ns). split; [done|]. split; [done|].
    rewrite length_app, <- (length_rev vs), <- V, values_of_length. lia.
  - pose proof (pop_Rep w ns R) as H. destruct (last ns) as [n|].
    + destruct H as (-> & pre & -> & R'). eexists _, _. split; [done|]. split; [done|].
      rewrite length_app. lia.
    + rewrite H. exists w, ns. split; [done|]. split; [done|lia].
  - pose proof (shift_Rep w ns R) as H. destruct ns as [|n rest].
    + rewrite H. exists w, []. done.
    + destruct H as [-> R']. eexists _, _. split; [done|]. split; [done|]. cbn. lia.
  - pose proof (remove_Rep fuel v w ns R) as H.
    destruct (first_match (items w) v ns) as [m|].
    + destruct H as (-> & l1 & l2 & -> & R' & _); [lia|].
      eexists _, _. split; [done|]. split; [done|]. rewrite !length_app. cbn. lia.
    + rewrite H by lia. exists w, ns. split; [done|]. split; [done|lia].
  - destruct (removeAllOccurrences_Rep fuel v w ns R) as (w' & -> & R' & _); [lia|].
    eexists _, _. split; [done|]. split; [done|].
    pose proof (without_length (items w) v ns). lia.
  - destruct (clear_Rep fuel u w ns R Hf) as (w' & -> & R' & _).
    exists w', []. split; [done|]. split; [done|]. cbn. lia.
Qed.

Lemma run_Rep fuel ops w ns :
  Rep w ns -> (List.length ns + total_created ops < fuel)%nat ->
  exists w' ns', run fuel ops w = Some w' /\ Rep w' ns'.
Proof.
  revert w ns. induction ops as [|o ops IH]; intros w ns R Hf; cbn [run].
  - by exists w, ns.
  - cbn [total_created foldr] in Hf. fold (total_created ops) in Hf.
    destruct (step_Rep fuel o w ns R) as (w1 & ns1 & -> & R1 & L1); [lia|].
    cbn [mbind option_bind]. apply (IH w1 ns1 R1). lia.
Qed.

Lemma push_each_Rep fuel vs w ns :
  Rep w ns -> (1 <= fuel)%nat ->
  exists w' new,
    push_each fuel vs w = Some w' /\ Rep w' (ns ++ new) /\
    values_of (items w') new = vs /\
    (forall r, (r < next_ref w)%nat -> value (items w' r) = value (items w r)).
Proof.
  intros R Hf. revert w ns R. induction vs as [|v vs IH]; intros w ns R.
  - exists w, []. by rewrite app_nil_r.
  - destruct (push_Rep fuel [v] w ns R Hf) as (w1 & new1 & E1 & R1 & V1 & O1 & N1 & _).
    destruct new1 as [|r [|? ?]]; try done. injection V1 as V1.
    destruct (IH w1 _ R1) as (w' & new & E & R' & V & O).
    exists w', (r :: new). cbn [push_each]. rewrite E1. cbn [mbind option_bind snd].
    split; [done|]. split; [by rewrite <- app_assoc in R'|].
    assert (r < next_ref w1)%nat as Hr.
    { apply (rep_alloc _ _ R1), elem_of_app. right. apply list_elem_of_here. }
    split.
    + unfold values_of in *. cbn [map]. by rewrite V, O, V1.
    + intros x Hx. rewrite O, O1; [done|lia..].
Qed.

Lemma new_LinkedList_Rep fuel vs h n :
  (1 <= fuel)%nat ->
  exists w ns, new_LinkedList fuel vs h n = Some w /\ Rep w ns /\
               values_of (items w) ns = vs.
Proof.
  intros Hf. unfold new_LinkedList.
  destruct (push_each_Rep fuel vs (empty_list h n) []) as (w & new & -> & R & V & _);
    [by apply Rep_empty|done|].
  by exists w, new.
Qed.

(** ** The sample list and the empty list *)

Lemma list_3_4_Rep : Rep list_3_4 [0; 1]%nat.
Proof.
  constructor.
  - apply (bool_decide_unpack _). by vm_compute.
  - intros n Hn. apply list_elem_of_In in Hn. cbn in Hn. cbn. lia.
  - by vm_compute.
  - intros n Hn. apply list_elem_of_In in Hn. cbn in Hn.
    destruct Hn as [<-|[<-|[]]]; reflexivity.
  - reflexivity.
  - reflexivity.
  - reflexivity.
Qed.

Lemma reduce_with_empty fuel link callback seed h :
  reduce_with fuel None link callback seed h =
    Some (if truthy seed then Return seed else Throw empty_accumulator, []).
Proof. unfold reduce_with. by destruct (truthy seed). Qed.

(** ** The tests of the repository, run on the model *)

(** Test [Adds multiple in a row]: with items [0..5] holding [1..6] (items
    [3], [4], [5] are the test's [item21], [item22], [item23]),
    [item1.insertBehind(item2); item2.insertBehind(item3);
    item21.insertBehind(item22); item22.insertBehind(item23);
    item2.insertBehind(item21)] gives the values [1, 2, 4, 5, 6, 3]. *)
Example test_adds_multiple_in_a_row :
  holds_in
    (h1 ← insertBehind 9 0%nat 1%nat
            (fresh_items [VNum 1; VNum 2; VNum 3; VNum 4; VNum 5; VNum 6]);
     h2 ← insertBehind 9 1%nat 2%nat h1;
     h3 ← insertBehind 9 3%nat 4%nat h2;
     h4 ← insertBehind 9 4%nat 5%nat h3;
     insertBehind 9 1%nat 3%nat h4)
    (fun h =>
       holds_in (keys_from 9 0%nat h) (fun ks =>
         values_of h ks = [VNum 1; VNum 2; VNum 4; VNum 5; VNum 6; VNum 3]) /\
       paired h [0; 1; 2; 3; 4; 5]%nat).
Proof.
  vm_compute. split; [done|]. intros a b Ha Hb.
  apply list_elem_of_In in Ha. cbn in Ha.
  destruct Ha as [<-|[<-|[<-|[<-|[<-|[<-|[]]]]]]]; vm_compute in Hb;
    try discriminate Hb; injection Hb as <-; reflexivity.
Qed.

(** Test [inserts given LinkedListItem behind this]. *)
Example test_inserts_behind :
  holds_in (insertBehind 9 0%nat 1%nat (fresh_items [VNum 0; VNum 1; VNum 2; VNum 15]))
    (fun h1 =>
       behind (h1 0%nat) = Some 1%nat /\ before (h1 1%nat) = Some 0%nat /\
       holds_in (insertBehind 9 1%nat 2%nat h1) (fun h2 =>
         behind (h2 1%nat) = Some 2%nat /\
         holds_in (insertBehind 9 1%nat 3%nat h2) (fun h3 =>
           behind (h3 1%nat) = Some 3%nat /\ behind (h3 3%nat) = Some 2%nat))).
Proof. by vm_compute. Qed.

(** Tests of [reduce] and [reduceRight] on [["5","6","7"]], without and
    with a seed, and on a list of one item. *)
Example test_reduce :
  holds_in (new_LinkedList 3 [VStr "5"; VStr "6"; VStr "7"] no_items 0%nat) (fun l =>
    fst <$> reduce 3 join_comma VUndefined l = Some (Return (VStr "5,6,7")) /\
    fst <$> reduceRight 3 join_comma VUndefined l = Some (Return (VStr "7,6,5")) /\
    fst <$> reduce 3 join_comma (VStr "x") l = Some (Return (VStr "x,5,6,7"))) /\
  holds_in (new_LinkedList 3 [VNum 5] no_items 0%nat) (fun l =>
    reduce 3 join_comma VUndefined l = Some (Return (VNum 5), [])) /\
  reduce 3 join_comma (VStr "initialValue") (empty_list no_items 0%nat)
    = Some (Return (VStr "initialValue"), []) /\
  reduce 3 join_comma VUndefined (empty_list no_items 0%nat)
    = Some (Throw empty_accumulator, []).
Proof. by vm_compute. Qed.

(** Tests of [push], [unshift], [pop] and [shift]. *)
Example test_push_pop :
  holds_in (new_LinkedList 3 [VNum 1; VNum 2; VNum 3] no_items 0%nat) (fun l =>
    holds_in (push 3 [VNum (-1)] l) (fun r =>
      fst r = 4 /\ values 4 (snd r) = Some [VNum 1; VNum 2; VNum 3; VNum (-1)]) /\
    holds_in (unshift 3 [VNum (-1)] l) (fun r =>
      fst r = 4 /\ values 4 (snd r) = Some [VNum (-1); VNum 1; VNum 2; VNum 3]) /\
    fst (pop l) = Some (VNum 3) /\ LinkedList.length (self (snd (pop l))) = 2 /\
    fst (shift l) = Some (VNum 1) /\ values 3 (snd (shift l)) = Some [VNum 2; VNum 3]) /\
  fst (pop (empty_list no_items 0%nat)) = None /\
  fst (shift (empty_list no_items 0%nat)) = None.
Proof. by vm_compute. Qed.

(** * The properties *)

(** ** Aggregate invariant *)

(** C1.  Every list built by the constructor from a sequence of values and
    then changed by any sequence of [push], [unshift], [pop], [shift],
    [remove], [removeAllOccurrences] and [clear] satisfies the aggregate
    invariant: [length] is 0 exactly when [head] and [tail] are both absent,
    it is 1 exactly when they are the same item, and when it is larger they
    are distinct items, [length - 1] steps along [behind] lead from [head]
    to [tail] and [length - 1] steps along [before] lead back.  The
    operations all return, given fuel above the number of items created. *)
Theorem list_operations_keep_invariant
    (h : Heap) (n : ref) (vs : list Val) (ops : list Op) (fuel : nat) :
  (List.length vs + total_created ops < fuel)%nat ->
  exists w,
    (new_LinkedList fuel vs h n ≫= run fuel ops) = Some w /\ Invariant w.
Proof.
  intros Hf.
  destruct (new_LinkedList_Rep fuel vs h n) as (w0 & ns & -> & R0 & V0); [lia|].
  destruct (run_Rep fuel ops w0 ns R0) as (w & ns' & E & R).
  { rewrite <- V0, values_of_length in Hf. done. }
  exists w. split; [done|]. by eapply Rep_Invariant.
Qed.

Lemma list_operations_keep_invariant_witness :
  (List.length [VNum 1; VNum 2; VNum 3] + total_created sample_ops < 10)%nat /\
  exists w,
    (new_LinkedList 10%nat [VNum 1; VNum 2; VNum 3] no_items 0%nat ≫= run 10%nat sample_ops) = Some w /\
    Invariant w.
Proof.
  split; [vm_compute; lia|].
  apply (list_operations_keep_invariant no_items 0%nat [VNum 1; VNum 2; VNum 3] sample_ops 10%nat).
  vm_compute; lia.
Defined.

(** ** reduce and reduceRight on an empty list *)

(** C2.  On an empty list, [reduce] and [reduceRight] test the seed with
    [!initialValue]: they throw for every falsy seed and return a truthy
    one, never calling the callback.  So the seeds [0], the empty string and
    [false] make them throw the error of the call without a seed, where the
    specification returns the seed.  On a list that is not empty the seed
    is tested with [=== undefined], and the seed [0] is the first
    accumulator. *)
Theorem reduce_empty_list_falsy_seed_throws
    (fuel : nat) (callback : Reducer) (seed : Val) (w : World) :
  reduce fuel callback seed (emptied w) =
    Some (if truthy seed then Return seed else Throw empty_accumulator, []) /\
  reduceRight fuel callback seed (emptied w) =
    Some (if truthy seed then Return seed else Throw empty_accumulator, []) /\
  reduce fuel callback (VNum 0) (emptied w) = Some (Throw empty_accumulator, []) /\
  reduce fuel callback (VStr EmptyString) (emptied w) = Some (Throw empty_accumulator, []) /\
  reduce fuel callback (VBool false) (emptied w) = Some (Throw empty_accumulator, []) /\
  reduceRight fuel callback (VNum 0) (emptied w) = Some (Throw empty_accumulator, []) /\
  reduce fuel callback VUndefined (emptied w) = Some (Throw empty_accumulator, []) /\
  reduceRight fuel callback VUndefined (emptied w) = Some (Throw empty_accumulator, []) /\
  reduce 2 callback (VNum 0) list_3_4 =
    Some (Return (callback (callback (VNum 0) (VNum 3) 0%nat) (VNum 4) 1%nat),
          [(VNum 0, VNum 3, 0%nat); (callback (VNum 0) (VNum 3) 0%nat, VNum 4, 1%nat)]).
Proof.
  unfold reduce, reduceRight, emptied. cbn [self set_self LinkedList.head LinkedList.tail].
  rewrite !reduce_with_empty. repeat (split; [done|]). reflexivity.
Qed.

(** ** insertBehind *)

(** Inserting behind [this] the item that already is its successor, in
    the state [linked_pair] that [item0.insertBehind(item1)] leaves two new
    items in: the item heads a forward chain (of one item), the call
    returns, and afterwards [item.before] is the item itself, not [this],
    although [this.behind] is the item. *)
Lemma insertBehind_own_successor :
  exists h',
    holds_in (insertBehind 1 0%nat 1%nat (fresh_items [VNum 1; VNum 2])) (fun h =>
      h 0%nat = linked_pair 0%nat /\ h 1%nat = linked_pair 1%nat) /\
    paired linked_pair [0%nat; 1%nat] /\
    chainEnd 3 1%nat linked_pair = Some 1%nat /\
    insertBehind 3 0%nat 1%nat linked_pair = Some h' /\
    behind (h' 0%nat) = Some 1%nat /\
    before (h' 1%nat) = Some 1%nat /\
    before (h' 1%nat) <> Some 0%nat /\
    ~ paired h' [0%nat; 1%nat].
Proof.
  eexists. split; [by vm_compute|]. split.
  { intros a b Ha Hb. apply list_elem_of_In in Ha. cbn in Ha.
    destruct Ha as [<-|[<-|[]]]; vm_compute in Hb; [|discriminate Hb].
    injection Hb as <-. reflexivity. }
  split; [done|]. split; [reflexivity|].
  split; [done|]. split; [done|]. split; [done|].
  intros H. specialize (H 0%nat 1%nat (list_elem_of_here _ _) eq_refl). discriminate H.
Qed.

(** C3 (amended).  When [this] sits in a well-formed chain
    [pre ++ this :: post] and [item] heads a well-formed forward chain
    [item :: ns] that shares no item with it, [this.insertBehind(item)]
    returns and splices the whole chain in right behind [this]:
    [item.before] is [this], [this.behind] is [item], and if [this] had a
    successor [o], the last item [e] of the inserted chain gets
    [e.behind = o] and [o.before = e]; the result is the well-formed chain
    [pre ++ this :: (item :: ns) ++ post], on which the paired-link
    invariant holds. *)
Theorem insertBehind_splices_chain
    (h : Heap) (p0 q0 : option ref) (pre post ns : list ref) (this item : ref)
    (fuel : nat) :
  seg h p0 (pre ++ this :: post) None ->
  seg h q0 (item :: ns) None ->
  (forall x, x ∈ item :: ns -> x ∉ pre ++ this :: post) ->
  (List.length ns + 2 <= fuel)%nat ->
  exists h' e,
    insertBehind fuel this item h = Some h' /\
    last (item :: ns) = Some e /\
    before (h' item) = Some this /\
    behind (h' this) = Some item /\
    (forall o, behind (h this) = Some o ->
               behind (h' e) = Some o /\ before (h' o) = Some e) /\
    seg h' p0 (pre ++ this :: (item :: ns) ++ post) None /\
    paired h' (pre ++ this :: (item :: ns) ++ post).
Proof.
  intros SG SN Hdisj Hf.
  assert (NoDup ((pre ++ this :: post) ++ item :: ns)) as ND.
  { apply NoDup_app. split; [by eapply seg_NoDup|]. split; [|by eapply seg_NoDup].
    intros x Hx Hx'. by apply (Hdisj x). }
  destruct (insertBehind_splice fuel h p0 pre this post q0 item ns SG SN ND)
    as (h' & E & S' & _); [by right|].
  assert (is_Some (last (item :: ns))) as [e He] by (by apply last_is_Some).
  exists h', e. split; [done|]. split; [done|].
  pose proof S' as [_ (_ & Hb & S1)]%seg_app.
  pose proof S1 as [SN' Spost']%seg_app.
  split; [by destruct SN' as (? & _)|]. split; [done|]. split.
  - intros o Ho.
    apply seg_app in SG as [_ (_ & Hn & _)]. rewrite Ho in Hn.
    destruct post as [|o' post]; [done|]. injection Hn as ->.
    unfold last_or in Spost'. rewrite He in Spost'. cbn [hd_or] in SN'.
    split; [by eapply seg_last_behind|by destruct Spost' as (? & _)].
  - split; [done|]. by eapply seg_paired.
Qed.

Lemma insertBehind_splices_chain_witness :
  seg two_chains None ([] ++ 0%nat :: [1%nat]) None /\
  seg two_chains None (2%nat :: [3%nat]) None /\
  (forall x, x ∈ 2%nat :: [3%nat] -> x ∉ [] ++ 0%nat :: [1%nat]) /\
  (List.length [3%nat] + 2 <= 5)%nat /\
  exists h' e,
    insertBehind 5 0%nat 2%nat two_chains = Some h' /\
    last (2%nat :: [3%nat]) = Some e /\
    before (h' 2%nat) = Some 0%nat /\
    behind (h' 0%nat) = Some 2%nat /\
    (forall o, behind (two_chains 0%nat) = Some o ->
               behind (h' e) = Some o /\ before (h' o) = Some e) /\
    seg h' None ([] ++ 0%nat :: (2%nat :: [3%nat]) ++ [1%nat]) None /\
    paired h' ([] ++ 0%nat :: (2%nat :: [3%nat]) ++ [1%nat]).
Proof.
  assert (forall x, x ∈ 2%nat :: [3%nat] -> x ∉ [] ++ 0%nat :: [1%nat]) as Hdisj.
  { intros x Hx Hx'. apply list_elem_of_In in Hx, Hx'. cbn in Hx, Hx'. lia. }
  split; [by vm_compute|]. split; [by vm_compute|]. split; [exact Hdisj|].
  split; [vm_compute; lia|].
  apply (insertBehind_splices_chain two_chains None None [] [1%nat] [3%nat] 0%nat 2%nat 5%nat);
    [by vm_compute..|exact Hdisj|vm_compute; lia].
Defined.

(** ** unlink *)

(** C4.  [unlink()] gives the item's predecessor, if there is one, the
    item's [behind] as its own, and the item's successor, if there is one,
    the item's [before]; the item keeps both of its links.  [unlink(true)]
    does the same to the neighbours and clears the item's own [before] and
    [behind].  On the list [[1,2,3]] (items [0], [1], [2]) unlinking the
    middle item leaves [0.behind = 2] and [2.before = 0]. *)
Theorem unlink_reconnects_neighbours (w : World) (this : ref) :
  let h := items w in
  let h1 := items (unlink false this w) in
  let h2 := items (unlink true this w) in
  match before (h this) with
  | Some p => behind (h1 p) = behind (h this) /\
              behind (h2 p) = (if decide (p = this) then None else behind (h this))
  | None => True
  end /\
  match behind (h this) with
  | Some n => before (h1 n) = before (h this) /\
              before (h2 n) = (if decide (n = this) then None else before (h this))
  | None => True
  end /\
  before (h1 this) = before (h this) /\ behind (h1 this) = behind (h this) /\
  before (h2 this) = None /\ behind (h2 this) = None /\
  holds_in (new_LinkedList 3 [VNum 1; VNum 2; VNum 3] no_items 0%nat) (fun l =>
    keys 3 l = Some [0%nat; 1%nat; 2%nat] /\
    behind (items (unlink false 1%nat l) 0%nat) = Some 2%nat /\
    before (items (unlink false 1%nat l) 2%nat) = Some 0%nat /\
    before (items (unlink false 1%nat l) 1%nat) = Some 0%nat /\
    behind (items (unlink false 1%nat l) 1%nat) = Some 2%nat /\
    behind (items (unlink true 1%nat l) 0%nat) = Some 2%nat /\
    before (items (unlink true 1%nat l) 2%nat) = Some 0%nat /\
    before (items (unlink true 1%nat l) 1%nat) = None /\
    behind (items (unlink true 1%nat l) 1%nat) = None).
Proof.
  cbn zeta.
  destruct (unlink_this false this w) as (Hb1 & Hn1 & _).
  destruct (unlink_this true this w) as (Hb2 & Hn2 & _).
  split; [|split; [|split; [done|split; [done|split; [done|split; [done|]]]]]].
  - clear. unfold unlink.
    destruct (before (items w this)) as [p|] eqn:Ep; [|done]. arena.
    rewrite upd_behind_self.
    destruct (behind (items w this)) as [q|] eqn:Eq; arena;
      rewrite ?upd_cleanup_keep by (by intros []);
      destruct (unlinkCleanup (items w this)) as [[|k]|];
      unfold invoke, list_unlinkCleanup; arena;
      (split; [|case_decide; subst]); arena_cases; rewrite ?Eq; try done.
  - clear. unfold unlink.
    destruct (before (items w this)) as [p|] eqn:Ep; arena;
      rewrite ?upd_behind_self;
      (destruct (behind (items w this)) as [q|] eqn:Eq; [|done]); arena;
      rewrite ?upd_cleanup_keep by (by intros []);
      destruct (unlinkCleanup (items w this)) as [[|k]|];
      unfold invoke, list_unlinkCleanup; arena;
      (split; [|case_decide; subst]); arena_cases; rewrite ?upd_before_keep by (by intros []);
      rewrite ?Ep; try done.
  - vm_compute. done.
Qed.

(** C5.  The first [unlink] of an item that holds a callback calls it once
    (on the item) and clears the reference; an [unlink] of an item whose
    reference is cleared calls nothing and leaves the list object alone.  So
    two unlinks in a row log one call, and for an item holding the list's
    own callback they decrement the list's [length] once. *)
Theorem unlink_calls_cleanup_once (w : World) (this : ref) (c : Callback) (u u' : bool) :
  unlinkCleanup (items w this) = Some c ->
  calls (unlink u this w) = calls w ++ [(c, this)] /\
  unlinkCleanup (items (unlink u this w) this) = None /\
  (forall w', unlinkCleanup (items w' this) = None ->
     calls (unlink u' this w') = calls w' /\ self (unlink u' this w') = self w') /\
  calls (unlink u' this (unlink u this w)) = calls w ++ [(c, this)] /\
  (c = ListCleanup ->
     LinkedList.length (self (unlink u' this (unlink u this w)))
       = LinkedList.length (self w) - 1).
Proof.
  intros Hc.
  destruct (unlink_calls u this w c Hc) as [Hcalls Hlen].
  destruct (unlink_this u this w) as (_ & _ & Hnone).
  assert (forall w', unlinkCleanup (items w' this) = None ->
            calls (unlink u' this w') = calls w' /\ self (unlink u' this w') = self w') as Hsecond.
  { intros w' H'. by destruct (unlink_no_callback u' this w' H'). }
  destruct (Hsecond _ Hnone) as [Hc2 Hs2].
  split; [done|]. split; [done|]. split; [done|]. split; [by rewrite Hc2|].
  intros ->. by rewrite Hs2, Hlen.
Qed.

Lemma unlink_calls_cleanup_once_witness :
  unlinkCleanup (items list_3_4 0%nat) = Some ListCleanup /\
  (calls (unlink false 0%nat list_3_4) = calls list_3_4 ++ [(ListCleanup, 0%nat)] /\
   unlinkCleanup (items (unlink false 0%nat list_3_4) 0%nat) = None /\
   (forall w', unlinkCleanup (items w' 0%nat) = None ->
      calls (unlink true 0%nat w') = calls w' /\ self (unlink true 0%nat w') = self w') /\
   calls (unlink true 0%nat (unlink false 0%nat list_3_4))
     = calls list_3_4 ++ [(ListCleanup, 0%nat)] /\
   (ListCleanup = ListCleanup ->
      LinkedList.length (self (unlink true 0%nat (unlink false 0%nat list_3_4)))
        = LinkedList.length (self list_3_4) - 1)).
Proof.
  split; [reflexivity|].
  apply (unlink_calls_cleanup_once list_3_4 0%nat ListCleanup false true).
  reflexivity.
Defined.

(** ** The length after clear *)

(** C6.  An item kept from a list that was then cleared with [clear()]
    still holds the list's callback, and unlinking it decrements the
    [length] of the empty list: for the list [[v]], after [clear()] and
    [unlink()] of the former head, [length] is [-1].  After [clear(true)]
    the item holds no callback and the same [unlink()] leaves [length]
    at 0. *)
Theorem length_negative_after_clear (fuel : nat) (v : Val) (h : Heap) (n : ref) :
  holds_in (new_LinkedList (2 + fuel) [v] h n) (fun w0 =>
    LinkedList.head (self w0) = Some n /\
    LinkedList.length (self w0) = 1 /\
    holds_in (clear (2 + fuel) false w0) (fun w1 =>
      LinkedList.head (self w1) = None /\
      LinkedList.length (self w1) = 0 /\
      LinkedList.length (self (unlink false n w1)) = -1) /\
    holds_in (clear (2 + fuel) true w0) (fun w2 =>
      LinkedList.head (self w2) = None /\
      LinkedList.length (self w2) = 0 /\
      LinkedList.length (self (unlink false n w2)) = 0)).
Proof.
  cbn. repeat (split; [done|]). split.
  - repeat (split; [done|]). unfold unlink. by evaluate_unlink.
  - evaluate_unlink. repeat (split; [done|]). unfold unlink. by evaluate_unlink.
Qed.

(** ** remove and removeAllOccurrences *)

(** C7.  On a well-formed list with enough fuel, [remove(v)] returns
    [false] and changes nothing when no value strictly equals [v];
    otherwise it unlinks the first item (from the head) whose value does,
    and returns [true], the other items staying in order.
    [removeAllOccurrences(v)] returns whether some value strictly equals
    [v] and leaves exactly the items whose value does not, in order.  On
    [[3,4,5,3]], [remove(3)] gives [[4,5,3]] and [removeAllOccurrences(3)]
    gives [[4,5]], both returning [true]. *)
Theorem remove_first_and_all_occurrences
    (fuel : nat) (v : Val) (w : World) (ns : list ref) :
  Rep w ns -> (List.length ns <= fuel)%nat ->
  (Forall (fun n => strict_eq (value (items w n)) v = false) ns ->
     remove fuel v w = Some (false, w)) /\
  (forall l1 m l2,
     ns = l1 ++ m :: l2 ->
     Forall (fun n => strict_eq (value (items w n)) v = false) l1 ->
     strict_eq (value (items w m)) v = true ->
     remove fuel v w = Some (true, unlink false m w) /\
     Rep (unlink false m w) (l1 ++ l2) /\
     values fuel (unlink false m w) = Some (values_of (items w) (l1 ++ l2))) /\
  (exists w',
     removeAllOccurrences fuel v w = Some (any_match (items w) v ns, w') /\
     Rep w' (without (items w) v ns) /\
     values fuel w' =
       Some (List.filter (fun x => negb (strict_eq x v)) (values_of (items w) ns))) /\
  holds_in (new_LinkedList 4 [VNum 3; VNum 4; VNum 5; VNum 3] no_items 0%nat) (fun l =>
    holds_in (remove 4 (VNum 3) l) (fun r =>
      fst r = true /\ values 4 (snd r) = Some [VNum 4; VNum 5; VNum 3]) /\
    holds_in (removeAllOccurrences 4 (VNum 3) l) (fun r =>
      fst r = true /\ values 4 (snd r) = Some [VNum 4; VNum 5])) /\
  holds_in (new_LinkedList 4 [VNum 3; VNum 3; VNum 4; VNum 3] no_items 0%nat) (fun l =>
    holds_in (removeAllOccurrences 4 (VNum 3) l) (fun r =>
      fst r = true /\ values 4 (snd r) = Some [VNum 4])).
Proof.
  intros R Hf. pose proof (remove_Rep fuel v w ns R Hf) as Hrem.
  split; [|split; [|split; [|split]]].
  - intros Hno. apply first_match_None in Hno. by rewrite Hno in Hrem.
  - intros l1 m l2 -> Hl1 Hm. rewrite (first_match_app _ _ _ _ _ Hl1 Hm) in Hrem.
    destruct Hrem as (-> & _). split; [done|].
    pose proof (unlink_Rep false w l1 m l2 R) as R'. split; [done|].
    rewrite (values_Rep _ _ _ R').
    + f_equal. apply values_of_ext. intros r _. apply unlink_value.
    + rewrite length_app in *. cbn in Hf. lia.
  - destruct (removeAllOccurrences_Rep fuel v w ns R Hf) as (w' & E & R' & V & _).
    exists w'. split; [done|]. split; [done|].
    rewrite (values_Rep _ _ _ R').
    + rewrite <- without_values. f_equal. apply values_of_ext. intros r _. apply V.
    + pose proof (without_length (items w) v ns). lia.
  - by vm_compute.
  - by vm_compute.
Qed.

Lemma remove_first_and_all_occurrences_witness :
  Rep list_3_4 [0; 1]%nat /\
  (List.length [0; 1]%nat <= 2)%nat /\
  remove 2 (VNum 4) list_3_4 = Some (true, unlink false 1%nat list_3_4) /\
  Rep (unlink false 1%nat list_3_4) [0%nat] /\
  remove 2 (VNum 5) list_3_4 = Some (false, list_3_4).
Proof.
  assert (List.length [0; 1]%nat <= 2)%nat as Hf by (vm_compute; lia).
  split; [exact list_3_4_Rep|]. split; [exact Hf|].
  destruct (remove_first_and_all_occurrences 2 (VNum 4) list_3_4 [0; 1]%nat list_3_4_Rep Hf)
    as (_ & Hfirst & _).
  destruct (remove_first_and_all_occurrences 2 (VNum 5) list_3_4 [0; 1]%nat list_3_4_Rep Hf)
    as (Hnone & _).
  destruct (Hfirst [0%nat] 1%nat []) as (E & R & _); [reflexivity| |reflexivity|].
  { repeat constructor. }
  split; [exact E|]. split; [exact R|].
  apply Hnone. repeat constructor.
Defined.

(** ** getItemByIndex *)

(** C8.  On a well-formed list, with fuel above its length,
    [getItemByIndex(index)] returns [item_at ns index] for every integer
    [index]: nothing on an empty list; [head] for index [0]; the item at
    position [index] from the head for [0 < index < length]; the item at
    position [length + index] for [-length <= index < 0], so [tail] for
    [-1]; and nothing for [index >= length] or [index < -length]. *)
Theorem getItemByIndex_resolves_index (fuel : nat) (index : Z) (w : World) (ns : list ref) :
  Rep w ns -> (List.length ns < fuel)%nat ->
  getItemByIndex fuel index w = Some (item_at ns index) /\
  (ns = [] -> getItemByIndex fuel index w = Some None) /\
  getItemByIndex fuel 0 w = Some (LinkedList.head (self w)) /\
  getItemByIndex fuel (-1) w = Some (LinkedList.tail (self w)) /\
  (0 <= index < Z.of_nat (List.length ns) ->
     exists r, ns !! Z.to_nat index = Some r /\
               walk_next (items w) (Z.to_nat index) <$> LinkedList.head (self w)
                 = Some (Some r) /\
               getItemByIndex fuel index w = Some (Some r)) /\
  (- Z.of_nat (List.length ns) <= index < 0 ->
     exists r, ns !! Z.to_nat (Z.of_nat (List.length ns) + index) = Some r /\
               walk_prev (items w) (Z.to_nat (- index - 1)) <$> LinkedList.tail (self w)
                 = Some (Some r) /\
               getItemByIndex fuel index w = Some (Some r)) /\
  (Z.of_nat (List.length ns) <= index \/ index < - Z.of_nat (List.length ns) ->
     getItemByIndex fuel index w = Some None).
Proof.
  intros R Hf. pose proof (rep_seg _ _ R) as Sg.
  rewrite !(getItemByIndex_item_at fuel _ w ns R Hf).
  split; [done|]. split; [|split; [|split; [|split; [|split]]]].
  - intros ->. unfold item_at. rewrite !lookup_nil. by repeat case_match.
  - rewrite (rep_head _ _ R), head_lookup. done.
  - rewrite (rep_tail _ _ R), last_lookup. unfold item_at.
    rewrite (proj2 (Z.leb_gt (0) (-1))) by lia.
    destruct ns as [|a rest]; [done|].
    rewrite (proj2 (Z.leb_le (- Z.of_nat (List.length (a :: rest))) (-1))) by (cbn [List.length]; lia).
    do 2 f_equal. cbn [List.length]. lia.
  - intros Hi. assert (is_Some (ns !! Z.to_nat index)) as [r Hr]
      by (apply lookup_lt_is_Some; lia).
    exists r. split; [done|]. unfold item_at. rewrite (proj2 (Z.leb_le (0) (index))) by lia.
    split; [|by rewrite Hr].
    rewrite (rep_head _ _ R), head_lookup.
    destruct (ns !! 0%nat) as [a|] eqn:Ea; [|apply lookup_ge_None in Ea; lia].
    cbn. f_equal. by apply (walk_next_seg _ None ns _ 0%nat).
  - intros Hi.
    assert (is_Some (ns !! Z.to_nat (Z.of_nat (List.length ns) + index))) as [r Hr]
      by (apply lookup_lt_is_Some; lia).
    exists r. split; [done|]. unfold item_at. rewrite (proj2 (Z.leb_gt (0) (index))) by lia.
    rewrite (proj2 (Z.leb_le (- Z.of_nat (List.length ns)) (index))) by lia.
    split; [|by rewrite Hr].
    rewrite (rep_tail _ _ R), last_lookup.
    destruct (ns !! pred (List.length ns)) as [c|] eqn:Ec;
      [|apply lookup_ge_None in Ec; lia].
    cbn. f_equal.
    apply (walk_prev_seg _ ns None _ (Z.to_nat (Z.of_nat (List.length ns) + index))); [done| |done].
    rewrite <- Ec. f_equal. lia.
  - intros Hi. unfold item_at. f_equal.
    destruct (Z.leb_spec 0 index).
    + apply lookup_ge_None. lia.
    + destruct (Z.leb_spec (- Z.of_nat (List.length ns)) index); [lia|done].
Qed.

Lemma getItemByIndex_resolves_index_witness :
  Rep list_3_4 [0; 1]%nat /\
  (List.length [0; 1]%nat < 3)%nat /\
  getItemByIndex 3 (-2) list_3_4 = Some (Some 0%nat) /\
  getItemByIndex 3 1 list_3_4 = Some (Some 1%nat) /\
  getItemByIndex 3 2 list_3_4 = Some None.
Proof.
  assert (List.length [0; 1]%nat < 3)%nat as Hf by (vm_compute; lia).
  split; [exact list_3_4_Rep|]. split; [exact Hf|].
  destruct (getItemByIndex_resolves_index 3 (-2) list_3_4 [0; 1]%nat list_3_4_Rep Hf) as (E1 & _).
  destruct (getItemByIndex_resolves_index 3 1 list_3_4 [0; 1]%nat list_3_4_Rep Hf) as (E2 & _).
  destruct (getItemByIndex_resolves_index 3 2 list_3_4 [0; 1]%nat list_3_4_Rep Hf) as (E3 & _).
  split; [exact E1|]. split; [exact E2|exact E3].
Defined.

(** ** clear *)

(** C9.  On a well-formed list: [clear()] drops [head] and [tail] and sets
    [length] to 0 without touching any item, so the former items stay
    linked to each other; [clear(true)] returns (with fuel above the
    length) and has cleared [before] and [behind] of every former item
    before the same reset.  After either, [push(x)] returns 1 and the list
    has one item, [head] and [tail] both, holding [x]. *)
Theorem clear_resets_list (fuel : nat) (w : World) (ns : list ref) (x : Val) :
  Rep w ns -> (List.length ns < fuel)%nat ->
  (exists w1,
     clear fuel false w = Some w1 /\
     items w1 = items w /\
     LinkedList.head (self w1) = None /\ LinkedList.tail (self w1) = None /\
     LinkedList.length (self w1) = 0 /\
     exists w' r,
       push fuel [x] w1 = Some (1, w') /\
       LinkedList.head (self w') = Some r /\ LinkedList.tail (self w') = Some r /\
       value (items w' r) = x /\ LinkedList.length (self w') = 1) /\
  (exists w2,
     clear fuel true w = Some w2 /\
     (forall n, n ∈ ns -> before (items w2 n) = None /\ behind (items w2 n) = None) /\
     LinkedList.head (self w2) = None /\ LinkedList.tail (self w2) = None /\
     LinkedList.length (self w2) = 0 /\
     exists w' r,
       push fuel [x] w2 = Some (1, w') /\
       LinkedList.head (self w') = Some r /\ LinkedList.tail (self w') = Some r /\
       value (items w' r) = x /\ LinkedList.length (self w') = 1).
Proof.
  intros R Hf. split.
  - destruct (clear_Rep fuel false w ns R Hf) as (w1 & E & R1 & _).
    exists w1. split; [done|]. cbn in E. injection E as <-.
    repeat (split; [done|]). apply push_on_empty; [done|lia].
  - destruct (clear_Rep fuel true w ns R Hf) as (w2 & E & R2 & _).
    exists w2. split; [done|].
    unfold clear in E.
    destruct (unchain_all_Rep fuel w ns R Hf) as (wu & Eu & _ & Hcl & _).
    rewrite Eu in E. cbn in E. injection E as <-.
    split; [|repeat (split; [done|]); apply push_on_empty; [done|lia]].
    intros n Hn. destruct (Hcl n Hn) as (? & ? & _). done.
Qed.

Lemma clear_resets_list_witness :
  Rep list_3_4 [0; 1]%nat /\
  (List.length [0; 1]%nat < 3)%nat /\
  exists w2,
    clear 3 true list_3_4 = Some w2 /\
    (forall n, n ∈ [0; 1]%nat -> before (items w2 n) = None /\ behind (items w2 n) = None) /\
    LinkedList.length (self w2) = 0.
Proof.
  assert (List.length [0; 1]%nat < 3)%nat as Hf by (vm_compute; lia).
  split; [exact list_3_4_Rep|]. split; [exact Hf|].
  destruct (clear_resets_list 3 list_3_4 [0; 1]%nat (VNum 9) list_3_4_Rep Hf)
    as (_ & w2 & E & Hcl & _ & _ & Hlen & _).
  exists w2. split; [exact E|]. split; [exact Hcl|exact Hlen].
Defined.

(** ** unshift *)

(** C10.  On a well-formed list with contents [a1..an],
    [unshift(v1, ..., vk)] returns [n + k] and leaves the contents
    [vk, ..., v1, a1, ..., an]: the values are prepended one at a time, so
    they end up in the reverse of the given order.  On [[1,2]],
    [unshift(7,8,9)] returns 5 and gives [[9,8,7,1,2]]. *)
Theorem unshift_prepends_in_reverse (fuel : nat) (vs : list Val) (w : World) (ns : list ref) :
  Rep w ns -> (1 <= fuel)%nat ->
  (exists w' ns',
     unshift fuel vs w
       = Some (LinkedList.length (self w) + Z.of_nat (List.length vs), w') /\
     LinkedList.length (self w')
       = LinkedList.length (self w) + Z.of_nat (List.length vs) /\
     Rep w' ns' /\
     values_of (items w') ns' = rev vs ++ values_of (items w) ns /\
     forall fuel', (List.length ns + List.length vs <= fuel')%nat ->
       values fuel' w = Some (values_of (items w) ns) /\
       values fuel' w' = Some (rev vs ++ values_of (items w) ns)) /\
  holds_in (new_LinkedList 2 [VNum 1; VNum 2] no_items 0%nat) (fun l =>
    holds_in (unshift 2 [VNum 7; VNum 8; VNum 9] l) (fun r =>
      fst r = 5 /\
      values 5 (snd r) = Some [VNum 9; VNum 8; VNum 7; VNum 1; VNum 2])).
Proof.
  intros R Hf. split; [|by vm_compute].
  destruct (unshift_Rep fuel vs w ns R Hf) as (w' & new & E & R' & V & O & _).
  exists w', (new ++ ns). rewrite E, (rep_length _ _ R), (rep_length _ _ R').
  rewrite Nat2Z.inj_add. split; [done|].
  assert (List.length new = List.length vs) as Hlen
    by (by rewrite <- (values_of_length (items w')), V, length_rev).
  split; [rewrite length_app; lia|]. split; [done|].
  assert (values_of (items w') (new ++ ns) = rev vs ++ values_of (items w) ns) as Hv.
  { unfold values_of in *. rewrite map_app, V. f_equal.
    apply (values_of_ext (items w)). intros r Hr. apply O. by apply (rep_alloc _ _ R). }
  split; [done|]. intros fuel' Hf'.
  rewrite (values_Rep _ _ _ R) by lia.
  rewrite (values_Rep _ _ _ R'), Hv; [done|]. rewrite length_app. lia.
Qed.

Lemma unshift_prepends_in_reverse_witness :
  Rep list_3_4 [0; 1]%nat /\
  (1 <= 1)%nat /\
  exists w' ns',
    unshift 1 [VNum 7; VNum 8] list_3_4 = Some (4, w') /\
    Rep w' ns' /\
    values_of (items w') ns' = [VNum 8; VNum 7; VNum 3; VNum 4].
Proof.
  split; [exact list_3_4_Rep|]. split; [lia|].
  destruct (unshift_prepends_in_reverse 1 [VNum 7; VNum 8] list_3_4 [0; 1]%nat list_3_4_Rep)
    as ((w' & ns' & E & _ & R & V & _) & _); [lia|].
  exists w', ns'. split; [exact E|]. split; [exact R|exact V].
Defined.

(** ** Further tests of the repository, run on the model *)

(** The test helper [getListWithItems(count)] for [count = 5]: the values
    ["0"] to ["4"], pushed one by one onto a new list. *)
Lemma getListWithItems_5 :
  holds_in (new_LinkedList 1 [VStr "0"; VStr "1"; VStr "2"; VStr "3"; VStr "4"]
              no_items 0%nat) (fun l =>
    keys 5 l = Some [0; 1; 2; 3; 4]%nat /\ LinkedList.length (self l) = 5).
Proof. vm_compute. done. Qed.

(** Tests [iterates for every element as long as a truthy value is
    returned] and [breaks on any falsy return] of [every], with a callback
    that is falsy at its second call, and [breaks as soon as a value has
    been found], [doesn't break if no value could be found] and [always
    false for empty LinkedList] of [some]. *)
Example test_every_some :
  holds_in (new_LinkedList 1 [VStr "0"; VStr "1"; VStr "2"; VStr "3"] no_items 0%nat)
    (fun l =>
       every 4 (fun _ _ => true) l = Some (true, [0; 1; 2; 3]%nat) /\
       every 4 (fun _ item => Nat.eqb item 0) l = Some (false, [0; 1]%nat) /\
       some 4 (fun v _ => strict_eq v (VStr "2")) l = Some (true, [0; 1; 2]%nat) /\
       some 4 (fun v _ => strict_eq v (VStr "5")) l = Some (false, [0; 1; 2; 3]%nat)) /\
  some 4 (fun _ _ => true) (empty_list no_items 0%nat) = Some (false, []).
Proof. vm_compute. done. Qed.

(** Tests [finds in LinkedList] of [find] and [findItem], [runs function
    for each element] of [forEach], and the tests of [includes], [itemOf]
    and [lastItemOf], the latter two also after [list.push("0")]. *)
Example test_find_includes_itemOf :
  holds_in (new_LinkedList 1 [VStr "0"; VStr "1"; VStr "2"; VStr "3"; VStr "4"]
              no_items 0%nat) (fun l =>
    fst <$> find 5 (fun v _ => strict_eq v (VStr "3")) l = Some (VStr "3") /\
    fst <$> findItem 5 (fun v _ => strict_eq v (VStr "4")) l = Some (Some 4%nat) /\
    List.length <$> forEach 5 l = Some 5%nat /\
    includes 6 (VStr "3") 0 l = Some true /\
    includes 6 (VStr "5") 0 l = Some false /\
    itemOf 6 (VStr "4") 0 l = Some (Some 4%nat) /\
    lastItemOf 6 (VStr "4") (-1) l = Some (Some 4%nat) /\
    itemOf 6 (VStr "5") 0 l = Some None /\
    lastItemOf 6 (VStr "5") (-1) l = Some None /\
    holds_in (push 1 [VStr "0"] l) (fun r =>
      itemOf 7 (VStr "0") 0 (snd r) = Some (LinkedList.head (self (snd r))) /\
      lastItemOf 7 (VStr "0") (-1) (snd r) = Some (LinkedList.tail (self (snd r))) /\
      LinkedList.head (self (snd r)) <> LinkedList.tail (self (snd r)))) /\
  includes 1 (VStr "0") 0 (empty_list no_items 0%nat) = Some false /\
  itemOf 1 (VStr "0") 0 (empty_list no_items 0%nat) = Some None /\
  lastItemOf 1 (VStr "0") (-1) (empty_list no_items 0%nat) = Some None.
Proof. vm_compute. repeat split; done. Qed.

(** Tests [returns only values for which callback returns truthy],
    [returns empty LinkedList if callback never was truthy] and [returns
    empty LinkedList for empty LinkedList] of [filter], and [maps for every
    item in list] of [map], with the item's position for the parsed
    value. *)
Example test_filter_map :
  holds_in (new_LinkedList 1 [VStr "0"; VStr "1"; VStr "2"; VStr "3"] no_items 0%nat)
    (fun l =>
       holds_in (LinkedList_filter 4
                   (fun v _ => strict_eq v (VStr "1") || strict_eq v (VStr "2")) l)
         (fun nl => values 4 nl = Some [VStr "1"; VStr "2"] /\
                    LinkedList.length (self nl) = 2) /\
       holds_in (LinkedList_filter 4 (fun _ _ => false) l)
         (fun nl => LinkedList.length (self nl) = 0) /\
       holds_in (LinkedList_map 4 (fun _ item => VNum (Z.of_nat item + 1)) l)
         (fun nl => values 4 nl = Some [VNum 1; VNum 2; VNum 3; VNum 4] /\
                    LinkedList.length (self nl) = 4)) /\
  holds_in (LinkedList_filter 4 (fun _ _ => true) (empty_list no_items 0%nat))
    (fun nl => LinkedList.length (self nl) = 0).
Proof. vm_compute. done. Qed.

(** Tests [joins pure LinkedList's together] and [does not use
    LinkedListItem's of concat'ed LinkedList's]: [list2] has the items [0]
    and [1], [list3] the items [2] and [3], [list1] the items [4] and [5],
    and [list1.concat(list2, list3)] is made of the new items [6] to
    [11]. *)
Example test_concat :
  holds_in
    (l2 ← new_LinkedList 1 [VStr "10"; VStr "11"] no_items 0%nat;
     l3 ← new_LinkedList 1 [VStr "20"; VStr "21"] (foreign (items l2)) (next_ref l2);
     l1 ← new_LinkedList 1 [VStr "0"; VStr "1"] (foreign (items l3)) (next_ref l3);
     joined ← LinkedList_concat 2 [OtherList (Some 0%nat); OtherList (Some 2%nat)] l1;
     Some (l1, joined))
    (fun r =>
       keys 2 (fst r) = Some [4; 5]%nat /\
       keys 6 (snd r) = Some [6; 7; 8; 9; 10; 11]%nat /\
       values 6 (snd r)
         = Some [VStr "0"; VStr "1"; VStr "10"; VStr "11"; VStr "20"; VStr "21"] /\
       includes 7 (VStr "11") 0 (snd r) = Some true /\
       LinkedList.length (self (snd r)) = 6).
Proof. vm_compute. done. Qed.

(** ** Loops along a chain *)

Lemma seg_linked_behind h p c l : seg h p (c :: l) None -> linked h behind c l.
Proof.
  revert p c. induction l as [|n l IH]; intros p c (_ & Hb & Sg); [done|].
  split; [done|]. by apply (IH (Some c)).
Qed.

Lemma seg_linked_before h l c q : seg h None (l ++ [c]) q -> linked h before c (rev l).
Proof.
  revert c q. induction l as [|m l IH] using rev_ind; intros c q Sg.
  - by destruct Sg as (Hb & _).
  - rewrite rev_unit. apply seg_app in Sg as [Sg1 Sg2].
    rewrite last_or_snoc in Sg2. destruct Sg2 as (Hb & _).
    split; [done|]. by apply (IH m (hd_or [c] q)).
Qed.

(** The prefix of a well-formed sequence, read backwards from an item. *)
Lemma seg_linked_take h ns q j c :
  seg h None ns q -> ns !! j = Some c -> linked h before c (rev (take j ns)).
Proof.
  intros Sg Hj.
  rewrite <- (take_drop (S j) ns), (take_S_r _ _ _ Hj) in Sg.
  apply seg_app in Sg as [Sg _]. by apply seg_linked_before in Sg.
Qed.

Lemma seg_linked_drop h p ns j c :
  seg h p ns None -> ns !! j = Some c -> linked h behind c (drop (S j) ns).
Proof.
  intros Sg Hj.
  rewrite <- (take_drop j ns), (drop_S _ _ _ Hj) in Sg.
  apply seg_app in Sg as [_ Sg]. by apply seg_linked_behind in Sg.
Qed.

(** On a state nobody changes, the generator loop is the loop along the
    items of the chain. *)
Lemma for_of_scan {St R : Type} (h : Heap) (body : ref -> Val -> St -> option (St + R))
    fuel c l s :
  linked h behind c l -> (List.length l < fuel)%nat ->
  for_of fuel (fun _ => h) body c s = scan h body (c :: l) s.
Proof.
  revert c l s. induction fuel as [|fuel IH]; intros c l s L Hf; [lia|].
  cbn [for_of scan]. destruct (body c (value (h c)) s) as [[s'|r]|]; cbn; [|done..].
  destruct l as [|n l]; cbn [linked] in L.
  - by rewrite L.
  - destruct L as [-> L]. rewrite (IH n l s' L) by (cbn in Hf; lia). done.
Qed.

Lemma for_of_list_scan {St R : Type} (body : ref -> Val -> St -> option (St + R))
    fuel w ns s :
  Rep w ns -> (List.length ns <= fuel)%nat ->
  for_of_list fuel (fun _ => items w) body (LinkedList.head (self w)) s
    = scan (items w) body ns s.
Proof.
  intros Rw Hf. rewrite (rep_head _ _ Rw). destruct ns as [|c l]; [done|].
  cbn [head for_of_list]. apply for_of_scan; [|cbn in Hf; lia].
  exact (seg_linked_behind _ _ _ _ (rep_seg _ _ Rw)).
Qed.

(** A scan that stops at the first item [stop] holds of and records the
    items it looked at. *)
Lemma scan_stop {R : Type} (h : Heap) (body : ref -> Val -> list ref -> option (list ref + R * list ref))
    (stop : ref -> bool) (result : ref -> R) ns called :
  (forall n called,
     body n (value (h n)) called =
       if stop n then Some (inr (result n, called ++ [n])) else Some (inl (called ++ [n]))) ->
  scan h body ns called =
    Some (match List.find stop ns with
          | Some m => inr (result m, called ++ upto stop ns)
          | None => inl (called ++ ns)
          end).
Proof.
  intros Hbody. revert called. induction ns as [|n ns IH]; intros called.
  - cbn. by rewrite app_nil_r.
  - cbn [scan List.find upto]. rewrite Hbody. destruct (stop n); cbn; [done|].
    rewrite IH. destruct (List.find stop ns); by rewrite <- app_assoc.
Qed.

Lemma find_none_upto stop (ns : list ref) : List.find stop ns = None -> upto stop ns = ns.
Proof.
  induction ns as [|n ns IH]; [done|]. cbn. destruct (stop n); [done|].
  intros E. by rewrite IH.
Qed.

Lemma find_forallb (f : ref -> bool) (ns : list ref) :
  forallb f ns =
    match List.find (fun n => negb (f n)) ns with Some _ => false | None => true end.
Proof. induction ns as [|n ns IH]; [done|]. cbn. by destruct (f n). Qed.

Lemma find_existsb stop (ns : list ref) :
  existsb stop ns = match List.find stop ns with Some _ => true | None => false end.
Proof. induction ns as [|n ns IH]; [done|]. cbn. by destruct (stop n). Qed.

(** The loops of [itemOf], [lastItemOf] and [includes]. *)
Lemma item_from_linked fuel link v c l h :
  linked h link c l -> (List.length l + 1 < fuel)%nat ->
  item_from fuel link v (Some c) h = Some (first_match h v (c :: l)).
Proof.
  revert c l. induction fuel as [|fuel IH]; intros c l L Hf; [lia|].
  cbn [item_from first_match]. destruct (strict_eq (value (h c)) v); [done|].
  destruct l as [|n l]; cbn [linked] in L.
  - rewrite L. destruct fuel; [lia|done].
  - destruct L as [-> L]. apply IH; [done|cbn in Hf; lia].
Qed.

Lemma includes_from_item_from fuel v current h :
  includes_from fuel v current h =
    from_option (fun _ => true) false <$> item_from fuel behind v current h.
Proof.
  revert current. induction fuel as [|fuel IH]; intros current; [done|].
  cbn [includes_from item_from]. destruct current as [c|]; [|done].
  destruct (strict_eq (value (h c)) v); [done|]. apply IH.
Qed.

Lemma first_match_any h v ns :
  from_option (fun _ => true) false (first_match h v ns) = any_match h v ns.
Proof.
  induction ns as [|n ns IH]; [done|]. unfold any_match in *. cbn.
  by destruct (strict_eq (value (h n)) v).
Qed.

(** The loop of [reduce] and [reduceRight]. *)
Lemma reduce_loop_linked fuel link callback acc c l h done :
  linked h link c l -> (List.length l < fuel)%nat ->
  reduce_loop fuel link callback acc c h done =
    Some (reduce_over h callback (c :: l) acc,
          done ++ reduce_calls h callback (c :: l) acc).
Proof.
  revert acc c l done. induction fuel as [|fuel IH]; intros acc c l done L Hf; [lia|].
  cbn [reduce_loop]. destruct l as [|n l]; cbn [linked] in L.
  - by rewrite L.
  - destruct L as [-> L]. rewrite (IH _ n l _ L) by (cbn in Hf; lia).
    by rewrite <- app_assoc.
Qed.

(** The position an index names and the item there. *)
Lemma item_at_position ns index :
  item_at ns index = position (List.length ns) index ≫= (ns !!.).
Proof.
  unfold item_at, position. destruct (Z.leb_spec 0 index).
  - destruct (Z.ltb_spec index (Z.of_nat (List.length ns))); [done|].
    apply lookup_ge_None. lia.
  - by destruct (Z.leb_spec (- Z.of_nat (List.length ns)) index).
Qed.

Lemma position_lt len index k : position len index = Some k -> (k < len)%nat.
Proof.
  unfold position. destruct (Z.leb_spec 0 index).
  - destruct (Z.ltb_spec index (Z.of_nat len)); [|done]. intros [= <-]. lia.
  - destruct (Z.leb_spec (- Z.of_nat len) index); [|done]. intros [= <-]. lia.
Qed.

(** ** The scans with a callback *)

Lemma every_Rep fuel callback w ns :
  Rep w ns -> (List.length ns <= fuel)%nat ->
  every fuel callback w =
    Some (forallb (test_on (items w) callback) ns,
          upto (fun n => negb (test_on (items w) callback n)) ns).
Proof.
  intros Rw Hf. unfold every. rewrite (for_of_list_scan _ fuel w ns _ Rw Hf).
  rewrite (scan_stop (items w) _ (fun n => negb (test_on (items w) callback n))
             (fun _ => false)).
  - cbn. rewrite find_forallb.
    destruct (List.find _ ns) eqn:E; [done|]. by rewrite (find_none_upto _ _ E).
  - intros n called. unfold test_on. by destruct (callback _ n).
Qed.

Lemma some_Rep fuel callback w ns :
  Rep w ns -> (List.length ns <= fuel)%nat ->
  some fuel callback w =
    Some (existsb (test_on (items w) callback) ns, upto (test_on (items w) callback) ns).
Proof.
  intros Rw Hf. unfold some. rewrite (for_of_list_scan _ fuel w ns _ Rw Hf).
  rewrite (scan_stop (items w) _ (test_on (items w) callback) (fun _ => true)); [|done].
  cbn. rewrite find_existsb.
  destruct (List.find _ ns) eqn:E; [done|]. by rewrite (find_none_upto _ _ E).
Qed.

Lemma findItem_Rep fuel callback w ns :
  Rep w ns -> (List.length ns <= fuel)%nat ->
  findItem fuel callback w =
    Some (List.find (test_on (items w) callback) ns, upto (test_on (items w) callback) ns).
Proof.
  intros Rw Hf. unfold findItem. rewrite (for_of_list_scan _ fuel w ns _ Rw Hf).
  rewrite (scan_stop (items w) _ (test_on (items w) callback) (fun n => Some n)); [|done].
  cbn. destruct (List.find _ ns) eqn:E; [done|]. by rewrite (find_none_upto _ _ E).
Qed.

Lemma find_Rep fuel callback w ns :
  Rep w ns -> (List.length ns <= fuel)%nat ->
  find fuel callback w =
    Some (from_option (fun n => value (items w n)) VUndefined
            (List.find (test_on (items w) callback) ns),
          upto (test_on (items w) callback) ns).
Proof.
  intros Rw Hf. unfold find. rewrite (for_of_list_scan _ fuel w ns _ Rw Hf).
  rewrite (scan_stop (items w) _ (test_on (items w) callback)
             (fun n => value (items w n))); [|done].
  cbn. destruct (List.find _ ns) eqn:E; [done|]. by rewrite (find_none_upto _ _ E).
Qed.

Lemma scan_all (h : Heap) ns (called : list (Val * ref)) :
  scan (R := Empty_set) h (fun item v called => Some (inl (called ++ [(v, item)]))) ns called
    = Some (inl (called ++ map (fun n => (value (h n), n)) ns)).
Proof.
  revert called. induction ns as [|n ns IH]; intros called; cbn.
  - by rewrite app_nil_r.
  - rewrite IH. by rewrite <- app_assoc.
Qed.

Lemma iterator_from_keys_from fuel c h :
  iterator_from fuel c h = map (fun r => (r, value (h r))) <$> keys_from fuel c h.
Proof.
  revert c. induction fuel as [|fuel IH]; intros c; [done|].
  cbn [iterator_from keys_from]. destruct (behind (h c)) as [n|]; [|done].
  rewrite IH. by destruct (keys_from fuel n h).
Qed.

(** X1.  On a well-formed list, with fuel for its length, [every(callback)]
    returns whether the callback is truthy on every item; the callback is
    called on the items from the head up to and including the first one it
    is falsy on, once each, and on no item behind that one.  On an empty
    list the answer is [true] and the callback is not called. *)
Theorem every_holds_of_all_items (fuel : nat) (callback : Predicate) (w : World)
    (ns : list ref) :
  Rep w ns -> (List.length ns <= fuel)%nat ->
  every fuel callback w =
    Some (forallb (test_on (items w) callback) ns,
          upto (fun n => negb (test_on (items w) callback n)) ns) /\
  (ns = [] -> every fuel callback w = Some (true, [])).
Proof.
  intros Rw Hf. rewrite (every_Rep fuel callback w ns Rw Hf). split; [done|].
  by intros ->.
Qed.

Lemma every_holds_of_all_items_witness :
  Rep list_3_4 [0; 1]%nat /\ (List.length [0; 1]%nat <= 2)%nat /\
  every 2 (fun v _ => strict_eq v (VNum 3)) list_3_4 = Some (false, [0; 1]%nat) /\
  every 2 (fun v _ => negb (strict_eq v (VNum 3))) list_3_4 = Some (false, [0%nat]) /\
  every 2 (fun v _ => truthy v) list_3_4 = Some (true, [0; 1]%nat).
Proof.
  assert (List.length [0; 1]%nat <= 2)%nat as Hf by (vm_compute; lia).
  split; [exact list_3_4_Rep|]. split; [exact Hf|].
  split; [|split].
  - exact (proj1 (every_holds_of_all_items 2 (fun v _ => strict_eq v (VNum 3))
                    list_3_4 [0; 1]%nat list_3_4_Rep Hf)).
  - exact (proj1 (every_holds_of_all_items 2 (fun v _ => negb (strict_eq v (VNum 3)))
                    list_3_4 [0; 1]%nat list_3_4_Rep Hf)).
  - exact (proj1 (every_holds_of_all_items 2 (fun v _ => truthy v)
                    list_3_4 [0; 1]%nat list_3_4_Rep Hf)).
Defined.

(** X2.  On a well-formed list, [some(callback)] returns whether the
    callback is truthy on some item; the callback is called on the items
    from the head up to and including the first one it is truthy on, and
    on no item behind that one.  [some] of a callback is the negation of
    [every] of the negated callback. *)
Theorem some_holds_of_an_item (fuel : nat) (callback : Predicate) (w : World)
    (ns : list ref) :
  Rep w ns -> (List.length ns <= fuel)%nat ->
  some fuel callback w =
    Some (existsb (test_on (items w) callback) ns, upto (test_on (items w) callback) ns) /\
  (ns = [] -> some fuel callback w = Some (false, [])) /\
  fst <$> some fuel callback w =
    negb <$> (fst <$> every fuel (fun v n => negb (callback v n)) w).
Proof.
  intros Rw Hf. rewrite (some_Rep fuel callback w ns Rw Hf).
  rewrite (every_Rep fuel _ w ns Rw Hf).
  split; [done|]. split; [by intros ->|]. cbn. f_equal.
  unfold test_on. clear. induction ns as [|n ns IH]; [done|]. cbn. rewrite IH.
  by destruct (callback _ n), (forallb _ ns).
Qed.

Lemma some_holds_of_an_item_witness :
  Rep list_3_4 [0; 1]%nat /\ (List.length [0; 1]%nat <= 2)%nat /\
  some 2 (fun v _ => strict_eq v (VNum 3)) list_3_4 = Some (true, [0%nat]) /\
  some 2 (fun v _ => strict_eq v (VNum 5)) list_3_4 = Some (false, [0; 1]%nat).
Proof.
  assert (List.length [0; 1]%nat <= 2)%nat as Hf by (vm_compute; lia).
  split; [exact list_3_4_Rep|]. split; [exact Hf|]. split.
  - exact (proj1 (some_holds_of_an_item 2 (fun v _ => strict_eq v (VNum 3))
                    list_3_4 [0; 1]%nat list_3_4_Rep Hf)).
  - exact (proj1 (some_holds_of_an_item 2 (fun v _ => strict_eq v (VNum 5))
                    list_3_4 [0; 1]%nat list_3_4_Rep Hf)).
Defined.

(** X3.  On a well-formed list, [findItem(callback)] returns the first
    item, from the head, the callback is truthy on, and nothing when there
    is none; [find(callback)] returns the value of that item, and
    [undefined] when there is none.  Both call the callback on the items up
    to and including that one; [some] answers whether [findItem] finds an
    item. *)
Theorem find_returns_first_hit (fuel : nat) (callback : Predicate) (w : World)
    (ns : list ref) :
  Rep w ns -> (List.length ns <= fuel)%nat ->
  findItem fuel callback w =
    Some (List.find (test_on (items w) callback) ns, upto (test_on (items w) callback) ns) /\
  find fuel callback w =
    Some (from_option (fun n => value (items w n)) VUndefined
            (List.find (test_on (items w) callback) ns),
          upto (test_on (items w) callback) ns) /\
  (forall m, fst <$> findItem fuel callback w = Some (Some m) ->
     exists l1 l2, ns = l1 ++ m :: l2 /\ test_on (items w) callback m = true /\
                   Forall (fun n => test_on (items w) callback n = false) l1) /\
  (fst <$> findItem fuel callback w = Some None ->
     Forall (fun n => test_on (items w) callback n = false) ns) /\
  fst <$> some fuel callback w =
    from_option (fun _ => true) false <$> (fst <$> findItem fuel callback w).
Proof.
  intros Rw Hf. rewrite (findItem_Rep fuel callback w ns Rw Hf).
  rewrite (find_Rep fuel callback w ns Rw Hf), (some_Rep fuel callback w ns Rw Hf).
  split; [done|]. split; [done|]. cbn. split; [|split].
  - intros m [= E]. clear -E. induction ns as [|n ns IH]; [done|].
    cbn in E. destruct (test_on (items w) callback n) eqn:T.
    + injection E as ->. by exists [], ns.
    + destruct (IH E) as (l1 & l2 & -> & Tm & F).
      exists (n :: l1), l2. split; [done|]. split; [done|]. by constructor.
  - intros [= E]. clear -E. induction ns as [|n ns IH]; [done|].
    cbn in E. destruct (test_on (items w) callback n) eqn:T; [done|].
    constructor; [done|]. by apply IH.
  - f_equal. rewrite find_existsb. by destruct (List.find _ ns).
Qed.

Lemma find_returns_first_hit_witness :
  Rep list_3_4 [0; 1]%nat /\ (List.length [0; 1]%nat <= 2)%nat /\
  findItem 2 (fun v _ => strict_eq v (VNum 4)) list_3_4 = Some (Some 1%nat, [0; 1]%nat) /\
  find 2 (fun v _ => strict_eq v (VNum 4)) list_3_4 = Some (VNum 4, [0; 1]%nat) /\
  find 2 (fun v _ => strict_eq v (VNum 5)) list_3_4 = Some (VUndefined, [0; 1]%nat).
Proof.
  assert (List.length [0; 1]%nat <= 2)%nat as Hf by (vm_compute; lia).
  split; [exact list_3_4_Rep|]. split; [exact Hf|].
  destruct (find_returns_first_hit 2 (fun v _ => strict_eq v (VNum 4))
              list_3_4 [0; 1]%nat list_3_4_Rep Hf) as (E1 & E2 & _).
  destruct (find_returns_first_hit 2 (fun v _ => strict_eq v (VNum 5))
              list_3_4 [0; 1]%nat list_3_4_Rep Hf) as (_ & E3 & _).
  split; [exact E1|]. split; [exact E2|exact E3].
Defined.

(** X4.  On a well-formed list, [forEach(callback)] calls the callback once
    for every item, in the order from head to tail, with the item's value
    and the item; on an empty list it makes no call. *)
Theorem forEach_visits_items_in_order (fuel : nat) (w : World) (ns : list ref) :
  Rep w ns -> (List.length ns <= fuel)%nat ->
  forEach fuel w = Some (map (fun n => (value (items w n), n)) ns) /\
  (map snd <$> forEach fuel w) = keys fuel w /\
  (map fst <$> forEach fuel w) = values fuel w.
Proof.
  intros Rw Hf. unfold forEach. rewrite (for_of_list_scan _ fuel w ns _ Rw Hf).
  rewrite scan_all. cbn.
  rewrite (keys_Rep fuel w ns Rw Hf), (values_Rep fuel w ns Rw Hf).
  split; [done|]. unfold values_of. split; f_equal.
  - rewrite map_map. cbn. apply map_id.
  - by rewrite map_map.
Qed.

Lemma forEach_visits_items_in_order_witness :
  Rep list_3_4 [0; 1]%nat /\ (List.length [0; 1]%nat <= 2)%nat /\
  forEach 2 list_3_4 = Some [(VNum 3, 0%nat); (VNum 4, 1%nat)].
Proof.
  assert (List.length [0; 1]%nat <= 2)%nat as Hf by (vm_compute; lia).
  split; [exact list_3_4_Rep|]. split; [exact Hf|].
  exact (proj1 (forEach_visits_items_in_order 2 list_3_4 [0; 1]%nat list_3_4_Rep Hf)).
Defined.

(** X5.  On every state, well-formed or not, the three generators agree:
    [entries()] (and the list's own iterator) yields the items [keys()]
    yields, each paired with its value, and [values()] yields the second
    components; when one runs out of fuel so do the others. *)
Theorem entries_pair_keys_with_values (fuel : nat) (w : World) :
  entries fuel w = map (fun r => (r, value (items w r))) <$> keys fuel w /\
  (map fst <$> entries fuel w) = keys fuel w /\
  (map snd <$> entries fuel w) = values fuel w.
Proof.
  assert (entries fuel w = map (fun r => (r, value (items w r))) <$> keys fuel w) as E.
  { unfold entries, iterator, keys. destruct (LinkedList.head (self w)); [|done].
    apply iterator_from_keys_from. }
  rewrite E. split; [done|]. unfold values. destruct (keys fuel w) as [ks|]; [|done].
  cbn. split; f_equal.
  - rewrite map_map. cbn. apply map_id.
  - by rewrite map_map.
Qed.

(** ** Searching a value from an index *)

Lemma item_from_index fuel v index w ns :
  Rep w ns -> (List.length ns < fuel)%nat ->
  itemOf fuel v index w = Some (first_match (items w) v (from_index ns index)).
Proof.
  intros Rw Hf. unfold itemOf, from_index.
  rewrite (getItemByIndex_item_at fuel index w ns Rw Hf), item_at_position. cbn.
  destruct (position (List.length ns) index) as [k|] eqn:Ek; cbn.
  - pose proof (position_lt _ _ _ Ek) as Hk.
    destruct (lookup_lt_is_Some_2 ns k Hk) as [c Hc].
    rewrite Hc, (drop_S _ _ _ Hc).
    apply item_from_linked; [exact (seg_linked_drop _ _ _ _ _ (rep_seg _ _ Rw) Hc)|].
    rewrite length_drop. lia.
  - destruct fuel; [lia|done].
Qed.

Lemma item_back_from_index fuel v index w ns :
  Rep w ns -> (List.length ns < fuel)%nat ->
  lastItemOf fuel v index w = Some (first_match (items w) v (back_from_index ns index)).
Proof.
  intros Rw Hf. unfold lastItemOf, back_from_index.
  rewrite (getItemByIndex_item_at fuel index w ns Rw Hf), item_at_position. cbn.
  destruct (position (List.length ns) index) as [k|] eqn:Ek; cbn.
  - pose proof (position_lt _ _ _ Ek) as Hk.
    destruct (lookup_lt_is_Some_2 ns k Hk) as [c Hc].
    rewrite Hc, (take_S_r _ _ _ Hc), rev_unit.
    apply item_from_linked; [exact (seg_linked_take _ _ _ _ _ (rep_seg _ _ Rw) Hc)|].
    rewrite length_rev, length_take. lia.
  - destruct fuel; [lia|done].
Qed.

Lemma position_zero len : position (S len) 0 = Some 0%nat.
Proof. done. Qed.

Lemma position_last len : position (S len) (-1) = Some len.
Proof.
  unfold position. rewrite (proj2 (Z.leb_gt 0 (-1))) by lia.
  rewrite (proj2 (Z.leb_le (- Z.of_nat (S len)) (-1))) by lia. f_equal. lia.
Qed.

Lemma from_index_zero ns : from_index ns 0 = ns.
Proof. by destruct ns. Qed.

Lemma back_from_index_last ns : back_from_index ns (-1) = rev ns.
Proof.
  destruct ns as [|a ns]; [done|]. unfold back_from_index.
  cbn [List.length]. rewrite position_last. by rewrite take_ge by (cbn [List.length]; lia).
Qed.

Lemma position_out len index :
  Z.of_nat len <= index \/ index < - Z.of_nat len -> position len index = None.
Proof.
  intros H. unfold position. destruct (Z.leb_spec 0 index).
  - destruct (Z.ltb_spec index (Z.of_nat len)); [lia|done].
  - destruct (Z.leb_spec (- Z.of_nat len) index); [lia|done].
Qed.

(** X6.  On a well-formed list, [itemOf(searchedValue, fromIndex)] returns
    the first item, going from the item [fromIndex] names towards the
    tail, whose value is strictly equal to the searched one, and nothing
    when there is none.  With the default [fromIndex] of [0] the whole list
    is searched; an index at or above [length], or below [-length], names
    no item and nothing is found. *)
Theorem itemOf_searches_towards_tail (fuel : nat) (v : Val) (index : Z) (w : World)
    (ns : list ref) :
  Rep w ns -> (List.length ns < fuel)%nat ->
  itemOf fuel v index w = Some (first_match (items w) v (from_index ns index)) /\
  itemOf fuel v 0 w = Some (first_match (items w) v ns) /\
  (0 <= index < Z.of_nat (List.length ns) ->
     itemOf fuel v index w = Some (first_match (items w) v (drop (Z.to_nat index) ns))) /\
  (Z.of_nat (List.length ns) <= index \/ index < - Z.of_nat (List.length ns) ->
     itemOf fuel v index w = Some None).
Proof.
  intros Rw Hf. rewrite !(item_from_index fuel v _ w ns Rw Hf).
  split; [done|]. split; [by rewrite from_index_zero|]. split.
  - intros Hi. unfold from_index, position.
    rewrite (proj2 (Z.leb_le 0 index)), (proj2 (Z.ltb_lt index _)) by lia. done.
  - intros Hi. unfold from_index. by rewrite (position_out _ _ Hi).
Qed.

Lemma itemOf_searches_towards_tail_witness :
  Rep list_3_4 [0; 1]%nat /\ (List.length [0; 1]%nat < 3)%nat /\
  itemOf 3 (VNum 3) 0 list_3_4 = Some (Some 0%nat) /\
  itemOf 3 (VNum 3) 1 list_3_4 = Some None /\
  itemOf 3 (VNum 3) (-2) list_3_4 = Some (Some 0%nat) /\
  itemOf 3 (VNum 3) (-3) list_3_4 = Some None.
Proof.
  assert (List.length [0; 1]%nat < 3)%nat as Hf by (vm_compute; lia).
  split; [exact list_3_4_Rep|]. split; [exact Hf|].
  split; [|split; [|split]].
  - exact (proj1 (itemOf_searches_towards_tail 3 (VNum 3) 0 list_3_4 _ list_3_4_Rep Hf)).
  - exact (proj1 (itemOf_searches_towards_tail 3 (VNum 3) 1 list_3_4 _ list_3_4_Rep Hf)).
  - exact (proj1 (itemOf_searches_towards_tail 3 (VNum 3) (-2) list_3_4 _ list_3_4_Rep Hf)).
  - exact (proj1 (itemOf_searches_towards_tail 3 (VNum 3) (-3) list_3_4 _ list_3_4_Rep Hf)).
Defined.

(** X7.  On a well-formed list, [lastItemOf(searchedValue, fromIndex)]
    returns the first item, going from the item [fromIndex] names towards
    the head, whose value is strictly equal to the searched one.  With the
    default [fromIndex] of [-1] the whole list is searched from the tail.
    An index at or above [length] names no item, so nothing is found even
    when the value is in the list. *)
Theorem lastItemOf_searches_towards_head (fuel : nat) (v : Val) (index : Z) (w : World)
    (ns : list ref) :
  Rep w ns -> (List.length ns < fuel)%nat ->
  lastItemOf fuel v index w = Some (first_match (items w) v (back_from_index ns index)) /\
  lastItemOf fuel v (-1) w = Some (first_match (items w) v (rev ns)) /\
  (0 <= index < Z.of_nat (List.length ns) ->
     lastItemOf fuel v index w =
       Some (first_match (items w) v (rev (take (S (Z.to_nat index)) ns)))) /\
  (Z.of_nat (List.length ns) <= index \/ index < - Z.of_nat (List.length ns) ->
     lastItemOf fuel v index w = Some None).
Proof.
  intros Rw Hf. rewrite !(item_back_from_index fuel v _ w ns Rw Hf).
  split; [done|]. split; [by rewrite back_from_index_last|]. split.
  - intros Hi. unfold back_from_index, position.
    rewrite (proj2 (Z.leb_le 0 index)), (proj2 (Z.ltb_lt index _)) by lia. done.
  - intros Hi. unfold back_from_index. by rewrite (position_out _ _ Hi).
Qed.

Lemma lastItemOf_searches_towards_head_witness :
  Rep list_3_4 [0; 1]%nat /\ (List.length [0; 1]%nat < 3)%nat /\
  lastItemOf 3 (VNum 3) (-1) list_3_4 = Some (Some 0%nat) /\
  lastItemOf 3 (VNum 4) 0 list_3_4 = Some None /\
  lastItemOf 3 (VNum 4) 1 list_3_4 = Some (Some 1%nat) /\
  lastItemOf 3 (VNum 4) 2 list_3_4 = Some None.
Proof.
  assert (List.length [0; 1]%nat < 3)%nat as Hf by (vm_compute; lia).
  split; [exact list_3_4_Rep|]. split; [exact Hf|].
  split; [|split; [|split]].
  - exact (proj1 (lastItemOf_searches_towards_head 3 (VNum 3) (-1) list_3_4 _ list_3_4_Rep Hf)).
  - exact (proj1 (lastItemOf_searches_towards_head 3 (VNum 4) 0 list_3_4 _ list_3_4_Rep Hf)).
  - exact (proj1 (lastItemOf_searches_towards_head 3 (VNum 4) 1 list_3_4 _ list_3_4_Rep Hf)).
  - exact (proj1 (lastItemOf_searches_towards_head 3 (VNum 4) 2 list_3_4 _ list_3_4_Rep Hf)).
Defined.

(** X8.  On every state and for every index, [includes(value, fromIndex)]
    answers whether [itemOf(value, fromIndex)] finds an item. *)
Theorem includes_agrees_with_itemOf (fuel : nat) (v : Val) (index : Z) (w : World) :
  includes fuel v index w =
    from_option (fun _ => true) false <$> itemOf fuel v index w.
Proof.
  unfold includes, itemOf. destruct (getItemByIndex fuel index w) as [current|]; [|done].
  cbn. apply includes_from_item_from.
Qed.

Lemma includes_Rep fuel v index w ns :
  Rep w ns -> (List.length ns < fuel)%nat ->
  includes fuel v index w = Some (any_match (items w) v (from_index ns index)).
Proof.
  intros Rw Hf. unfold includes.
  pose proof (item_from_index fuel v index w ns Rw Hf) as H. unfold itemOf in H.
  destruct (getItemByIndex fuel index w) as [current|]; [|done]. cbn in *.
  by rewrite includes_from_item_from, H, <- first_match_any.
Qed.

(** X9.  On a well-formed list, [includes(value, fromIndex)] returns
    whether some item from the one [fromIndex] names on, towards the tail,
    holds a value strictly equal to the given one.  The comparison is
    [===]: [NaN] is never found, also in a list that holds it; and below
    [-length] the search does not start, so nothing is found. *)
Theorem includes_compares_strictly (fuel : nat) (v : Val) (index : Z) (w : World)
    (ns : list ref) :
  Rep w ns -> (List.length ns < fuel)%nat ->
  includes fuel v index w = Some (any_match (items w) v (from_index ns index)) /\
  includes fuel v 0 w = Some (any_match (items w) v ns) /\
  includes fuel VNaN index w = Some false /\
  (index < - Z.of_nat (List.length ns) -> includes fuel v index w = Some false).
Proof.
  intros Rw Hf. rewrite !(includes_Rep fuel _ _ w ns Rw Hf). split; [done|]. split; [by rewrite from_index_zero|]. split.
  - f_equal. unfold any_match. apply not_true_is_false. intros H.
    apply existsb_exists in H as (n & _ & Hn). by destruct (value (items w n)).
  - intros Hi. unfold from_index. rewrite position_out by lia. done.
Qed.

Lemma includes_compares_strictly_witness :
  Rep list_3_4 [0; 1]%nat /\ (List.length [0; 1]%nat < 3)%nat /\
  includes 3 (VNum 3) 0 list_3_4 = Some true /\
  includes 3 (VNum 3) 1 list_3_4 = Some false /\
  includes 3 (VNum 3) (-3) list_3_4 = Some false.
Proof.
  assert (List.length [0; 1]%nat < 3)%nat as Hf by (vm_compute; lia).
  split; [exact list_3_4_Rep|]. split; [exact Hf|].
  split; [|split].
  - exact (proj1 (includes_compares_strictly 3 (VNum 3) 0 list_3_4 _ list_3_4_Rep Hf)).
  - exact (proj1 (includes_compares_strictly 3 (VNum 3) 1 list_3_4 _ list_3_4_Rep Hf)).
  - exact (proj1 (includes_compares_strictly 3 (VNum 3) (-3) list_3_4 _ list_3_4_Rep Hf)).
Defined.

(** ** reduce and reduceRight on a list with items *)

(** X10.  On a well-formed list with at least one item, [reduce] folds the
    reducer over the items from head to tail: called without a seed
    ([undefined]) it starts from the head's value and calls the reducer on
    the items behind the head; called with any other seed, falsy ones
    included, it starts from the seed and calls the reducer on every item.
    It does not throw. *)
Theorem reduce_folds_from_head (fuel : nat) (callback : Reducer) (seed : Val)
    (w : World) (a : ref) (rest : list ref) :
  Rep w (a :: rest) -> (List.length rest < fuel)%nat ->
  reduce fuel callback seed w =
    (if is_undefined seed
     then Some (Return (reduce_over (items w) callback rest (value (items w a))),
                reduce_calls (items w) callback rest (value (items w a)))
     else Some (Return (reduce_over (items w) callback (a :: rest) seed),
                reduce_calls (items w) callback (a :: rest) seed)).
Proof.
  intros Rw Hf. unfold reduce, reduce_with. rewrite (rep_head _ _ Rw). cbn [head].
  pose proof (seg_linked_behind _ _ _ _ (rep_seg _ _ Rw)) as L.
  destruct (is_undefined seed).
  - destruct rest as [|b rest]; cbn [linked] in L.
    + by rewrite L.
    + destruct L as [-> L].
      rewrite (reduce_loop_linked fuel behind callback _ b rest _ _ L) by (cbn in Hf; lia).
      done.
  - by rewrite (reduce_loop_linked fuel behind callback _ a rest _ _ L Hf).
Qed.

Lemma reduce_folds_from_head_witness :
  Rep list_3_4 (0 :: [1])%nat /\ (List.length [1%nat] < 2)%nat /\
  reduce 2 (fun acc v _ => v) VUndefined list_3_4 = Some (Return (VNum 4), [(VNum 3, VNum 4, 1%nat)]) /\
  reduce 2 (fun acc v _ => acc) (VNum 0) list_3_4
    = Some (Return (VNum 0), [(VNum 0, VNum 3, 0%nat); (VNum 0, VNum 4, 1%nat)]).
Proof.
  assert (List.length [1%nat] < 2)%nat as Hf by (vm_compute; lia).
  split; [exact list_3_4_Rep|]. split; [exact Hf|]. split.
  - exact (reduce_folds_from_head 2 (fun acc v _ => v) VUndefined list_3_4 0%nat [1%nat]
             list_3_4_Rep Hf).
  - exact (reduce_folds_from_head 2 (fun acc v _ => acc) (VNum 0) list_3_4 0%nat [1%nat]
             list_3_4_Rep Hf).
Defined.

(** X11.  On a well-formed list with at least one item, [reduceRight]
    folds the reducer over the items from tail to head: without a seed it
    starts from the tail's value and calls the reducer on the items before
    the tail, nearest first; with a seed other than [undefined] it calls
    the reducer on every item, the tail first. *)
Theorem reduceRight_folds_from_tail (fuel : nat) (callback : Reducer) (seed : Val)
    (w : World) (front : list ref) (z : ref) :
  Rep w (front ++ [z]) -> (List.length front < fuel)%nat ->
  reduceRight fuel callback seed w =
    (if is_undefined seed
     then Some (Return (reduce_over (items w) callback (rev front) (value (items w z))),
                reduce_calls (items w) callback (rev front) (value (items w z)))
     else Some (Return (reduce_over (items w) callback (z :: rev front) seed),
                reduce_calls (items w) callback (z :: rev front) seed)).
Proof.
  intros Rw Hf. unfold reduceRight, reduce_with. rewrite (rep_tail _ _ Rw), last_snoc.
  pose proof (seg_linked_before _ _ _ _ (rep_seg _ _ Rw)) as L.
  assert (List.length (rev front) < fuel)%nat as Hf' by (by rewrite length_rev).
  destruct (is_undefined seed).
  - destruct (rev front) as [|b l]; cbn [linked] in L.
    + by rewrite L.
    + destruct L as [-> L].
      rewrite (reduce_loop_linked fuel before callback _ b l _ _ L) by (cbn in Hf'; lia).
      done.
  - by rewrite (reduce_loop_linked fuel before callback _ z _ _ _ L Hf').
Qed.

Lemma reduceRight_folds_from_tail_witness :
  Rep list_3_4 ([0%nat] ++ [1%nat]) /\ (List.length [0%nat] < 2)%nat /\
  reduceRight 2 (fun acc v _ => v) VUndefined list_3_4
    = Some (Return (VNum 3), [(VNum 4, VNum 3, 0%nat)]) /\
  reduceRight 2 (fun acc v _ => acc) (VNum 0) list_3_4
    = Some (Return (VNum 0), [(VNum 0, VNum 4, 1%nat); (VNum 0, VNum 3, 0%nat)]).
Proof.
  assert (List.length [0%nat] < 2)%nat as Hf by (vm_compute; lia).
  split; [exact list_3_4_Rep|]. split; [exact Hf|]. split.
  - exact (reduceRight_folds_from_tail 2 (fun acc v _ => v) VUndefined list_3_4 [0%nat] 1%nat
             list_3_4_Rep Hf).
  - exact (reduceRight_folds_from_tail 2 (fun acc v _ => acc) (VNum 0) list_3_4 [0%nat] 1%nat
             list_3_4_Rep Hf).
Defined.

(** ** What the operations leave alone *)

(** [push] of one value writes the new item and the old tail, and nothing
    else. *)
Lemma push_value_frame fuel v w ns w' :
  Rep w ns -> (1 <= fuel)%nat -> push_value fuel v w = Some w' ->
  forall r, LinkedList.tail (self w) <> Some r -> r <> next_ref w ->
            items w' r = items w r.
Proof.
  intros Rw Hf E r Ht Hr. unfold push_value, new_item in E. cbn [self items] in E.
  destruct (Rep_ends _ _ Rw) as [(-> & Hh & Htl)|(a & t & Hh & Htl & Ha & Hl)];
    rewrite Hh, ?Htl in E.
  - cbn in E. injection E as <-. cbn. by rewrite upd_ne.
  - rewrite insertBehind_no_successor in E; [|rewrite upd_ne|done].
    + cbn in E. injection E as <-. cbn.
      rewrite upd_ne by congruence. rewrite insertBefore_frame by done. by rewrite upd_ne.
    + exact (seg_last_behind _ _ _ _ _ (rep_seg _ _ Rw) Hl).
    + intros ->. apply (Rep_fresh _ _ Rw). apply list_elem_of_lookup.
      rewrite last_lookup in Hl. eauto.
Qed.

(** [push] names its new items: they take the next references in order. *)
Lemma push_fresh fuel vs w ns :
  Rep w ns -> (1 <= fuel)%nat ->
  exists w',
    push fuel vs w = Some (Z.of_nat (List.length ns + List.length vs), w') /\
    Rep w' (ns ++ seq (next_ref w) (List.length vs)) /\
    values_of (items w') (seq (next_ref w) (List.length vs)) = vs /\
    (forall r, (r < next_ref w)%nat -> value (items w' r) = value (items w r)) /\
    (forall r, LinkedList.tail (self w) <> Some r -> (r < next_ref w)%nat ->
               items w' r = items w r) /\
    next_ref w' = (next_ref w + List.length vs)%nat /\
    calls w' = calls w.
Proof.
  intros Rw Hf. revert w ns Rw. induction vs as [|v vs IH]; intros w ns Rw.
  - exists w. cbn. rewrite app_nil_r, !Nat.add_0_r, (rep_length _ _ Rw). done.
  - destruct (push_value_Rep fuel v w ns Rw Hf) as (w1 & E1 & R1 & N1 & V1 & O1 & C1).
    pose proof (push_value_frame fuel v w ns w1 Rw Hf E1) as F1.
    destruct (IH w1 _ R1) as (w' & E & R' & V & O & F & N & C).
    exists w'. cbn [push]. rewrite E1. cbn [mbind option_bind].
    rewrite E, length_app. cbn [List.length seq]. rewrite N1 in *.
    split; [do 3 f_equal; lia|]. split; [by rewrite <- app_assoc in R'|].
    split; [|split; [|split; [|split]]].
    + unfold values_of in *. cbn [map]. rewrite V, O, V1; [done|lia].
    + intros r Hr. rewrite O, O1; [done|lia..].
    + intros r Ht Hr. rewrite F; [apply F1; [done|lia]| |lia].
      rewrite (rep_tail _ _ R1), last_snoc. intros [= <-]. lia.
    + lia.
    + congruence.
Qed.

Lemma Rep_self w1 w2 ns : Rep w1 ns -> Rep w2 ns -> self w1 = self w2.
Proof.
  intros R1 R2.
  pose proof (rep_head _ _ R1). pose proof (rep_tail _ _ R1). pose proof (rep_length _ _ R1).
  pose proof (rep_head _ _ R2). pose proof (rep_tail _ _ R2). pose proof (rep_length _ _ R2).
  destruct (self w1), (self w2). cbn in *. congruence.
Qed.

Lemma run_Rep_bound fuel ops w ns :
  Rep w ns -> (List.length ns + total_created ops < fuel)%nat ->
  exists w' ns', run fuel ops w = Some w' /\ Rep w' ns' /\
                 (List.length ns' <= List.length ns + total_created ops)%nat.
Proof.
  revert w ns. induction ops as [|o ops IH]; intros w ns Rw Hf; cbn [run].
  - exists w, ns. split; [done|]. split; [done|lia].
  - cbn [total_created foldr] in *. fold (total_created ops) in *.
    destruct (step_Rep fuel o w ns Rw) as (w1 & ns1 & -> & R1 & L1); [lia|].
    cbn [mbind option_bind].
    destruct (IH w1 ns1 R1) as (w' & ns' & E & R' & L'); [lia|].
    exists w', ns'. split; [done|]. split; [done|lia].
Qed.

(** ** push, pop and shift *)

(** X12.  On a well-formed list with contents [a1..an],
    [push(v1, ..., vk)] returns [n + k] and leaves the contents
    [a1, ..., an, v1, ..., vk], the new values in the given order.  The new
    items take the next [k] references; of the items that were there, only
    the old tail is written, and no value changes. *)
Theorem push_appends_in_order (fuel : nat) (vs : list Val) (w : World) (ns : list ref) :
  Rep w ns -> (1 <= fuel)%nat ->
  exists w',
    push fuel vs w = Some (LinkedList.length (self w) + Z.of_nat (List.length vs), w') /\
    Rep w' (ns ++ seq (next_ref w) (List.length vs)) /\
    values_of (items w') (ns ++ seq (next_ref w) (List.length vs))
      = values_of (items w) ns ++ vs /\
    (forall r, LinkedList.tail (self w) <> Some r -> (r < next_ref w)%nat ->
               items w' r = items w r) /\
    (forall fuel', (List.length ns + List.length vs <= fuel')%nat ->
       values fuel' w' = Some (values_of (items w) ns ++ vs)).
Proof.
  intros Rw Hf.
  destruct (push_fresh fuel vs w ns Rw Hf) as (w' & E & R' & V & O & F & _).
  exists w'. rewrite E, (rep_length _ _ Rw), Nat2Z.inj_add. split; [done|].
  split; [done|].
  assert (values_of (items w') (ns ++ seq (next_ref w) (List.length vs))
            = values_of (items w) ns ++ vs) as Hv.
  { unfold values_of in *. rewrite map_app, V. f_equal.
    apply (values_of_ext (items w)). intros r Hr. apply O. by apply (rep_alloc _ _ Rw). }
  split; [done|]. split; [done|]. intros fuel' Hf'.
  rewrite (values_Rep _ _ _ R'), Hv; [done|]. rewrite length_app, length_seq. lia.
Qed.

Lemma push_appends_in_order_witness :
  Rep list_3_4 [0; 1]%nat /\ (1 <= 1)%nat /\
  exists w',
    push 1 [VNum 7; VNum 8] list_3_4 = Some (4, w') /\
    Rep w' [0; 1; 2; 3]%nat /\
    values 4 w' = Some [VNum 3; VNum 4; VNum 7; VNum 8].
Proof.
  split; [exact list_3_4_Rep|]. split; [lia|].
  destruct (push_appends_in_order 1 [VNum 7; VNum 8] list_3_4 [0; 1]%nat list_3_4_Rep)
    as (w' & E & Rw & _ & _ & V); [lia|].
  exists w'. split; [exact E|]. split; [exact Rw|]. apply V. vm_compute. lia.
Defined.

(** X13.  On a well-formed list, [pop()] of an empty list returns nothing
    and changes nothing; otherwise it returns the value of the tail item,
    the list keeps the items before it with their values, [length] drops
    by one and the list's cleanup function is called once, on that item.
    The popped item loses its callback but keeps its [before] link into
    the list. *)
Theorem pop_takes_the_tail (w : World) (ns : list ref) :
  Rep w ns ->
  (ns = [] -> pop w = (None, w)) /\
  (forall front z, ns = front ++ [z] ->
     fst (pop w) = Some (value (items w z)) /\
     Rep (snd (pop w)) front /\
     values_of (items (snd (pop w))) front = values_of (items w) front /\
     LinkedList.length (self (snd (pop w))) = LinkedList.length (self w) - 1 /\
     calls (snd (pop w)) = calls w ++ [(ListCleanup, z)] /\
     unlinkCleanup (items (snd (pop w)) z) = None /\
     before (items (snd (pop w)) z) = last front).
Proof.
  intros Rw. pose proof (pop_Rep w ns Rw) as H. split.
  - intros ->. exact H.
  - intros front z ->. rewrite last_snoc in H.
    destruct H as (-> & pre & [-> _]%app_inj_tail & Rp). cbn [fst snd].
    split; [done|]. split; [done|].
    split; [apply values_of_ext; intros; apply unlink_value|].
    assert (unlinkCleanup (items w z) = Some ListCleanup) as Hc.
    { apply (rep_cleanup _ _ Rw), elem_of_app. right. apply list_elem_of_here. }
    destruct (unlink_calls false z w _ Hc) as [-> ->].
    split; [done|]. split; [done|].
    destruct (unlink_this false z w) as (-> & _ & ->). split; [done|].
    pose proof (rep_seg _ _ Rw) as Sg. apply seg_app in Sg as [_ Sg].
    destruct Sg as (-> & _). apply last_or_None.
Qed.

Lemma pop_takes_the_tail_witness :
  Rep list_3_4 [0; 1]%nat /\
  fst (pop list_3_4) = Some (VNum 4) /\ Rep (snd (pop list_3_4)) [0%nat] /\
  LinkedList.length (self (snd (pop list_3_4))) = 1.
Proof.
  split; [exact list_3_4_Rep|].
  destruct (pop_takes_the_tail list_3_4 [0; 1]%nat list_3_4_Rep) as [_ H].
  destruct (H [0%nat] 1%nat eq_refl) as (E & Rp & _ & L & _).
  split; [exact E|]. split; [exact Rp|exact L].
Defined.

(** X14.  On a well-formed list, [shift()] of an empty list returns
    nothing and changes nothing; otherwise it returns the value of the head
    item, the list keeps the items behind it with their values, [length]
    drops by one and the list's cleanup function is called once, on that
    item.  The shifted item loses its callback but keeps its [behind] link
    into the list. *)
Theorem shift_takes_the_head (w : World) (ns : list ref) :
  Rep w ns ->
  (ns = [] -> shift w = (None, w)) /\
  (forall a rest, ns = a :: rest ->
     fst (shift w) = Some (value (items w a)) /\
     Rep (snd (shift w)) rest /\
     values_of (items (snd (shift w))) rest = values_of (items w) rest /\
     LinkedList.length (self (snd (shift w))) = LinkedList.length (self w) - 1 /\
     calls (snd (shift w)) = calls w ++ [(ListCleanup, a)] /\
     unlinkCleanup (items (snd (shift w)) a) = None /\
     behind (items (snd (shift w)) a) = head rest).
Proof.
  intros Rw. pose proof (shift_Rep w ns Rw) as H. split.
  - intros ->. exact H.
  - intros a rest ->. destruct H as (-> & Rp). cbn [fst snd].
    split; [done|]. split; [done|].
    split; [apply values_of_ext; intros; apply unlink_value|].
    assert (unlinkCleanup (items w a) = Some ListCleanup) as Hc
      by apply (rep_cleanup _ _ Rw), list_elem_of_here.
    destruct (unlink_calls false a w _ Hc) as [-> ->].
    split; [done|]. split; [done|].
    destruct (unlink_this false a w) as (_ & -> & ->). split; [done|].
    destruct (rep_seg _ _ Rw) as (_ & -> & _). apply hd_or_None.
Qed.

Lemma shift_takes_the_head_witness :
  Rep list_3_4 [0; 1]%nat /\
  fst (shift list_3_4) = Some (VNum 3) /\ Rep (snd (shift list_3_4)) [1%nat] /\
  LinkedList.length (self (snd (shift list_3_4))) = 1.
Proof.
  split; [exact list_3_4_Rep|].
  destruct (shift_takes_the_head list_3_4 [0; 1]%nat list_3_4_Rep) as [_ H].
  destruct (H 0%nat [1%nat] eq_refl) as (E & Rp & _ & L & _).
  split; [exact E|]. split; [exact Rp|exact L].
Defined.

(** X15.  On a well-formed list, [push(v)] followed by [pop()] returns [v]
    and gives back the list as it was: the same items in the same order
    with the same values, and the same [head], [tail] and [length]; so
    does [unshift(v)] followed by [shift()]. *)
Theorem push_pop_round_trip (fuel : nat) (v : Val) (w : World) (ns : list ref) :
  Rep w ns -> (1 <= fuel)%nat ->
  holds_in (push fuel [v] w) (fun r =>
    fst (pop (snd r)) = Some v /\
    Rep (snd (pop (snd r))) ns /\
    self (snd (pop (snd r))) = self w /\
    values_of (items (snd (pop (snd r)))) ns = values_of (items w) ns) /\
  holds_in (unshift fuel [v] w) (fun r =>
    fst (shift (snd r)) = Some v /\
    Rep (snd (shift (snd r))) ns /\
    self (snd (shift (snd r))) = self w /\
    values_of (items (snd (shift (snd r)))) ns = values_of (items w) ns).
Proof.
  intros Rw Hf. split.
  - destruct (push_Rep fuel [v] w ns Rw Hf) as (w' & new & -> & R' & V & O & _).
    destruct new as [|r [|? ?]]; try done. injection V as V.
    cbn [holds_in snd]. pose proof (pop_Rep w' _ R') as H. rewrite last_snoc in H.
    destruct H as (-> & pre & [<- _]%app_inj_tail & Rp). cbn [fst snd].
    split; [by rewrite V|]. split; [done|]. split; [exact (Rep_self _ _ _ Rp Rw)|].
    apply values_of_ext. intros x Hx. rewrite unlink_value. apply O.
    by apply (rep_alloc _ _ Rw).
  - destruct (unshift_Rep fuel [v] w ns Rw Hf) as (w' & new & -> & R' & V & O & _).
    destruct new as [|r [|? ?]]; try done. injection V as V.
    cbn [holds_in snd]. pose proof (shift_Rep w' _ R') as H.
    destruct H as (-> & Rp). cbn [fst snd].
    split; [by rewrite V|]. split; [done|]. split; [exact (Rep_self _ _ _ Rp Rw)|].
    apply values_of_ext. intros x Hx. rewrite unlink_value. apply O.
    by apply (rep_alloc _ _ Rw).
Qed.

Lemma push_pop_round_trip_witness :
  Rep list_3_4 [0; 1]%nat /\ (1 <= 1)%nat /\
  holds_in (push 1 [VNum 9] list_3_4) (fun r =>
    fst (pop (snd r)) = Some (VNum 9) /\ self (snd (pop (snd r))) = self list_3_4) /\
  holds_in (unshift 1 [VNum 9] list_3_4) (fun r =>
    fst (shift (snd r)) = Some (VNum 9) /\ self (snd (shift (snd r))) = self list_3_4).
Proof.
  split; [exact list_3_4_Rep|]. split; [lia|].
  destruct (push_pop_round_trip 1 (VNum 9) list_3_4 [0; 1]%nat list_3_4_Rep) as [H1 H2];
    [lia|].
  split.
  - destruct (push 1 [VNum 9] list_3_4) as [r|]; [|exact H1].
    destruct H1 as (E & _ & S1 & _). split; [exact E|exact S1].
  - destruct (unshift 1 [VNum 9] list_3_4) as [r|]; [|exact H2].
    destruct H2 as (E & _ & S2 & _). split; [exact E|exact S2].
Defined.

(** ** The constructor and the length field *)

(** X16.  [new LinkedList(values)] returns for every sequence of values,
    and the list it makes yields exactly these values, in the given order;
    its [length] is their number.  One unit of fuel is enough whatever the
    number of values: appending behind the tail follows no chain. *)
Theorem constructor_holds_the_values (fuel fuel' : nat) (vs : list Val) (h : Heap)
    (n : ref) :
  (1 <= fuel)%nat -> (List.length vs <= fuel')%nat ->
  holds_in (new_LinkedList fuel vs h n) (fun w =>
    values fuel' w = Some vs /\
    LinkedList.length (self w) = Z.of_nat (List.length vs) /\
    holds_in (keys fuel' w) (fun ks =>
      LinkedList.head (self w) = head ks /\ LinkedList.tail (self w) = last ks)).
Proof.
  intros Hf Hf'.
  destruct (new_LinkedList_Rep fuel vs h n Hf) as (w & ns & -> & Rw & V).
  cbn [holds_in].
  assert (List.length ns = List.length vs) as Hlen by (by rewrite <- V, values_of_length).
  rewrite (values_Rep fuel' w ns Rw), (keys_Rep fuel' w ns Rw), V by lia.
  split; [done|]. split; [by rewrite (rep_length _ _ Rw), Hlen|]. cbn.
  split; [apply (rep_head _ _ Rw)|apply (rep_tail _ _ Rw)].
Qed.

Lemma constructor_holds_the_values_witness :
  (1 <= 1)%nat /\ (List.length [VNum 1; VNum 2; VNum 3] <= 3)%nat /\
  holds_in (new_LinkedList 1 [VNum 1; VNum 2; VNum 3] no_items 0%nat) (fun w =>
    values 3 w = Some [VNum 1; VNum 2; VNum 3] /\ LinkedList.length (self w) = 3).
Proof.
  assert (List.length [VNum 1; VNum 2; VNum 3] <= 3)%nat as Hf by (vm_compute; lia).
  split; [lia|]. split; [exact Hf|].
  pose proof (constructor_holds_the_values 1 3 [VNum 1; VNum 2; VNum 3] no_items 0%nat
                (le_n 1) Hf) as H.
  destruct (new_LinkedList 1 [VNum 1; VNum 2; VNum 3] no_items 0%nat) as [w|]; [|exact H].
  destruct H as (V & L & _). split; [exact V|exact L].
Defined.

(** X17.  After the constructor and any sequence of [push], [unshift],
    [pop], [shift], [remove], [removeAllOccurrences] and [clear], the
    [length] field is the number of items [keys()] yields, no item is
    yielded twice, and [head] and [tail] are the first and the last item
    yielded. *)
Theorem length_counts_the_items (fuel : nat) (vs : list Val) (ops : list Op) (h : Heap)
    (n : ref) :
  (List.length vs + total_created ops < fuel)%nat ->
  exists w ks,
    (new_LinkedList fuel vs h n ≫= run fuel ops) = Some w /\
    keys fuel w = Some ks /\
    LinkedList.length (self w) = Z.of_nat (List.length ks) /\
    NoDup ks /\
    LinkedList.head (self w) = head ks /\ LinkedList.tail (self w) = last ks.
Proof.
  intros Hf.
  destruct (new_LinkedList_Rep fuel vs h n) as (w0 & ns0 & -> & R0 & V0); [lia|].
  assert (List.length ns0 = List.length vs) as Hlen by (by rewrite <- V0, values_of_length).
  destruct (run_Rep_bound fuel ops w0 ns0 R0) as (w & ns & E & Rw & L); [lia|].
  exists w, ns. cbn [mbind option_bind]. split; [done|].
  rewrite (keys_Rep fuel w ns Rw) by lia. split; [done|].
  split; [apply (rep_length _ _ Rw)|]. split; [apply (rep_nodup _ _ Rw)|].
  split; [apply (rep_head _ _ Rw)|apply (rep_tail _ _ Rw)].
Qed.

Lemma length_counts_the_items_witness :
  (List.length [VNum 1; VNum 2; VNum 3] + total_created sample_ops < 10)%nat /\
  exists w ks,
    (new_LinkedList 10 [VNum 1; VNum 2; VNum 3] no_items 0%nat ≫= run 10 sample_ops)
      = Some w /\
    keys 10 w = Some ks /\
    LinkedList.length (self w) = Z.of_nat (List.length ks).
Proof.
  assert (List.length [VNum 1; VNum 2; VNum 3] + total_created sample_ops < 10)%nat as Hf
    by (vm_compute; lia).
  split; [exact Hf|].
  destruct (length_counts_the_items 10 [VNum 1; VNum 2; VNum 3] sample_ops no_items 0%nat Hf)
    as (w & ks & E & K & L & _).
  exists w, ks. split; [exact E|]. split; [exact K|exact L].
Defined.

(** ** Unlinking an item of a list by hand *)

(** X18.  Calling [unlink] on any item of a well-formed list, with or
    without [unchain], leaves a well-formed list of the other items, in
    their order and with their values; [length] drops by one, and when the
    item was the head or the tail the list's [head] or [tail] moves to its
    neighbour. *)
Theorem unlink_item_of_list (u : bool) (w : World) (l1 l2 : list ref) (n : ref) :
  Rep w (l1 ++ n :: l2) ->
  Rep (unlink u n w) (l1 ++ l2) /\
  Invariant (unlink u n w) /\
  values_of (items (unlink u n w)) (l1 ++ l2) = values_of (items w) (l1 ++ l2) /\
  LinkedList.length (self (unlink u n w)) = LinkedList.length (self w) - 1 /\
  LinkedList.head (self (unlink u n w)) = head (l1 ++ l2) /\
  LinkedList.tail (self (unlink u n w)) = last (l1 ++ l2) /\
  calls (unlink u n w) = calls w ++ [(ListCleanup, n)] /\
  (forall fuel, (List.length (l1 ++ l2) <= fuel)%nat ->
     keys fuel (unlink u n w) = Some (l1 ++ l2)).
Proof.
  intros Rw. pose proof (unlink_Rep u w l1 n l2 Rw) as Ru.
  split; [done|]. split; [by apply (Rep_Invariant _ (l1 ++ l2))|].
  split; [apply values_of_ext; intros; apply unlink_value|].
  assert (unlinkCleanup (items w n) = Some ListCleanup) as Hc.
  { apply (rep_cleanup _ _ Rw), elem_of_app. right. apply list_elem_of_here. }
  destruct (unlink_calls u n w _ Hc) as [-> ->].
  split; [done|]. split; [apply (rep_head _ _ Ru)|]. split; [apply (rep_tail _ _ Ru)|].
  split; [done|]. intros fuel Hf. by apply keys_Rep.
Qed.

Lemma unlink_item_of_list_witness :
  Rep list_3_4 ([] ++ 0%nat :: [1%nat]) /\
  Rep (unlink true 0%nat list_3_4) ([] ++ [1%nat]) /\
  LinkedList.head (self (unlink true 0%nat list_3_4)) = Some 1%nat.
Proof.
  split; [exact list_3_4_Rep|].
  destruct (unlink_item_of_list true list_3_4 [] [1%nat] 0%nat list_3_4_Rep)
    as (Ru & _ & _ & _ & Hh & _).
  split; [exact Ru|exact Hh].
Defined.

(** X19.  [clear()] without [unchain] leaves the list's callback on the
    former items: on a well-formed list of any length, unlinking any
    former item afterwards runs the callback on the emptied list and drives
    [length] to [-1].  After [clear(true)] the former items have no
    callback, and unlinking one changes neither the list object nor the
    log of calls. *)
Theorem unlink_after_clear (fuel : nat) (u : bool) (w : World) (ns : list ref) (n : ref) :
  Rep w ns -> n ∈ ns -> (List.length ns < fuel)%nat ->
  holds_in (clear fuel false w) (fun w1 =>
    LinkedList.length (self (unlink u n w1)) = -1 /\
    calls (unlink u n w1) = calls w1 ++ [(ListCleanup, n)]) /\
  holds_in (clear fuel true w) (fun w2 =>
    self (unlink u n w2) = self w2 /\ calls (unlink u n w2) = calls w2).
Proof.
  intros Rw Hn Hf. split.
  - cbn. pose proof (rep_cleanup _ _ Rw n Hn) as Hc.
    destruct (unlink_calls u n (set_self (LinkedList.mk None None 0) w) _ Hc) as [-> ->].
    done.
  - unfold clear.
    destruct (unchain_all_Rep fuel w ns Rw Hf) as (wu & -> & _ & Hcl & _).
    cbn. destruct (Hcl n Hn) as (_ & _ & Hc).
    by apply (unlink_no_callback u n (set_self (LinkedList.mk None None 0) wu)).
Qed.

Lemma unlink_after_clear_witness :
  Rep list_3_4 [0; 1]%nat /\ 1%nat ∈ [0; 1]%nat /\ (List.length [0; 1]%nat < 3)%nat /\
  holds_in (clear 3 false list_3_4) (fun w1 =>
    LinkedList.length (self (unlink false 1%nat w1)) = -1) /\
  holds_in (clear 3 true list_3_4) (fun w2 =>
    self (unlink false 1%nat w2) = self w2).
Proof.
  assert (List.length [0; 1]%nat < 3)%nat as Hf by (vm_compute; lia).
  assert (1%nat ∈ [0; 1]%nat) as Hn by (apply list_elem_of_further, list_elem_of_here).
  split; [exact list_3_4_Rep|]. split; [exact Hn|]. split; [exact Hf|].
  destruct (unlink_after_clear 3 false list_3_4 [0; 1]%nat 1%nat list_3_4_Rep Hn Hf)
    as [H1 H2].
  split.
  - destruct (clear 3 false list_3_4) as [w1|]; [|exact H1]. exact (proj1 H1).
  - destruct (clear 3 true list_3_4) as [w2|]; [|exact H2]. exact (proj1 H2).
Defined.

(** ** Items linked in by hand *)

(** X20.  Linking a new item, made without a callback, behind an item of
    a well-formed list by [insertBehind] puts it into the list's chain and
    hands it the list's cleanup function, but goes past the list object:
    [length] stays one short of the number of items, and behind the tail
    the new item is not the list's [tail].  Unlinking it again runs the
    inherited callback, so [length] ends one below what it was. *)
Theorem insertBehind_by_hand_bypasses_list (fuel : nat) (v : Val) (w : World)
    (pre post : list ref) (this : ref) :
  Rep w (pre ++ this :: post) -> (2 <= fuel)%nat ->
  let item := fst (new_item v None w) in
  let w0 := snd (new_item v None w) in
  exists h',
    insertBehind fuel this item (items w0) = Some h' /\
    seg h' None (pre ++ this :: item :: post) None /\
    value (h' item) = v /\
    unlinkCleanup (h' item) = Some ListCleanup /\
    (forall fuel', (List.length (pre ++ this :: item :: post) <= fuel')%nat ->
       keys fuel' (set_items h' w0) = Some (pre ++ this :: item :: post)) /\
    self (set_items h' w0) = self w /\
    LinkedList.length (self (set_items h' w0))
      = Z.of_nat (List.length (pre ++ this :: item :: post)) - 1 /\
    (post = [] -> LinkedList.tail (self (set_items h' w0)) = Some this) /\
    forall u, LinkedList.length (self (unlink u item (set_items h' w0)))
                = LinkedList.length (self w) - 1.
Proof.
  intros Rw Hf. cbn [new_item fst snd items]. set (item := next_ref w).
  set (h0 := upd item (fun _ => LinkedListItem.mk v None None None) (items w)).
  pose proof (Rep_fresh _ _ Rw) as Hfresh. fold item in Hfresh.
  assert (forall n, n ∈ pre ++ this :: post -> h0 n = items w n) as Hold.
  { intros n Hn. unfold h0. rewrite upd_ne; [done|]. by intros ->. }
  assert (this ∈ pre ++ this :: post) as Hthis
    by (apply elem_of_app; right; apply list_elem_of_here).
  destruct (insertBehind_splice fuel h0 None pre this post None item [])
    as (h' & E & Sg & Hval & _ & _ & Hci & _).
  { eapply seg_frame; [|apply (rep_seg _ _ Rw)]. intros n Hn. by rewrite Hold. }
  { apply seg_cons. unfold h0. by rewrite upd_eq. }
  { apply NoDup_app. split; [apply (rep_nodup _ _ Rw)|]. split; [|apply NoDup_singleton].
    intros x Hx ->%list_elem_of_singleton. done. }
  { right. cbn. lia. }
  exists h'. split; [done|]. cbn [app] in Sg. split; [done|].
  split; [rewrite Hval; unfold h0; by rewrite upd_eq|].
  assert (unlinkCleanup (h' item) = Some ListCleanup) as Hc.
  { rewrite Hci. unfold h0 at 1. rewrite upd_eq. cbn.
    rewrite Hold by done. by apply (rep_cleanup _ _ Rw). }
  split; [done|]. split.
  { intros fuel' Hf'. unfold keys. cbn [self items set_items].
    rewrite (rep_head _ _ Rw), head_app.
    destruct pre as [|a pre]; cbn [head app] in *.
    - apply (keys_from_seg _ _ None); [done|cbn in *; lia].
    - apply (keys_from_seg _ _ None); [done|cbn in *; lia]. }
  split; [done|]. split.
  { cbn [self set_items]. rewrite (rep_length _ _ Rw), !length_app. cbn [List.length]. lia. }
  split.
  { intros ->. cbn [self set_items]. by rewrite (rep_tail _ _ Rw), last_snoc. }
  intros u.
  by destruct (unlink_calls u item
                 (set_items h' (mkWorld h0 (S item) (self w) (calls w))) _ Hc) as [_ ->].
Qed.

Lemma insertBehind_by_hand_bypasses_list_witness :
  Rep list_3_4 ([0%nat] ++ 1%nat :: []) /\ (2 <= 2)%nat /\
  exists h',
    insertBehind 2 1%nat 2%nat (items (snd (new_item (VNum 5) None list_3_4))) = Some h' /\
    seg h' None [0; 1; 2]%nat None /\
    unlinkCleanup (h' 2%nat) = Some ListCleanup /\
    LinkedList.length (self (set_items h' (snd (new_item (VNum 5) None list_3_4)))) = 2 /\
    LinkedList.tail (self (set_items h' (snd (new_item (VNum 5) None list_3_4))))
      = Some 1%nat.
Proof.
  split; [exact list_3_4_Rep|]. split; [lia|].
  destruct (insertBehind_by_hand_bypasses_list 2 (VNum 5) list_3_4 [0%nat] [] 1%nat
              list_3_4_Rep (le_n 2)) as (h' & E & Sg & _ & Hc & _ & _ & L & T & _).
  exists h'. split; [exact E|]. split; [exact Sg|]. split; [exact Hc|].
  split; [exact L|exact (T eq_refl)].
Defined.

(** ** removeAllOccurrences, once more *)

Lemma removeAll_from_none fuel v w c l found :
  linked (items w) behind c l ->
  Forall (fun n => strict_eq (value (items w n)) v = false) (c :: l) ->
  (List.length l < fuel)%nat ->
  removeAll_from fuel v c found w = Some (found, w).
Proof.
  revert c l. induction fuel as [|fuel IH]; intros c l L F Hf; [lia|].
  apply Forall_cons in F as [Fc F]. cbn [removeAll_from]. rewrite Fc.
  destruct l as [|n l]; cbn [linked] in L.
  - by rewrite L.
  - destruct L as [-> L]. apply (IH n l); [done|done|cbn in Hf; lia].
Qed.

Lemma without_no_match h v ns :
  Forall (fun n => strict_eq (value (h n)) v = false) (without h v ns).
Proof.
  induction ns as [|n ns IH]; [done|]. cbn.
  destruct (strict_eq (value (h n)) v) eqn:E; [done|]. by constructor.
Qed.

Lemma any_match_none h v ns :
  Forall (fun n => strict_eq (value (h n)) v = false) ns -> any_match h v ns = false.
Proof.
  unfold any_match. induction 1 as [|n ns Hn F IH]; [done|]. cbn. by rewrite Hn, IH.
Qed.

(** X21.  On a well-formed list, after [removeAllOccurrences(v)] no item
    holds a value strictly equal to [v]: a second
    [removeAllOccurrences(v)], and [remove(v)], return [false] and change
    nothing, [includes(v)] is [false] and [itemOf(v)] finds nothing. *)
Theorem removeAllOccurrences_leaves_none (fuel : nat) (v : Val) (w : World)
    (ns : list ref) :
  Rep w ns -> (List.length ns < fuel)%nat ->
  holds_in (removeAllOccurrences fuel v w) (fun r =>
    removeAllOccurrences fuel v (snd r) = Some (false, snd r) /\
    remove fuel v (snd r) = Some (false, snd r) /\
    includes fuel v 0 (snd r) = Some false /\
    itemOf fuel v 0 (snd r) = Some None).
Proof.
  intros Rw Hf.
  destruct (removeAllOccurrences_Rep fuel v w ns Rw) as (w' & -> & R' & V & _); [lia|].
  cbn [holds_in snd]. set (ns' := without (items w) v ns) in *.
  assert (Forall (fun n => strict_eq (value (items w' n)) v = false) ns') as F.
  { eapply Forall_impl; [apply without_no_match|]. intros n Hn. cbn in Hn. by rewrite V. }
  pose proof (without_length (items w) v ns) as Hlen. fold ns' in Hlen.
  split; [|split; [|split]].
  - unfold removeAllOccurrences. rewrite (rep_head _ _ R').
    destruct ns' as [|c l] eqn:E; [done|]. cbn [head].
    apply (removeAll_from_none _ _ _ c l); [|done|cbn in Hlen; lia].
    exact (seg_linked_behind _ _ _ _ (rep_seg _ _ R')).
  - pose proof (remove_Rep fuel v w' ns' R') as H.
    rewrite (proj2 (first_match_None _ _ _) F) in H. apply H. lia.
  - rewrite (includes_Rep fuel v 0 w' ns' R') by lia.
    by rewrite from_index_zero, any_match_none.
  - rewrite (item_from_index fuel v 0 w' ns' R') by lia.
    by rewrite from_index_zero, (proj2 (first_match_None _ _ _) F).
Qed.

Lemma removeAllOccurrences_leaves_none_witness :
  Rep list_3_4 [0; 1]%nat /\ (List.length [0; 1]%nat < 3)%nat /\
  holds_in (removeAllOccurrences 3 (VNum 3) list_3_4) (fun r =>
    removeAllOccurrences 3 (VNum 3) (snd r) = Some (false, snd r) /\
    includes 3 (VNum 3) 0 (snd r) = Some false).
Proof.
  assert (List.length [0; 1]%nat < 3)%nat as Hf by (vm_compute; lia).
  split; [exact list_3_4_Rep|]. split; [exact Hf|].
  pose proof (removeAllOccurrences_leaves_none 3 (VNum 3) list_3_4 [0; 1]%nat
                list_3_4_Rep Hf) as H.
  destruct (removeAllOccurrences 3 (VNum 3) list_3_4) as [r|]; [|exact H].
  destruct H as (E & _ & I & _). split; [exact E|exact I].
Defined.

(** ** Lists made from a list *)

Lemma foreign_fields h r :
  value (foreign h r) = value (h r) /\ before (foreign h r) = before (h r) /\
  behind (foreign h r) = behind (h r).
Proof. unfold foreign. by destruct (unlinkCleanup (h r)) as [[|]|]. Qed.

Lemma linked_ext h h' link c l :
  (forall r, r ∈ c :: l -> link (h' r) = link (h r)) ->
  linked h link c l -> linked h' link c l.
Proof.
  revert c. induction l as [|n l IH]; intros c H L; cbn [linked] in *.
  - rewrite H; [done|apply list_elem_of_here].
  - destruct L as [L1 L2]. split; [rewrite H; [done|apply list_elem_of_here]|].
    apply IH; [|done]. intros r Hr. by apply H, list_elem_of_further.
Qed.

(** A loop that pushes, for every item of a chain, some values onto a list
    whose items were all created after the chain's. *)
Lemma push_loop {R : Type} fuel (select : ref -> Val -> list Val)
    (body : ref -> Val -> World -> option (World + R)) (h0 : Heap) (n0 : ref) :
  (forall item v nl,
     body item v nl = r ← push fuel (select item v) nl; Some (inl (snd r))) ->
  (1 <= fuel)%nat ->
  forall k c l nl ns',
    linked h0 behind c l ->
    (forall r, r ∈ c :: l -> (r < n0)%nat) ->
    Rep nl ns' -> (forall r, r ∈ ns' -> (n0 <= r)%nat) -> (n0 <= next_ref nl)%nat ->
    (forall r, (r < n0)%nat -> items nl r = h0 r) ->
    (List.length l < k)%nat ->
    exists nl' new,
      for_of k items body c nl = Some (inl nl') /\
      Rep nl' (ns' ++ new) /\
      values_of (items nl') new = flat_map (fun n => select n (value (h0 n))) (c :: l) /\
      (forall r, r ∈ new -> (next_ref nl <= r)%nat) /\
      (forall r, (r < n0)%nat -> items nl' r = h0 r) /\
      (forall r, (r < next_ref nl)%nat -> value (items nl' r) = value (items nl r)) /\
      (next_ref nl <= next_ref nl')%nat /\
      calls nl' = calls nl.
Proof.
  intros Hbody Hf. induction k as [|k IH]; intros c l nl ns' L Hsrc Rnl Hnew Hn0 Hold Hk;
    [lia|].
  assert (c < n0)%nat as Hc by apply Hsrc, list_elem_of_here.
  cbn [for_of]. rewrite Hbody, (Hold c Hc).
  destruct (push_fresh fuel (select c (value (h0 c))) nl ns' Rnl Hf)
    as (nl1 & -> & R1 & V1 & O1 & F1 & N1 & C1).
  cbn [mbind option_bind snd].
  set (vs := select c (value (h0 c))) in *.
  set (new1 := seq (next_ref nl) (List.length vs)) in *.
  assert (forall r, (r < n0)%nat -> items nl1 r = h0 r) as Hold1.
  { intros r Hr. rewrite F1; [by apply Hold| |lia].
    rewrite (rep_tail _ _ Rnl). intros Hl.
    assert (r ∈ ns') as Hin by (apply list_elem_of_lookup; rewrite last_lookup in Hl; eauto).
    apply Hnew in Hin. lia. }
  assert (forall r, r ∈ new1 -> (next_ref nl <= r)%nat) as Hnew1.
  { intros r Hr. unfold new1 in Hr. apply list_elem_of_In, in_seq in Hr. lia. }
  rewrite (Hold1 c Hc). destruct l as [|n l]; cbn [linked] in L.
  - rewrite L. exists nl1, new1. split; [done|]. split; [done|].
    cbn [flat_map]. rewrite app_nil_r. fold vs.
    split; [done|]. split; [done|]. split; [done|]. split; [done|]. split; [lia|done].
  - destruct L as [-> L].
    destruct (IH n l nl1 (ns' ++ new1)) as (nl' & new & E & R' & V & Hnew' & Hold' & O' & N' & C');
      [done| | | |lia|done|cbn in Hk; lia|].
    { intros r Hr. by apply Hsrc, list_elem_of_further. }
    { done. }
    { intros r [Hr|Hr]%elem_of_app; [by apply Hnew|]. apply Hnew1 in Hr. lia. }
    exists nl', (new1 ++ new). split; [done|]. split; [by rewrite app_assoc|].
    split; [|split; [|split; [done|split; [|split; [lia|congruence]]]]].
    + change (flat_map ?f (c :: ?t)) with (f c ++ flat_map f t).
      unfold values_of in *. rewrite map_app. f_equal; [|exact V].
      etransitivity; [|exact V1]. apply (values_of_ext (items nl1)). intros r Hr. apply O'.
      unfold new1 in Hr. apply list_elem_of_In, in_seq in Hr. lia.
    + intros r [Hr|Hr]%elem_of_app; [by apply Hnew1|]. apply Hnew' in Hr. lia.
    + intros r Hr. rewrite O', O1; [done|lia..].
Qed.

(** The same loop over a whole well-formed list, onto a new list. *)
Lemma push_loop_Rep {R : Type} fuel (select : ref -> Val -> list Val)
    (body : ref -> Val -> World -> option (World + R)) w ns :
  (forall item v nl,
     body item v nl = r ← push fuel (select item v) nl; Some (inl (snd r))) ->
  Rep w ns -> (List.length ns <= fuel)%nat ->
  exists nl new,
    for_of_list fuel items body (LinkedList.head (self w)) (new_list_beside w)
      = Some (inl nl) /\
    Rep nl new /\
    values_of (items nl) new = flat_map (fun n => select n (value (items w n))) ns /\
    (forall r, r ∈ new -> (next_ref w <= r)%nat) /\
    (forall r, (r < next_ref w)%nat -> items nl r = foreign (items w) r) /\
    (next_ref w <= next_ref nl)%nat.
Proof.
  intros Hbody Rw Hf. rewrite (rep_head _ _ Rw).
  assert (Rep (new_list_beside w) []) as R0 by (by apply Rep_empty).
  destruct ns as [|c l].
  - exists (new_list_beside w), []. cbn.
    repeat (split; [done|]). split; [|split; [done|lia]].
    intros r Hr. by apply not_elem_of_nil in Hr.
  - cbn [head for_of_list].
    destruct (push_loop fuel select body (foreign (items w)) (next_ref w) Hbody
                ltac:(cbn in Hf; lia) fuel c l (new_list_beside w) [])
      as (nl & new & E & R' & V & Hnew & Hold & _ & N & _); try done.
    + apply (linked_ext (items w)); [intros r _; apply foreign_fields|].
      exact (seg_linked_behind _ _ _ _ (rep_seg _ _ Rw)).
    + intros r Hr. by apply (rep_alloc _ _ Rw).
    + intros r Hr. by apply not_elem_of_nil in Hr.
    + exists nl, new. split; [done|]. split; [done|].
      split; [|done]. rewrite V. clear. generalize (c :: l). intros ns.
      induction ns as [|n ns IH]; [done|]. cbn.
      by rewrite IH, (proj1 (foreign_fields (items w) n)).
Qed.

Lemma flat_map_kept h callback ns :
  flat_map (fun n => kept callback n (value (h n))) ns
    = values_of h (List.filter (test_on h callback) ns).
Proof.
  induction ns as [|n ns IH]; [done|]. cbn. unfold kept at 1, test_on at 1.
  destruct (callback (value (h n)) n); cbn; by rewrite IH.
Qed.

Lemma flat_map_mapped h callback ns :
  flat_map (fun n => mapped callback n (value (h n))) ns
    = map (fun n => callback (value (h n)) n) ns.
Proof. induction ns as [|n ns IH]; [done|]. cbn. by rewrite IH. Qed.

Lemma flat_map_single h ns : flat_map (fun n => [value (h n)]) ns = values_of h ns.
Proof. induction ns as [|n ns IH]; [done|]. cbn. by rewrite IH. Qed.

Lemma filter_length_le (f : ref -> bool) ns :
  (List.length (List.filter f ns) <= List.length ns)%nat.
Proof. induction ns as [|n ns IH]; [done|]. cbn. destruct (f n); cbn; lia. Qed.

(** The loop of [concat] over its arguments. *)
Lemma concat_others_Rep fuel others h0 n0 :
  (1 <= fuel)%nat -> Forall (other_ok h0 n0 fuel) others ->
  forall nl ns',
    Rep nl ns' -> (forall r, r ∈ ns' -> (n0 <= r)%nat) -> (n0 <= next_ref nl)%nat ->
    (forall r, (r < n0)%nat -> items nl r = h0 r) ->
    exists nl' new,
      concat_others fuel (map other_of others) nl = Some nl' /\
      Rep nl' (ns' ++ new) /\
      values_of (items nl') new = flat_map (other_values h0) others /\
      (forall r, r ∈ new -> (next_ref nl <= r)%nat) /\
      (forall r, (r < n0)%nat -> items nl' r = h0 r) /\
      (forall r, (r < next_ref nl)%nat -> value (items nl' r) = value (items nl r)).
Proof.
  intros Hf Hok. induction Hok as [|o others Ho Hok IH]; intros nl ns' Rnl Hnew Hn0 Hold.
  - exists nl, []. cbn. rewrite app_nil_r.
    repeat (split; [done|]). split; [|done].
    intros r Hr. by apply not_elem_of_nil in Hr.
  - cbn [map concat_others].
    assert (exists vs, vs = other_values h0 o /\
              match other_of o with
              | OtherList start =>
                  vs' ← spread_values fuel start (items nl); push fuel vs' nl
              | OtherValue v => push fuel [v] nl
              end = push fuel vs nl) as (vs & Evs & ->).
    { destruct o as [v|ms]; cbn [other_of other_values]; [by eexists|].
      exists (values_of h0 ms). split; [done|].
      destruct Ho as (Sg & Hms & Hlen).
      assert (values_of (items nl) ms = values_of h0 ms) as Hv.
      { apply values_of_ext. intros r Hr. by rewrite Hold by by apply Hms. }
      destruct ms as [|c l]; [done|]. cbn [head spread_values].
      rewrite (keys_from_seg fuel (items nl) None c l); [|..|cbn in Hlen; lia].
      - cbn [mbind option_bind]. fold (values_of (items nl) (c :: l)). by rewrite Hv.
      - eapply seg_frame; [|exact Sg]. intros r Hr. by rewrite Hold by by apply Hms. }
    destruct (push_fresh fuel vs nl ns' Rnl Hf) as (nl1 & -> & R1 & V1 & O1 & F1 & N1 & C1).
    cbn [mbind option_bind snd].
    set (new1 := seq (next_ref nl) (List.length vs)) in *.
    assert (forall r, r ∈ new1 -> (next_ref nl <= r)%nat) as Hnew1.
    { intros r Hr. unfold new1 in Hr. apply list_elem_of_In, in_seq in Hr. lia. }
    destruct (IH nl1 (ns' ++ new1)) as (nl' & new & E & R' & V & Hnew' & Hold' & O').
    + done.
    + intros r [Hr|Hr]%elem_of_app; [by apply Hnew|]. apply Hnew1 in Hr. lia.
    + lia.
    + intros r Hr. rewrite F1; [by apply Hold| |lia].
      rewrite (rep_tail _ _ Rnl). intros Hl.
      assert (r ∈ ns') as Hin
        by (apply list_elem_of_lookup; rewrite last_lookup in Hl; eauto).
      apply Hnew in Hin. lia.
    + exists nl', (new1 ++ new). split; [done|]. split; [by rewrite app_assoc|].
      split; [|split; [|split; [done|]]].
      * cbn [flat_map]. rewrite <- Evs. unfold values_of in *. rewrite map_app.
        f_equal; [|exact V].
        etransitivity; [|exact V1]. apply (values_of_ext (items nl1)). intros r Hr. apply O'.
        unfold new1 in Hr. apply list_elem_of_In, in_seq in Hr. lia.
      * intros r [Hr|Hr]%elem_of_app; [by apply Hnew1|]. apply Hnew' in Hr. lia.
      * intros r Hr. rewrite O', O1; [done|lia..].
Qed.

(** X22.  On a well-formed list, [filter(callback)] returns a new
    well-formed list that holds, in their order, the values of the items
    the callback is truthy on.  Its items are all created by the call, none
    is an item of the filtered list, and the filtered list's items keep
    their values and links. *)
Theorem filter_makes_a_new_list (fuel : nat) (callback : Predicate) (w : World)
    (ns : list ref) :
  Rep w ns -> (List.length ns <= fuel)%nat ->
  exists nl new,
    LinkedList_filter fuel callback w = Some nl /\
    Rep nl new /\
    values_of (items nl) new
      = values_of (items w) (List.filter (test_on (items w) callback) ns) /\
    (forall r, r ∈ new -> (next_ref w <= r)%nat /\ r ∉ ns) /\
    (forall r, (r < next_ref w)%nat ->
       value (items nl r) = value (items w r) /\
       before (items nl r) = before (items w r) /\
       behind (items nl r) = behind (items w r)) /\
    values fuel nl
      = Some (values_of (items w) (List.filter (test_on (items w) callback) ns)).
Proof.
  intros Rw Hf. unfold LinkedList_filter.
  destruct (push_loop_Rep (R := Empty_set) fuel (kept callback)
              (fun item v newList =>
                 if callback v item
                 then r ← push fuel [v] newList; Some (inl (snd r))
                 else Some (inl newList)) w ns)
    as (nl & new & -> & R' & V & Hnew & Hold & _); [|done|done|].
  { intros item v nl. unfold kept. by destruct (callback v item). }
  rewrite flat_map_kept in V. exists nl, new. cbn. split; [done|]. split; [done|].
  split; [done|]. split; [|split].
  - intros r Hr. split; [by apply Hnew|]. intros Hin.
    apply (rep_alloc _ _ Rw) in Hin. apply Hnew in Hr. lia.
  - intros r Hr. rewrite (Hold r Hr). apply foreign_fields.
  - rewrite (values_Rep fuel nl new R'), V; [done|].
    rewrite <- (values_of_length (items nl)), V, values_of_length.
    pose proof (filter_length_le (test_on (items w) callback) ns). lia.
Qed.

Lemma filter_makes_a_new_list_witness :
  Rep list_3_4 [0; 1]%nat /\ (List.length [0; 1]%nat <= 2)%nat /\
  exists nl new,
    LinkedList_filter 2 (fun v _ => strict_eq v (VNum 4)) list_3_4 = Some nl /\
    Rep nl new /\
    values 2 nl = Some [VNum 4].
Proof.
  assert (List.length [0; 1]%nat <= 2)%nat as Hf by (vm_compute; lia).
  split; [exact list_3_4_Rep|]. split; [exact Hf|].
  destruct (filter_makes_a_new_list 2 (fun v _ => strict_eq v (VNum 4)) list_3_4
              [0; 1]%nat list_3_4_Rep Hf) as (nl & new & E & Rn & _ & _ & _ & V).
  exists nl, new. split; [exact E|]. split; [exact Rn|exact V].
Defined.

(** X23.  On a well-formed list, [map(callback)] returns a new well-formed
    list of the same length that holds, in order, what the callback returns
    for each item.  Its items are all created by the call, and the mapped
    list's items keep their values and links. *)
Theorem map_makes_a_new_list (fuel : nat) (callback : Mapper) (w : World)
    (ns : list ref) :
  Rep w ns -> (List.length ns <= fuel)%nat ->
  exists nl new,
    LinkedList_map fuel callback w = Some nl /\
    Rep nl new /\
    values_of (items nl) new = map (fun n => callback (value (items w n)) n) ns /\
    LinkedList.length (self nl) = LinkedList.length (self w) /\
    (forall r, r ∈ new -> (next_ref w <= r)%nat /\ r ∉ ns) /\
    (forall r, (r < next_ref w)%nat ->
       value (items nl r) = value (items w r) /\
       before (items nl r) = before (items w r) /\
       behind (items nl r) = behind (items w r)) /\
    values fuel nl = Some (map (fun n => callback (value (items w n)) n) ns).
Proof.
  intros Rw Hf. unfold LinkedList_map.
  destruct (push_loop_Rep (R := Empty_set) fuel (mapped callback)
              (fun item v newList =>
                 r ← push fuel [callback v item] newList; Some (inl (snd r))) w ns)
    as (nl & new & -> & R' & V & Hnew & Hold & _); [done..|].
  rewrite flat_map_mapped in V. exists nl, new. cbn. split; [done|]. split; [done|].
  assert (List.length new = List.length ns) as Hlen
    by (by rewrite <- (values_of_length (items nl)), V, length_map).
  split; [done|]. split; [|split; [|split]].
  - by rewrite (rep_length _ _ R'), (rep_length _ _ Rw), Hlen.
  - intros r Hr. split; [by apply Hnew|]. intros Hin.
    apply (rep_alloc _ _ Rw) in Hin. apply Hnew in Hr. lia.
  - intros r Hr. rewrite (Hold r Hr). apply foreign_fields.
  - rewrite (values_Rep fuel nl new R'), V; [done|lia].
Qed.

Lemma map_makes_a_new_list_witness :
  Rep list_3_4 [0; 1]%nat /\ (List.length [0; 1]%nat <= 2)%nat /\
  exists nl new,
    LinkedList_map 2 (fun v item => VNum (Z.of_nat item)) list_3_4 = Some nl /\
    Rep nl new /\
    values 2 nl = Some [VNum 0; VNum 1].
Proof.
  assert (List.length [0; 1]%nat <= 2)%nat as Hf by (vm_compute; lia).
  split; [exact list_3_4_Rep|]. split; [exact Hf|].
  destruct (map_makes_a_new_list 2 (fun v item => VNum (Z.of_nat item)) list_3_4
              [0; 1]%nat list_3_4_Rep Hf) as (nl & new & E & Rn & _ & _ & _ & _ & V).
  exists nl, new. split; [exact E|]. split; [exact Rn|exact V].
Defined.

(** X24.  On a well-formed list, [concat(...others)] returns a new
    well-formed list that holds the values of this list followed by the
    given ones in order, a list among them contributing its values from
    head to tail.  All items of the new list are created by the call: it
    shares no item with this list or with a list given, and their items
    keep their values and links. *)
Theorem concat_copies_the_values (fuel : nat) (others : list OtherItems) (w : World)
    (ns : list ref) :
  Rep w ns -> (1 <= fuel)%nat -> (List.length ns <= fuel)%nat ->
  Forall (other_ok (items w) (next_ref w) fuel) others ->
  exists nl new,
    LinkedList_concat fuel (map other_of others) w = Some nl /\
    Rep nl new /\
    values_of (items nl) new
      = values_of (items w) ns ++ flat_map (other_values (items w)) others /\
    (forall r, r ∈ new -> (next_ref w <= r)%nat /\ r ∉ ns) /\
    (forall r, (r < next_ref w)%nat ->
       value (items nl r) = value (items w r) /\
       before (items nl r) = before (items w r) /\
       behind (items nl r) = behind (items w r)).
Proof.
  intros Rw Hf Hlen Hok. unfold LinkedList_concat, new_LinkedList_of.
  destruct (push_loop_Rep (R := Empty_set) fuel (fun _ v => [v])
              (fun _ v newList => r ← push fuel [v] newList; Some (inl (snd r))) w ns)
    as (nl0 & new0 & E0 & R0 & V0 & Hnew0 & Hold0 & N0); [done..|].
  unfold new_list_beside in E0. rewrite E0. cbn [fmap option_fmap option_map finished mbind option_bind].
  rewrite flat_map_single in V0.
  destruct (concat_others_Rep fuel others (foreign (items w)) (next_ref w) Hf) with
    (nl := nl0) (ns' := new0) as (nl & new & E & R' & V & Hnew & Hold & O); try done.
  { eapply Forall_impl; [exact Hok|]. intros [v|ms]; [done|]. cbn.
    intros (Sg & Hms & Hl). split; [|done].
    eapply seg_frame; [|exact Sg]. intros r _.
    by destruct (foreign_fields (items w) r) as (_ & -> & ->). }
  exists nl, (new0 ++ new). split; [done|]. split; [done|].
  split; [|split].
  - unfold values_of in *. rewrite map_app, V. f_equal.
    + rewrite <- V0. apply (values_of_ext (items nl0)). intros r Hr. apply O.
      apply (rep_alloc _ _ R0) in Hr. lia.
    + clear. induction others as [|o others IH]; [done|]. cbn. rewrite IH. f_equal.
      destruct o as [v|ms]; [done|]. cbn. apply values_of_ext. intros r _.
      apply foreign_fields.
  - assert (forall r, r ∈ new0 ++ new -> (next_ref w <= r)%nat) as Hall.
    { intros r [Hr|Hr]%elem_of_app; [by apply Hnew0|]. apply Hnew in Hr. lia. }
    intros r Hr. split; [by apply Hall|]. intros Hin.
    apply (rep_alloc _ _ Rw) in Hin. apply Hall in Hr. lia.
  - intros r Hr. rewrite (Hold r Hr). apply foreign_fields.
Qed.

Lemma concat_copies_the_values_witness :
  Rep list_3_4 [0; 1]%nat /\ (1 <= 2)%nat /\ (List.length [0; 1]%nat <= 2)%nat /\
  Forall (other_ok (items list_3_4) (next_ref list_3_4) 2)
    [ItemsOfValue (VNum 7); ItemsOfList [0; 1]%nat] /\
  exists nl new,
    LinkedList_concat 2 [OtherValue (VNum 7); OtherList (Some 0%nat)] list_3_4 = Some nl /\
    Rep nl new /\
    values_of (items nl) new = [VNum 3; VNum 4; VNum 7; VNum 3; VNum 4].
Proof.
  assert (List.length [0; 1]%nat <= 2)%nat as Hf by (vm_compute; lia).
  assert (Forall (other_ok (items list_3_4) (next_ref list_3_4) 2)
            [ItemsOfValue (VNum 7); ItemsOfList [0; 1]%nat]) as Hok.
  { constructor; [exact I|]. constructor; [|constructor].
    split; [exact (rep_seg _ _ list_3_4_Rep)|].
    split; [exact (rep_alloc _ _ list_3_4_Rep)|exact Hf]. }
  split; [exact list_3_4_Rep|]. split; [lia|]. split; [exact Hf|]. split; [exact Hok|].
  destruct (concat_copies_the_values 2 [ItemsOfValue (VNum 7); ItemsOfList [0; 1]%nat]
              list_3_4 [0; 1]%nat list_3_4_Rep) as (nl & new & E & Rn & V & _); [lia|exact Hf|exact Hok|].
  exists nl, new. split; [exact E|]. split; [exact Rn|exact V].
Defined.

(** ** Who gets which callback in insertBehind *)

(** The old successor takes the callback of the end of the inserted chain
    when it has none of its own. *)
Lemma insertBehind_successor_cleanup fuel h p0 pre this o post q0 item ns e :
  seg h p0 (pre ++ this :: o :: post) None ->
  seg h q0 (item :: ns) None ->
  (forall x, x ∈ item :: ns -> x ∉ pre ++ this :: o :: post) ->
  last (item :: ns) = Some e ->
  (List.length ns + 2 <= fuel)%nat ->
  exists h',
    insertBehind fuel this item h = Some h' /\
    unlinkCleanup (h' o) =
      match unlinkCleanup (h o) with
      | Some c => Some c
      | None => unlinkCleanup (insertBefore item this h e)
      end.
Proof.
  intros SG SN Hdisj He Hf.
  assert (behind (h this) = Some o) as Ho.
  { apply seg_app in SG as [_ (_ & Hn & _)]. done. }
  assert (o ∈ pre ++ this :: o :: post) as Hin.
  { apply elem_of_app. right. apply list_elem_of_further, list_elem_of_here. }
  assert (e ∈ item :: ns) as Hein.
  { apply list_elem_of_lookup. rewrite last_lookup in He. eauto. }
  assert (o <> e) as Hoe by (intros ->; by apply (Hdisj e)).
  assert (o <> item) as Hoi by (intros ->; apply (Hdisj item); [apply list_elem_of_here|done]).
  assert (o <> this) as Hot.
  { intros ->. pose proof (seg_NoDup _ _ _ SG) as ND.
    apply NoDup_app in ND as (_ & _ & ND). apply NoDup_cons in ND as [ND _].
    apply ND, list_elem_of_here. }
  eexists. split.
  - apply insertBehind_successor; [done| |lia].
    rewrite <- He. apply (chainEnd_seg _ _ q0); [done|lia].
  - rewrite upd_cleanup_keep by (by intros []). rewrite upd_cleanup_keep by (by intros []).
    rewrite !insertBefore_cleanup.
    rewrite (insertBefore_frame o e _ e) by done.
    rewrite (insertBefore_frame item this h o) by done.
    destruct (unlinkCleanup (h o)); [done|]. by destruct (unlinkCleanup _).
Qed.

(** X25.  [insertBehind] hands callbacks down, never replaces one: for a
    chain headed by [item] that shares no item with the chain of [this],
    after [this.insertBehind(item)] the item has its own callback if it had
    one and the callback of [this] otherwise; the old successor of [this],
    if it had no callback, gets the one the end of the inserted chain has
    by then; every item that had a callback keeps it, every other item's
    callback is as before, and no value changes. *)
Theorem insertBehind_hands_down_callback
    (h : Heap) (p0 q0 : option ref) (pre post ns : list ref) (this item : ref)
    (fuel : nat) :
  seg h p0 (pre ++ this :: post) None ->
  seg h q0 (item :: ns) None ->
  (forall x, x ∈ item :: ns -> x ∉ pre ++ this :: post) ->
  (List.length ns + 2 <= fuel)%nat ->
  exists h',
    insertBehind fuel this item h = Some h' /\
    unlinkCleanup (h' item) =
      match unlinkCleanup (h item) with
      | Some c => Some c
      | None => unlinkCleanup (h this)
      end /\
    (forall o e, head post = Some o -> last (item :: ns) = Some e ->
       unlinkCleanup (h' o) =
         match unlinkCleanup (h o) with
         | Some c => Some c
         | None => if decide (e = item) then unlinkCleanup (h' item)
                   else unlinkCleanup (h e)
         end) /\
    (forall r c, unlinkCleanup (h r) = Some c -> unlinkCleanup (h' r) = Some c) /\
    (forall r, r <> item -> head post <> Some r ->
       unlinkCleanup (h' r) = unlinkCleanup (h r)) /\
    (forall r, value (h' r) = value (h r)).
Proof.
  intros SG SN Hdisj Hf.
  assert (NoDup ((pre ++ this :: post) ++ item :: ns)) as ND.
  { apply NoDup_app. split; [by eapply seg_NoDup|]. split; [|by eapply seg_NoDup].
    intros x Hx Hx'. by apply (Hdisj x). }
  destruct (insertBehind_splice fuel h p0 pre this post q0 item ns SG SN ND)
    as (h' & E & _ & Hval & Hkeep & Hother & Hitem & _); [by right|].
  exists h'. split; [done|]. split; [done|]. split; [|done].
  intros o e Hp He. destruct post as [|o' post]; [done|]. injection Hp as ->.
  destruct (insertBehind_successor_cleanup fuel h p0 pre this o post q0 item ns e
              SG SN Hdisj He Hf) as (h2 & E2 & Hc2).
  rewrite E in E2. injection E2 as <-. rewrite Hc2.
  destruct (unlinkCleanup (h o)); [done|]. case_decide as Hd.
  - subst e. by rewrite insertBefore_cleanup, Hitem.
  - by rewrite insertBefore_frame.
Qed.

Lemma insertBehind_hands_down_callback_witness :
  seg list_3_4_and_item None ([0%nat] ++ 1%nat :: []) None /\
  seg list_3_4_and_item None (2%nat :: []) None /\
  (forall x, x ∈ 2%nat :: [] -> x ∉ [0%nat] ++ 1%nat :: []) /\
  (List.length (@nil ref) + 2 <= 2)%nat /\
  exists h',
    insertBehind 2 1%nat 2%nat list_3_4_and_item = Some h' /\
    unlinkCleanup (h' 2%nat) = Some ListCleanup /\
    value (h' 2%nat) = VNum 5.
Proof.
  assert (seg list_3_4_and_item None ([0%nat] ++ 1%nat :: []) None) as SG by (by vm_compute).
  assert (seg list_3_4_and_item None (2%nat :: []) None) as SN by (by vm_compute).
  assert (forall x, x ∈ 2%nat :: [] -> x ∉ [0%nat] ++ 1%nat :: []) as Hd.
  { intros x ->%list_elem_of_singleton Hx. apply list_elem_of_In in Hx. cbn in Hx.
    destruct Hx as [Hx|[Hx|[]]]; discriminate Hx. }
  assert (List.length (@nil ref) + 2 <= 2)%nat as Hf by (vm_compute; lia).
  split; [exact SG|]. split; [exact SN|]. split; [exact Hd|]. split; [exact Hf|].
  destruct (insertBehind_hands_down_callback list_3_4_and_item None None [0%nat] [] []
              1%nat 2%nat 2 SG SN Hd Hf) as (h' & E & Hc & _ & _ & _ & Hv).
  exists h'. split; [exact E|]. split; [exact Hc|exact (Hv 2%nat)].
Defined.
